(** * aioblkcopy: the dual-queue asynchronous I/O scheduler

    A shallow embedding of [src/aioblkcopy.c] (and the constants and the
    request record of [src/aioblkcopy.h]), followed by the properties of
    the scheduler that the specification states and by further properties
    of the code.

    The C program is one function, [main].  It is embedded in three parts:
    - [Cmdline]: the option loop (lines 225-336);
    - [Startup]: the seekability classification (lines 338-415);
    - [Sched]: the request queues and the main loop (lines 555-929) with
      the epilogue (lines 931-958).

    The operating system is an oracle: the k-th system call of a run gets
    the answer [os k].  Every call the scheduler makes to submit or release
    something is appended to a trace, and every answer the main loop gets
    to a log. *)

From stdpp Require Import base list strings.
From Stdlib Require Import ZArith Lia Ascii.

Open Scope Z_scope.

(** ** Machine integers *)

(** [size_t] is unsigned and 64 bits wide: arithmetic wraps. *)
Definition wrap64 (z : Z) : Z := z mod 2 ^ 64.

(** Conversion to [int] (32 bits, two's complement). *)
Definition sint32 (z : Z) : Z := (z + 2 ^ 31) mod 2 ^ 32 - 2 ^ 31.

(** Conversion to [long long] (64 bits, two's complement). *)
Definition sint64 (z : Z) : Z := (z + 2 ^ 63) mod 2 ^ 64 - 2 ^ 63.

(** ** Constants of aioblkcopy.h and of the C library *)

Definition EXIT_USAGE : Z := 1.
Definition EXIT_SUCCESS : Z := 0.
Definition EXIT_FAILURE : Z := 1.

Definition DEFAULT_BLKSIZE : Z := 1048576.
Definition DEFAULT_MAXQUEUESIZE : Z := 8.

Definition QUEITEM_FREE : Z := 0.
Definition QUEITEM_READY : Z := 1.
Definition QUEITEM_INPROGRESS : Z := 2.

(** errno values (Linux). *)
Definition ENOENT : Z := 2.
Definition EFBIG : Z := 27.
Definition ERANGE : Z := 34.
Definition EINPROGRESS : Z := 115.
Definition ECANCELED : Z := 125.

Definition NULL : Z := 0.

(** ** Records *)

(** [struct aiocb]: the fields the program assigns.  The three
    [aio_sigevent] fields get the same constants at every submission and the
    signal handler is empty, so they are left out.  [aio_offset] (an [off_t])
    is kept as the 64 bits the program stores into it. *)
Record aiocb : Type := Aiocb {
  aio_fildes : Z;
  aio_reqprio : Z;
  aio_buf : Z;
  aio_offset : Z;
  aio_nbytes : Z
}.

(** [struct blkqueitem] of aioblkcopy.h; [aiodata] points to a control
    block owned by the slot alone, held here by value. *)
Record blkqueitem : Type := Blkqueitem {
  rqnum : Z;
  fd : Z;
  status : Z;
  retcode : Z;
  buffer : Z;
  fdoffset : Z;
  readyb : Z;
  aiodata : aiocb
}.

Definition set_rqnum (v : Z) (q : blkqueitem) : blkqueitem :=
  Blkqueitem v (fd q) (status q) (retcode q) (buffer q) (fdoffset q) (readyb q) (aiodata q).
Definition set_status (v : Z) (q : blkqueitem) : blkqueitem :=
  Blkqueitem (rqnum q) (fd q) v (retcode q) (buffer q) (fdoffset q) (readyb q) (aiodata q).
Definition set_retcode (v : Z) (q : blkqueitem) : blkqueitem :=
  Blkqueitem (rqnum q) (fd q) (status q) v (buffer q) (fdoffset q) (readyb q) (aiodata q).
Definition set_buffer (v : Z) (q : blkqueitem) : blkqueitem :=
  Blkqueitem (rqnum q) (fd q) (status q) (retcode q) v (fdoffset q) (readyb q) (aiodata q).
Definition set_fdoffset (v : Z) (q : blkqueitem) : blkqueitem :=
  Blkqueitem (rqnum q) (fd q) (status q) (retcode q) (buffer q) v (readyb q) (aiodata q).
Definition set_readyb (v : Z) (q : blkqueitem) : blkqueitem :=
  Blkqueitem (rqnum q) (fd q) (status q) (retcode q) (buffer q) (fdoffset q) v (aiodata q).
Definition set_aiodata (v : aiocb) (q : blkqueitem) : blkqueitem :=
  Blkqueitem (rqnum q) (fd q) (status q) (retcode q) (buffer q) (fdoffset q) (readyb q) v.

(** [aiodata->aio_buf = v]. *)
Definition set_aio_buf (v : Z) (q : blkqueitem) : blkqueitem :=
  set_aiodata (Aiocb (aio_fildes (aiodata q)) (aio_reqprio (aiodata q)) v
                     (aio_offset (aiodata q)) (aio_nbytes (aiodata q))) q.

(** A slot after [memset(.., 0, ..)] and the [open] of its descriptor. *)
Definition new_item (d : Z) : blkqueitem :=
  Blkqueitem 0 d QUEITEM_FREE 0 NULL 0 0 (Aiocb 0 0 NULL 0 0).

(** What the program asks of the operating system, in call order.
    [EvRead rq cb]: [aio_read] on the control block [cb] by the input slot
    holding read number [rq].  [EvWrite rq src cb]: [aio_write] of write
    number [rq] on [cb]; [src] is the read number of the input slot whose
    buffer it carries. *)
Inductive event : Type :=
| EvAlloc (p : Z)
| EvFree (p : Z)
| EvRead (rq : Z) (cb : aiocb)
| EvWrite (rq : Z) (src : Z) (cb : aiocb).

(** The two queues. *)
Inductive side : Type := Input | Output.

(** What the operating system answers to the calls of the main loop and of
    the epilogue, in call order.  [Probed d rq e]: [aio_error] on the
    request numbered [rq] of queue [d] answered [e].  [Returned d rq n]:
    [aio_return] on it answered [n].  [Submitted d rq r]: [aio_read] or
    [aio_write] of it answered [r].  [Allocated rc]: [posix_memalign]
    answered [rc].  [Timed r]: the [gettimeofday] of line 934 answered
    [r]. *)
Inductive reply : Type :=
| Probed (d : side) (rq : Z) (e : Z)
| Returned (d : side) (rq : Z) (n : Z)
| Submitted (d : side) (rq : Z) (r : Z)
| Allocated (rc : Z)
| Timed (r : Z).

(** The parameters the main loop reads but never writes. *)
Record config : Type := Config {
  blksize : Z;
  imaxqsize : nat;
  omaxqsize : nat;
  iseekable : Z;
  oseekable : Z
}.

(** The variables of [main] that the main loop updates, the clock of the
    oracle, the trace and the log of the answers.  The offsets are [size_t] and wrap; the request
    numbers ([long long]) and the counters and indices ([int]) would need
    2^63 requests or 2^31 slots to leave their range and are kept as they
    count. *)
Record state : Type := State {
  irqnum : Z;
  orqnum : Z;
  ioff : Z;
  ooff : Z;
  iqsize : Z;
  oqsize : Z;
  eof : Z;
  ique : list blkqueitem;
  oque : list blkqueitem;
  j : nat;
  clock : nat;
  trace : list event;
  replies : list reply
}.

Definition set_irqnum (v : Z) (s : state) : state :=
  State v (orqnum s) (ioff s) (ooff s) (iqsize s) (oqsize s) (eof s) (ique s) (oque s) (j s) (clock s) (trace s) (replies s).
Definition set_orqnum (v : Z) (s : state) : state :=
  State (irqnum s) v (ioff s) (ooff s) (iqsize s) (oqsize s) (eof s) (ique s) (oque s) (j s) (clock s) (trace s) (replies s).
Definition set_ioff (v : Z) (s : state) : state :=
  State (irqnum s) (orqnum s) v (ooff s) (iqsize s) (oqsize s) (eof s) (ique s) (oque s) (j s) (clock s) (trace s) (replies s).
Definition set_ooff (v : Z) (s : state) : state :=
  State (irqnum s) (orqnum s) (ioff s) v (iqsize s) (oqsize s) (eof s) (ique s) (oque s) (j s) (clock s) (trace s) (replies s).
Definition set_iqsize (v : Z) (s : state) : state :=
  State (irqnum s) (orqnum s) (ioff s) (ooff s) v (oqsize s) (eof s) (ique s) (oque s) (j s) (clock s) (trace s) (replies s).
Definition set_oqsize (v : Z) (s : state) : state :=
  State (irqnum s) (orqnum s) (ioff s) (ooff s) (iqsize s) v (eof s) (ique s) (oque s) (j s) (clock s) (trace s) (replies s).
Definition set_eof (v : Z) (s : state) : state :=
  State (irqnum s) (orqnum s) (ioff s) (ooff s) (iqsize s) (oqsize s) v (ique s) (oque s) (j s) (clock s) (trace s) (replies s).
Definition set_ique (v : list blkqueitem) (s : state) : state :=
  State (irqnum s) (orqnum s) (ioff s) (ooff s) (iqsize s) (oqsize s) (eof s) v (oque s) (j s) (clock s) (trace s) (replies s).
Definition set_oque (v : list blkqueitem) (s : state) : state :=
  State (irqnum s) (orqnum s) (ioff s) (ooff s) (iqsize s) (oqsize s) (eof s) (ique s) v (j s) (clock s) (trace s) (replies s).
Definition set_j (v : nat) (s : state) : state :=
  State (irqnum s) (orqnum s) (ioff s) (ooff s) (iqsize s) (oqsize s) (eof s) (ique s) (oque s) v (clock s) (trace s) (replies s).
Definition set_clock (v : nat) (s : state) : state :=
  State (irqnum s) (orqnum s) (ioff s) (ooff s) (iqsize s) (oqsize s) (eof s) (ique s) (oque s) (j s) v (trace s) (replies s).
Definition set_trace (v : list event) (s : state) : state :=
  State (irqnum s) (orqnum s) (ioff s) (ooff s) (iqsize s) (oqsize s) (eof s) (ique s) (oque s) (j s) (clock s) v (replies s).
Definition set_replies (v : list reply) (s : state) : state :=
  State (irqnum s) (orqnum s) (ioff s) (ooff s) (iqsize s) (oqsize s) (eof s) (ique s) (oque s) (j s) (clock s) (trace s) v.

(** ** The monad of [main]: state, and [exit] *)

Inductive outcome (A : Type) : Type :=
| Ok (a : A) (s : state)
| Exit (code : Z) (s : state).
Arguments Ok {A} a s.
Arguments Exit {A} code s.

Definition M (A : Type) : Type := state -> outcome A.

Definition ret {A : Type} (a : A) : M A := fun s => Ok a s.

Definition bind {A B : Type} (m : M A) (k : A -> M B) : M B :=
  fun s => match m s with
           | Ok a s' => k a s'
           | Exit c s' => Exit c s'
           end.

Notation "x <- m ;; k" := (bind m (fun x => k))
  (at level 100, m at next level, k at level 200, right associativity).
Notation "m ;;; k" := (bind m (fun _ => k))
  (at level 100, k at level 200, right associativity).

Definition gets {A : Type} (f : state -> A) : M A := fun s => Ok (f s) s.
Definition modify (f : state -> state) : M unit := fun s => Ok tt (f s).

(** [exit(code)], also the end of the [CUSTOMERROR] macro. *)
Definition exit {A : Type} (code : Z) : M A := fun s => Exit code s.

Definition final_state {A : Type} (o : outcome A) : state :=
  match o with Ok _ s => s | Exit _ s => s end.

(** [que[i]].  The loops stay below the length of the array, which the
    invariant [counted] records, so the default is never what is read. *)
Definition item (l : list blkqueitem) (i : nat) : blkqueitem :=
  default (new_item 0) (l !! i).

Definition emit (e : event) : M unit :=
  modify (fun s => set_trace (trace s ++ [e]) s).

Definition note (r : reply) : M unit :=
  modify (fun s => set_replies (replies s ++ [r]) s).

(** ** The scheduler *)

Module Sched.
Section Model.

Variable cfg : config.

(** The operating system: [os k] answers the k-th call of the run. *)
Variable os : nat -> Z.

Definition syscall : M Z :=
  fun s => Ok (os (clock s)) (set_clock (S (clock s)) s).

Definition malloc : M Z := syscall.
Definition open : M Z := syscall.
Definition sigemptyset : M Z := syscall.
Definition sigaction : M Z := syscall.
Definition gettimeofday : M Z := syscall.

(** The calls of the main loop.  The answer goes to the log, with the
    queue [d] and the number [rq] of the request the call is for; these two
    are not arguments of the C call. *)
Definition aio_error (d : side) (rq : Z) (cb : aiocb) : M Z :=
  e <- syscall ;;
  note (Probed d rq e) ;;;
  ret e.

Definition aio_return (d : side) (rq : Z) (cb : aiocb) : M Z :=
  n <- syscall ;;
  note (Returned d rq n) ;;;
  ret n.

Definition aio_read (rq : Z) (cb : aiocb) : M Z :=
  emit (EvRead rq cb) ;;;
  r <- syscall ;;
  note (Submitted Input rq r) ;;;
  ret r.

Definition aio_write (rq src : Z) (cb : aiocb) : M Z :=
  emit (EvWrite rq src cb) ;;;
  r <- syscall ;;
  note (Submitted Output rq r) ;;;
  ret r.

Definition free (p : Z) : M unit := emit (EvFree p).

(** [posix_memalign(&p, alignment, size)]: the return code, and the
    pointer, which is stored only on success. *)
Definition posix_memalign (p alignment size : Z) : M (Z * Z) :=
  rc <- syscall ;;
  note (Allocated rc) ;;;
  if rc =? 0 then
    p' <- syscall ;;
    emit (EvAlloc p') ;;;
    ret (rc, p')
  else ret (rc, p).

Definition put_ique (i : nat) (q : blkqueitem) : M unit :=
  modify (fun s => set_ique (<[i:=q]> (ique s)) s).

Definition put_oque (i : nat) (q : blkqueitem) : M unit :=
  modify (fun s => set_oque (<[i:=q]> (oque s)) s).

(** *** Setup (lines 426-549) *)

(** One of the two initialisation loops (lines 437-478 and 480-516):
    [tmpfd] is [ifd] or [ofd], the standard stream or -1. *)
Fixpoint init_que (n : nat) (seekable tmpfd : Z) : M (list blkqueitem) :=
  match n with
  | O => ret []
  | S n' =>
    p <- malloc ;;
    if p =? NULL then exit EXIT_FAILURE
    else
      d <- (if (seekable =? 0) && negb (tmpfd =? -1) then ret tmpfd
            else
              d <- open ;;
              if d =? -1 then exit EXIT_FAILURE else ret d) ;;
      rest <- init_que n' seekable tmpfd ;;
      ret (new_item d :: rest)
  end.

Definition setup (ifd ofd : Z) : M unit :=
  p <- malloc ;;
  if p =? NULL then exit EXIT_FAILURE
  else
    p <- malloc ;;
    if p =? NULL then exit EXIT_FAILURE
    else
      qi <- init_que (imaxqsize cfg) (iseekable cfg) ifd ;;
      modify (set_ique qi) ;;;
      qo <- init_que (omaxqsize cfg) (oseekable cfg) ofd ;;
      modify (set_oque qo) ;;;
      r <- sigemptyset ;;
      if r =? -1 then exit EXIT_FAILURE
      else
        r <- sigaction ;;
        if r =? -1 then exit EXIT_FAILURE
        else
          r <- gettimeofday ;;
          if r =? -1 then exit EXIT_FAILURE else ret tt.

(** *** The input queue (lines 561-744) *)

(** Lines 677-683, reached by the two [break]s of the [switch]. *)
Definition ique_release (i : nat) (q : blkqueitem) : M unit :=
  let q := set_status QUEITEM_FREE q in
  free (buffer q) ;;;
  let q := set_buffer NULL q in
  put_ique i q ;;;
  modify (fun s => set_iqsize (iqsize s - 1) s).

(** The body of the [for] loop over the input queue. *)
Definition ique_visit (i : nat) : M unit :=
  q <- gets (fun s => item (ique s) i) ;;
  if status q =? QUEITEM_READY then ret tt
  else if status q =? QUEITEM_INPROGRESS then
    e <- aio_error Input (rqnum q) (aiodata q) ;;
    let q := set_retcode e q in
    if retcode q =? 0 then
      r <- aio_return Input (rqnum q) (aiodata q) ;;
      let q := set_retcode (sint32 r) q in
      if retcode q =? 0 then
        modify (set_eof 1) ;;;
        if negb (readyb q =? 0) then
          put_ique i (set_status QUEITEM_READY q)
        else ique_release i q
      else
        let q := set_readyb (wrap64 (readyb q + retcode q)) q in
        if negb (readyb q =? wrap64 (blksize cfg)) then
          let q := set_aiodata
                     (Aiocb (fd q) 0 (wrap64 (buffer q + readyb q))
                        (if iseekable cfg =? 1
                         then wrap64 (fdoffset q + readyb q) else 0)
                        (wrap64 (blksize cfg - readyb q))) q in
          put_ique i q ;;;
          rc <- aio_read (rqnum q) (aiodata q) ;;
          if rc =? -1 then exit EXIT_FAILURE else ret tt
        else put_ique i (set_status QUEITEM_READY q)
    else if retcode q =? EINPROGRESS then put_ique i q
    else if retcode q =? ECANCELED then
      r <- aio_return Input (rqnum q) (aiodata q) ;;
      ique_release i (set_retcode (sint32 r) q)
    else
      put_ique i q ;;;
      exit EXIT_FAILURE
  else
    e <- gets eof ;;
    if e =? 1 then ret tt
    else
      a <- posix_memalign (buffer q) 512 (blksize cfg) ;;
      let q := set_retcode (fst a) (set_buffer (snd a) q) in
      if negb (retcode q =? 0) then
        put_ique i q ;;;
        exit EXIT_FAILURE
      else
        n <- gets irqnum ;;
        modify (set_irqnum (n + 1)) ;;;
        let q := set_rqnum (n + 1) q in
        let q := set_status QUEITEM_INPROGRESS q in
        let q := set_retcode EINPROGRESS q in
        let q := set_readyb 0 q in
        off <- gets ioff ;;
        let q := set_fdoffset (if iseekable cfg =? 1 then off else 0) q in
        let q := set_aiodata
                   (Aiocb (fd q) 0 (buffer q) (fdoffset q)
                      (wrap64 (blksize cfg))) q in
        put_ique i q ;;;
        rc <- aio_read (rqnum q) (aiodata q) ;;
        if rc =? -1 then exit EXIT_FAILURE
        else
          modify (fun s => set_ioff (wrap64 (ioff s + blksize cfg)) s) ;;;
          modify (fun s => set_iqsize (iqsize s + 1) s).

(** [for (i = k; i < k + n; i++) body], for both queue loops. *)
Fixpoint for_loop (n : nat) (i : nat) (body : nat -> M unit) : M unit :=
  match n with
  | O => ret tt
  | S n' => body i ;;; for_loop n' (S i) body
  end.

Definition pass_A : M unit := for_loop (imaxqsize cfg) 0%nat ique_visit.

(** *** The output queue (lines 751-898) *)

(** Lines 809-815. *)
Definition oque_release (i : nat) (q : blkqueitem) : M unit :=
  let q := set_status QUEITEM_FREE q in
  free (buffer q) ;;;
  let q := set_buffer NULL q in
  put_oque i q ;;;
  modify (fun s => set_oqsize (oqsize s - 1) s).

(** [case QUEITEM_READY] of the inner [switch] (lines 833-877): input slot
    [jj] is Ready, output slot [i] is not in progress. *)
Definition match_ready (i jj : nat) : M unit :=
  qj <- gets (fun s => item (ique s) jj) ;;
  n <- gets orqnum ;;
  if (oseekable cfg =? 0) && negb (rqnum qj =? n + 1) then ret tt
  else
    qo <- gets (fun s => item (oque s) i) ;;
    let qo := set_status QUEITEM_INPROGRESS qo in
    modify (set_orqnum (n + 1)) ;;;
    let qo := set_rqnum (n + 1) qo in
    let qo := set_buffer (buffer qj) qo in
    off <- gets ooff ;;
    let qo := set_fdoffset (if iseekable cfg =? 0 then off else fdoffset qj) qo in
    let qo := set_aiodata
                (Aiocb (fd qo) 0 (buffer qo) (fdoffset qo) (readyb qj)) qo in
    put_oque i qo ;;;
    rc <- aio_write (rqnum qo) (rqnum qj) (aiodata qo) ;;
    if rc =? -1 then exit EXIT_FAILURE
    else
      modify (fun s => set_oqsize (oqsize s + 1) s) ;;;
      modify (fun s => set_ooff (wrap64 (ooff s + readyb qj)) s) ;;;
      let qj := set_aio_buf NULL qj in
      let qj := set_status QUEITEM_FREE qj in
      put_ique jj qj ;;;
      modify (fun s => set_iqsize (iqsize s - 1) s).

(** [while (j < imaxqsize)] (lines 824-893).  [j] grows by one at every
    turn, so [imaxqsize] turns are enough (lemma [oque_scan_fuel]). *)
Fixpoint oque_scan (fuel : nat) (i : nat) : M unit :=
  match fuel with
  | O => ret tt
  | S fuel' =>
    jj <- gets j ;;
    if (jj <? imaxqsize cfg)%nat then
      qj <- gets (fun s => item (ique s) jj) ;;
      (if (status qj =? QUEITEM_FREE) || (status qj =? QUEITEM_INPROGRESS)
       then ret tt
       else if status qj =? QUEITEM_READY then match_ready i jj
       else exit EXIT_FAILURE) ;;;
      modify (set_j (S jj)) ;;;
      qo <- gets (fun s => item (oque s) i) ;;
      if status qo =? QUEITEM_INPROGRESS then ret tt
      else oque_scan fuel' i
    else ret tt
  end.

(** The body of the [for] loop over the output queue. *)
Definition oque_visit (i : nat) : M unit :=
  q <- gets (fun s => item (oque s) i) ;;
  if status q =? QUEITEM_INPROGRESS then
    e <- aio_error Output (rqnum q) (aiodata q) ;;
    let q := set_retcode e q in
    if retcode q =? 0 then
      r <- aio_return Output (rqnum q) (aiodata q) ;;
      let q := set_retcode (sint32 r) q in
      (if retcode q =? 0 then modify (set_eof 1) else ret tt) ;;;
      oque_release i q
    else if retcode q =? EINPROGRESS then put_oque i q
    else if retcode q =? ECANCELED then oque_release i q
    else if retcode q =? EFBIG then
      modify (set_eof 1) ;;;
      oque_release i q
    else
      put_oque i q ;;;
      exit EXIT_FAILURE
  else oque_scan (imaxqsize cfg) i.

Definition pass_B : M unit :=
  modify (set_j 0%nat) ;;;
  for_loop (omaxqsize cfg) 0%nat oque_visit.

(** *** The main loop and the epilogue *)

(** The test of line 904. *)
Definition drained (s : state) : bool :=
  (iqsize s =? 0) && (oqsize s =? 0) && (eof s =? 1).

(** Lines 934-958: the statistics and [return EXIT_SUCCESS]. *)
Definition epilogue : M unit :=
  r <- gettimeofday ;;
  note (Timed r) ;;;
  if r =? -1 then exit EXIT_FAILURE else exit EXIT_SUCCESS.

(** One turn of [for(;;)] up to the test of line 904; [true] is its
    [break]. *)
Definition turn : M bool :=
  pass_A ;;;
  pass_B ;;;
  gets drained.

(** [n] turns of [for(;;)].  [Ok] means that the loop is still going after
    [n] turns; [select] only waits. *)
Fixpoint main_loop (n : nat) : M unit :=
  match n with
  | O => ret tt
  | S n' =>
    b <- turn ;;
    if b then epilogue else main_loop n'
  end.

Definition start_state : state :=
  State 0 0 0 0 0 0 0 [] [] 0%nat 0%nat [] [].

(** [main] from line 426 on, for [n] turns of the main loop. *)
Definition run (ifd ofd : Z) (n : nat) : outcome unit :=
  (setup ifd ofd ;;; main_loop n) start_state.

(** The run at the test of line 904 in turn [n + 1]. *)
Definition run_to_test (ifd ofd : Z) (n : nat) : outcome bool :=
  (setup ifd ofd ;;; main_loop n ;;; turn) start_state.

End Model.
End Sched.

(** ** The options (lines 225-336) *)

Module Cmdline.

Definition ULONG_MAX : Z := 2 ^ 64 - 1.

Definition code_of (c : ascii) : Z := Z.of_N (N_of_ascii c).

(** [isspace] in the C locale. *)
Definition isspace (c : ascii) : bool :=
  let n := code_of c in (n =? 32) || ((9 <=? n) && (n <=? 13)).

Definition isdigit (c : ascii) : bool :=
  let n := code_of c in (48 <=? n) && (n <=? 57).

Fixpoint skip_space (s : string) : string :=
  match s with
  | String c r => if isspace c then skip_space r else s
  | EmptyString => s
  end.

(** The digits at the head of [s]: their value, whether it passed
    [ULONG_MAX] on the way, and what follows them. *)
Fixpoint digits (s : string) (acc : Z) (ovf : bool) : Z * bool * string :=
  match s with
  | String c r =>
    if isdigit c then
      let v := acc * 10 + (code_of c - 48) in
      digits r v (ovf || (ULONG_MAX <? v))
    else (acc, ovf, s)
  | EmptyString => (acc, ovf, s)
  end.

(** [strtoul(nptr, &endptr, 10)] of the C library: value, [endptr], and
    the [errno] it sets (0 when it sets none). *)
Definition strtoul (nptr : string) : Z * string * Z :=
  let t := skip_space nptr in
  let '(neg, t) :=
    match t with
    | String "-"%char r => (true, r)
    | String "+"%char r => (false, r)
    | _ => (false, t)
    end in
  match t with
  | String c _ =>
    if isdigit c then
      let '(v, ovf, rest) := digits t 0 false in
      if ovf then (ULONG_MAX, rest, ERANGE)
      else (if neg then wrap64 (- v) else v, rest, 0)
    else (0, nptr, 0)
  | EmptyString => (0, nptr, 0)
  end.

(** What [case 'b'] does to the run: it stores a block size and the option
    loop goes on, or the process exits. *)
Inductive parsed : Type :=
| Accepted (blksize : Z)
| Exited (code : Z).

(** Lines 305-319, on the value [tint] (a [long long]). *)
Definition check_blksize (tint : Z) : parsed :=
  if negb (Z.rem tint 512 =? 0) then Exited EXIT_USAGE
  else if 1024 * 1024 * 16 <? tint then Exited EXIT_USAGE
  else Accepted (sint32 tint).

(** [case 'b'] with [optarg].  A product that does not fit [long long] is
    taken modulo 2^64, as the compiled program computes it. *)
Definition opt_b (optarg : string) : parsed :=
  let '(v, bsuffix, errno) := strtoul optarg in
  let tint := sint64 v in
  if negb (errno =? 0) then Exited EXIT_FAILURE
  else
    match bsuffix with
    | EmptyString => check_blksize tint
    | String c EmptyString =>
      if (c =? "K")%char || (c =? "k")%char then
        check_blksize (sint64 (tint * 1024))
      else if (c =? "M")%char || (c =? "m")%char then
        check_blksize (sint64 (sint64 (tint * 1024) * 1024))
      else Exited EXIT_USAGE
    | String _ (String _ _) => Exited EXIT_USAGE
    end.

(** The domain the specification gives for the block size. *)
Definition valid_blksize (v : Z) : Prop :=
  512 <= v <= 16 * 2 ^ 20 /\ v mod 512 = 0.

(** [case 'q'] with [optarg] (lines 243-257); [Accepted] holds the queue
    size it stores.  [errno] is not looked at here. *)
Definition opt_q (optarg : string) : parsed :=
  let '(v, bsuffix, _) := strtoul optarg in
  let tint := sint64 v in
  if (tint <? 1) || (32 <? tint)
     || negb (match bsuffix with EmptyString => true | _ => false end)
  then Exited EXIT_USAGE
  else Accepted (sint32 tint).

(** [struct globalparams] (lines 53-66).  The two [wo_di_*] flags only
    choose the flags of [open] and are left out. *)
Record globalparams : Type := Globalparams {
  blksize : Z;
  maxqsize : Z;
  inputfile : option string;
  outputfile : option string
}.

(** Lines 209-212. *)
Definition default_params : globalparams :=
  Globalparams DEFAULT_BLKSIZE DEFAULT_MAXQUEUESIZE None None.

Inductive options_result : Type :=
| Parsed (p : globalparams)
| Stopped (code : Z).

(** The [switch] of lines 231-333 on one answer of [getopt_long]: the
    option character [opt] and its argument. *)
Definition option_case (opt : ascii) (optarg : string) (p : globalparams)
    : options_result :=
  if (opt =? "i")%char then
    Parsed (Globalparams (blksize p) (maxqsize p) (Some optarg) (outputfile p))
  else if (opt =? "o")%char then
    Parsed (Globalparams (blksize p) (maxqsize p) (inputfile p) (Some optarg))
  else if (opt =? "q")%char then
    match opt_q optarg with
    | Accepted v =>
      Parsed (Globalparams (blksize p) v (inputfile p) (outputfile p))
    | Exited c => Stopped c
    end
  else if (opt =? "b")%char then
    match opt_b optarg with
    | Accepted v =>
      Parsed (Globalparams v (maxqsize p) (inputfile p) (outputfile p))
    | Exited c => Stopped c
    end
  else if (opt =? "h")%char then Stopped EXIT_USAGE
  else Parsed p.

(** The loop of lines 225-336 over the answers of [getopt_long], up to its
    -1. *)
Fixpoint option_loop (opts : list (ascii * string)) (p : globalparams)
    : options_result :=
  match opts with
  | [] => Parsed p
  | (opt, optarg) :: rest =>
    match option_case opt optarg p with
    | Parsed p' => option_loop rest p'
    | Stopped c => Stopped c
    end
  end.

End Cmdline.

(** ** Seekability (lines 338-415) *)

Module Startup.

Definition S_IFMT : Z := 61440.   (* 0170000 *)
Definition S_IFIFO : Z := 4096.   (* 0010000 *)
Definition S_IFCHR : Z := 8192.   (* 0020000 *)
Definition S_IFDIR : Z := 16384.  (* 0040000 *)
Definition S_IFBLK : Z := 24576.  (* 0060000 *)
Definition S_IFREG : Z := 32768.  (* 0100000 *)

Definition S_ISREG (m : Z) : bool := Z.land m S_IFMT =? S_IFREG.
Definition S_ISBLK (m : Z) : bool := Z.land m S_IFMT =? S_IFBLK.

Definition STDIN_FILENO : Z := 0.
Definition STDOUT_FILENO : Z := 1.

(** [stat(path, &statdata)]: it fills [statdata] and returns 0, or returns
    -1 with [errno] set and leaves [statdata] as it was. *)
Inductive stat_result : Type :=
| StatOk (st_mode : Z)
| StatErr (errno : Z).

Definition filesystem : Type := string -> stat_result.

(** The variables lines 338-415 assign. *)
Record sides : Type := Sides {
  s_iseekable : Z;
  s_imaxqsize : Z;
  s_ifd : Z;
  s_oseekable : Z;
  s_omaxqsize : Z;
  s_ofd : Z
}.

Inductive started : Type :=
| Started (r : sides)
| Failed (code : Z).

Definition seekable_mode (m : Z) : bool := S_ISREG m || S_ISBLK m.

(** Lines 338-415.  [inputfile] and [outputfile] are [None] for a NULL
    pointer; [garbage] is the [st_mode] that the uninitialised local
    [statdata] holds on entry. *)
Definition classify (fs : filesystem) (maxqsize : Z)
    (inputfile outputfile : option string) (garbage : Z) : started :=
  let statdata := garbage in
  let imaxqsize := maxqsize in
  let omaxqsize := maxqsize in
  let ifd := -1 in
  let ofd := -1 in
  (* the input side *)
  let input :=
    match inputfile with
    | Some path =>
      match fs path with
      | StatErr _ => None
      | StatOk m =>
        let statdata := m in
        if negb (seekable_mode statdata)
        then Some (statdata, 0, 1, ifd)
        else Some (statdata, 1, imaxqsize, ifd)
      end
    | None => Some (statdata, 0, 1, STDIN_FILENO)
    end in
  match input with
  | None => Failed EXIT_FAILURE
  | Some (statdata, iseekable, imaxqsize, ifd) =>
    (* the output side *)
    match outputfile with
    | Some path =>
      let probe :=
        match fs path with
        | StatErr e => if negb (e =? ENOENT) then None else Some statdata
        | StatOk m => Some m
        end in
      match probe with
      | None => Failed EXIT_FAILURE
      | Some statdata =>
        if negb (seekable_mode statdata)
        then Started (Sides iseekable imaxqsize ifd 0 1 ofd)
        else Started (Sides iseekable imaxqsize ifd 1 omaxqsize ofd)
      end
    | None => Started (Sides iseekable imaxqsize ifd 0 1 STDOUT_FILENO)
    end
  end.

Definition oseekable_of (r : started) : option Z :=
  match r with Started x => Some (s_oseekable x) | Failed _ => None end.

Definition iseekable_of (r : started) : option Z :=
  match r with Started x => Some (s_iseekable x) | Failed _ => None end.

End Startup.

(** ** [main] as a whole *)

(** The parameters of the main loop, as lines 338-415 leave them. *)
Definition config_of (p : Cmdline.globalparams) (r : Startup.sides) : config :=
  Config (Cmdline.blksize p)
    (Z.to_nat (Startup.s_imaxqsize r)) (Z.to_nat (Startup.s_omaxqsize r))
    (Startup.s_iseekable r) (Startup.s_oseekable r).

(** [main]: the options [getopt_long] finds, the file system [stat] sees,
    the operating system of the queues, for [n] turns of the main loop. *)
Definition main (opts : list (ascii * string)) (fs : Startup.filesystem)
    (garbage : Z) (os : nat -> Z) (n : nat) : outcome unit :=
  match Cmdline.option_loop opts Cmdline.default_params with
  | Cmdline.Stopped c => Exit c Sched.start_state
  | Cmdline.Parsed p =>
    match Startup.classify fs (Cmdline.maxqsize p) (Cmdline.inputfile p)
            (Cmdline.outputfile p) garbage with
    | Startup.Failed c => Exit c Sched.start_state
    | Startup.Started r =>
      Sched.run (config_of p r) os (Startup.s_ifd r) (Startup.s_ofd r) n
    end
  end.

(** ** Vocabulary of the properties *)

Import Sched.

(** [I] holds after [m] when it held before and [m] returns; [T] holds when
    [m] ends the process. *)
Definition preserves {A : Type} (I T : state -> Prop) (m : M A) : Prop :=
  forall s, I s -> match m s with Ok _ s' => I s' | Exit _ s' => T s' end.

(** *** Slots and counters *)

Definition is_free (q : blkqueitem) : Prop := status q = QUEITEM_FREE.

Definition settled (q : blkqueitem) : Prop := status q <> QUEITEM_INPROGRESS.

(** The number of slots of a queue whose status is not Free. *)
Fixpoint busy (l : list blkqueitem) : Z :=
  match l with
  | [] => 0
  | q :: r => (if status q =? QUEITEM_FREE then 0 else 1) + busy r
  end.

(** The shape of the two queues and what the two counters count. *)
Record counted (cfg : config) (s : state) : Prop := Counted {
  cnt_ilen : length (ique s) = imaxqsize cfg;
  cnt_olen : length (oque s) = omaxqsize cfg;
  cnt_ist : Forall (fun q => status q = QUEITEM_FREE \/ status q = QUEITEM_READY
                          \/ status q = QUEITEM_INPROGRESS) (ique s);
  cnt_ost : Forall (fun q => status q = QUEITEM_FREE
                          \/ status q = QUEITEM_INPROGRESS) (oque s);
  cnt_iq : iqsize s = busy (ique s);
  cnt_oq : oqsize s = busy (oque s)
}.

(** *** Traces *)

(** A write as the trace records it. *)
Record write : Type := Write {
  w_rq : Z;
  w_src : Z;
  w_cb : aiocb
}.

(** [w_offset] is the 64 bits that [aio_offset] holds, read as an unsigned
    number; [w_off_t] is the file offset they stand for, [aio_offset]
    being an [off_t], which is signed. *)
Definition w_offset (w : write) : Z := aio_offset (w_cb w).
Definition w_off_t (w : write) : Z := sint64 (w_offset w).
Definition w_nbytes (w : write) : Z := aio_nbytes (w_cb w).

(** The writes of a trace, in submission order. *)
Fixpoint writes (tr : list event) : list write :=
  match tr with
  | [] => []
  | EvWrite rq src cb :: r => Write rq src cb :: writes r
  | _ :: r => writes r
  end.

Fixpoint total (l : list Z) : Z :=
  match l with
  | [] => 0
  | x :: r => x + total r
  end.

(** The byte counts of the writes of a trace, added up. *)
Definition written (tr : list event) : Z :=
  total (map w_nbytes (writes tr)).

(** [P pre rq src cb] for every write of the trace, [pre] being the trace
    before it. *)
Definition each_write (P : list event -> Z -> Z -> aiocb -> Prop)
    (tr : list event) : Prop :=
  forall pre rq src cb post,
    tr = pre ++ EvWrite rq src cb :: post -> P pre rq src cb.

(** The offset at which read number [rq] is first submitted. *)
Definition read_offset (cfg : config) (rq : Z) : Z :=
  if iseekable cfg =? 1 then wrap64 ((rq - 1) * blksize cfg) else 0.

(** The control block of the first submission of the read a slot holds
    (lines 721-725). *)
Definition first_cb (cfg : config) (q : blkqueitem) : aiocb :=
  Aiocb (fd q) 0 (buffer q) (fdoffset q) (wrap64 (blksize cfg)).

(** What the trace [tr] and the configuration say of an input slot that is
    not Free. *)
Definition slot_ok (cfg : config) (tr : list event) (q : blkqueitem) : Prop :=
  status q <> QUEITEM_FREE ->
  In (EvRead (rqnum q) (first_cb cfg q)) tr /\
  fdoffset q = read_offset cfg (rqnum q) /\
  0 <= readyb q < 2 ^ 64 /\
  (status q = QUEITEM_READY -> wrap64 (blksize cfg) <> 0 -> readyb q <> 0).

(** How the numbering and the offsets of [main] follow the trace. *)
Record numbered (cfg : config) (s : state) : Prop := Numbered {
  n_orq : orqnum s = Z.of_nat (length (writes (trace s)));
  n_ooff : ooff s = wrap64 (written (trace s));
  n_ioff : ioff s = wrap64 (irqnum s * blksize cfg);
  n_slots : Forall (slot_ok cfg (trace s)) (ique s)
}.

(** What holds of a write [EvWrite rq src cb] submitted after [pre]. *)
Definition write_ok (cfg : config) (pre : list event) (rq src : Z)
    (cb : aiocb) : Prop :=
  rq = Z.of_nat (length (writes pre)) + 1 /\
  (oseekable cfg = 0 -> src = rq) /\
  (exists cbr, In (EvRead src cbr) pre /\
     aio_buf cbr = aio_buf cb /\
     aio_nbytes cbr = wrap64 (blksize cfg) /\
     aio_offset cbr = read_offset cfg src) /\
  aio_offset cb =
    (if iseekable cfg =? 0 then wrap64 (written pre)
     else read_offset cfg src) /\
  0 <= aio_nbytes cb < 2 ^ 64 /\
  (wrap64 (blksize cfg) <> 0 -> aio_nbytes cb <> 0).

Definition traced (cfg : config) (s : state) : Prop :=
  each_write (write_ok cfg) (trace s).

Definition coherent (cfg : config) (s : state) : Prop :=
  numbered cfg s /\ traced cfg s.

(** *** The statements of three claims *)

(** Every write carries file offset zero. *)
Definition zero_offsets (ws : list write) : Prop :=
  Forall (fun w => w_offset w = 0) ws.

(** Consecutive writes: the later file offset is the earlier one plus the
    earlier byte count, and is larger. *)
Definition spaced_by_filled (ws : list write) : Prop :=
  forall k w w',
    ws !! k = Some w -> ws !! S k = Some w' ->
    w_off_t w' = w_off_t w + w_nbytes w /\ w_off_t w < w_off_t w'.

(** The handoff as a move that leaves nothing behind: when the match of
    input slot [jj] to output slot [i] has made the input slot Free, the
    output slot holds the buffer and the [buffer] field of the input slot
    is NULL. *)
Definition handoff_nulls_donor (cfg : config) (os : nat -> Z) (s : state)
    (i jj : nat) : Prop :=
  forall s',
    match_ready cfg os i jj s = Ok tt s' ->
    status (item (ique s') jj) = QUEITEM_FREE ->
    buffer (item (oque s') i) = buffer (item (ique s) jj) /\
    buffer (item (ique s') jj) = NULL.

(** *** Draining *)


(** From the [c]-th call on, every call answers 0: operations complete at
    once, reads find no more data and submissions are accepted. *)
Definition quiet (os : nat -> Z) (c : nat) : Prop :=
  forall k, (c <= k)%nat -> os k = 0.

(** What [main] still does after the visit of output slot [i], for at most
    [n] more turns of the main loop (lemma [main_loop_through_visit]). *)
Definition rest_of_run (cfg : config) (os : nat -> Z) (i n : nat) : M unit :=
  for_loop (omaxqsize cfg - S i) (S i) (oque_visit cfg os) ;;;
  b <- gets drained ;;
  if b then epilogue os else main_loop cfg os n.

(** The requests that are still to be settled, inputs counted twice. *)
Definition pending (s : state) : Z := 2 * iqsize s + oqsize s.

(** A state in which the end of the data is known and the operating system
    is quiet. *)
Definition draining (cfg : config) (os : nat -> Z) (s : state) : Prop :=
  counted cfg s /\ eof s = 1 /\ quiet os (clock s).



(** *** Buffers *)

(** The number of events of a trace that [f] picks. *)
Fixpoint count (f : event -> bool) (tr : list event) : Z :=
  match tr with
  | [] => 0
  | e :: r => (if f e then 1 else 0) + count f r
  end.

Definition is_alloc (e : event) : bool :=
  match e with EvAlloc _ => true | _ => false end.

Definition is_release (e : event) : bool :=
  match e with EvFree _ => true | _ => false end.

Definition is_alloc_of (p : Z) (e : event) : bool :=
  match e with EvAlloc p' => p' =? p | _ => false end.

Definition is_release_of (p : Z) (e : event) : bool :=
  match e with EvFree p' => p' =? p | _ => false end.

(** The number of slots of a queue that are not Free and hold [p]. *)
Fixpoint holds (p : Z) (l : list blkqueitem) : Z :=
  match l with
  | [] => 0
  | q :: r =>
    (if status q =? QUEITEM_FREE then 0 else if buffer q =? p then 1 else 0)
    + holds p r
  end.

(** Every pointer is allocated as often as it was released or is held by a
    slot. *)
Definition owned (s : state) : Prop :=
  forall p,
    count (is_alloc_of p) (trace s) =
    count (is_release_of p) (trace s) + holds p (ique s) + holds p (oque s).

(** [P pre p] for every [free(p)] of the trace, [pre] being the trace before
    it. *)
Definition each_free (P : list event -> Z -> Prop) (tr : list event) : Prop :=
  forall pre p post, tr = pre ++ EvFree p :: post -> P pre p.

(** [p] is allocated and not yet released after [pre]. *)
Definition live (pre : list event) (p : Z) : Prop :=
  count (is_release_of p) pre < count (is_alloc_of p) pre.

(** What the main loop keeps of the buffers. *)
Definition buffers_kept (cfg : config) (s : state) : Prop :=
  counted cfg s /\ owned s /\ each_free live (trace s).

(** The buffers that are allocated and not released are as many as the two
    counters say. *)
Definition balanced (s : state) : Prop :=
  count is_alloc (trace s) = count is_release (trace s) + iqsize s + oqsize s.

(** *** Reads *)

(** What holds of every [aio_read], first or repeated, of read number
    [rq]: on a seekable input it ends where block [rq] ends (modulo 2^64);
    on another input it carries offset 0. *)
Definition read_ok (cfg : config) (rq : Z) (cb : aiocb) : Prop :=
  aio_reqprio cb = 0 /\ 0 <= aio_nbytes cb < 2 ^ 64 /\
  if iseekable cfg =? 1
  then wrap64 (aio_offset cb + aio_nbytes cb) = wrap64 (rq * blksize cfg)
  else aio_offset cb = 0.

Definition reads_ok (cfg : config) (tr : list event) : Prop :=
  forall rq cb, In (EvRead rq cb) tr -> read_ok cfg rq cb.

(** The read numbers that the writes of a trace carry. *)
Definition sources (tr : list event) : list Z := map w_src (writes tr).

(** The slots of the input queue that are not Free hold different reads,
    numbered from 1 to [n], none of which was written. *)
Definition fresh_slots (l : list blkqueitem) (n : Z) (srcs : list Z) : Prop :=
  (forall i q, l !! i = Some q -> status q <> QUEITEM_FREE ->
     1 <= rqnum q <= n /\ ~ In (rqnum q) srcs) /\
  (forall i i' q q', l !! i = Some q -> l !! i' = Some q' ->
     status q <> QUEITEM_FREE -> status q' <> QUEITEM_FREE ->
     rqnum q = rqnum q' -> i = i').

(** No read is written twice, and only reads that were started are
    written. *)
Definition distinct_sources (n : Z) (tr : list event) : Prop :=
  NoDup (sources tr) /\ Forall (fun r => 1 <= r <= n) (sources tr).

Definition written_once (s : state) : Prop :=
  0 <= irqnum s /\
  fresh_slots (ique s) (irqnum s) (sources (trace s)) /\
  distinct_sources (irqnum s) (trace s).

(** *** Byte counts *)

Definition same_side (a b : side) : bool :=
  match a, b with
  | Input, Input | Output, Output => true
  | _, _ => false
  end.

(** The byte counts that [aio_return] answered for request [rq] of queue
    [d], added up; each is taken as the [int] that lines 577 and 763
    store. *)
Fixpoint returned (d : side) (rq : Z) (log : list reply) : Z :=
  match log with
  | [] => 0
  | Returned d' rq' n :: r =>
    (if same_side d' d && (rq' =? rq) then sint32 n else 0) + returned d rq r
  | _ :: r => returned d rq r
  end.

(** The bytes that read [rq] was filled with, as [readyb] counts them
    (line 590), and the bytes that write [rq] is reported to have
    written. *)
Definition filled (rq : Z) (log : list reply) : Z :=
  wrap64 (returned Input rq log).

Definition delivered (rq : Z) (log : list reply) : Z :=
  returned Output rq log.

(** An input slot that is not Free holds the bytes its read was filled
    with. *)
Definition filled_slots (l : list blkqueitem) (log : list reply) : Prop :=
  forall i q, l !! i = Some q -> status q <> QUEITEM_FREE ->
    readyb q = filled (rqnum q) log.

(** No answer of [aio_return] is for a read after number [n]. *)
Definition unread (n : Z) (log : list reply) : Prop :=
  forall rq, n < rq -> returned Input rq log = 0.

(** Every write asks for the bytes that the read it carries was filled
    with. *)
Definition sized_writes (tr : list event) (log : list reply) : Prop :=
  forall rq src cb, In (EvWrite rq src cb) tr -> aio_nbytes cb = filled src log.

Definition accounted (s : state) : Prop :=
  filled_slots (ique s) (replies s) /\
  unread (irqnum s) (replies s) /\
  sized_writes (trace s) (replies s).

(** The destination gets the reads one after the other: the k-th write
    carries read k, and is reported to have written the bytes that read k
    was filled with. *)
Definition stream_is_concatenation (s : state) : Prop :=
  forall k w, writes (trace s) !! k = Some w ->
    w_src w = Z.of_nat k + 1 /\
    delivered (w_rq w) (replies s) = filled (w_src w) (replies s).

(** *** Descriptors *)

(** The descriptors of the slots of a queue. *)
Definition fds (l : list blkqueitem) : list Z := map fd l.

(** Every read of the trace is on a descriptor of [fi], every write on one
    of [fo]. *)
Definition wired (fi fo : list Z) (tr : list event) : Prop :=
  (forall rq cb, In (EvRead rq cb) tr -> In (aio_fildes cb) fi) /\
  (forall rq src cb, In (EvWrite rq src cb) tr -> In (aio_fildes cb) fo).

(** The slots keep the descriptors [fi] and [fo], and the requests go to
    them. *)
Definition plugged (cfg : config) (fi fo : list Z) (s : state) : Prop :=
  fds (ique s) = fi /\ fds (oque s) = fo /\
  length fi = imaxqsize cfg /\ length fo = omaxqsize cfg /\
  wired fi fo (trace s).

(** *** Decimal arguments *)

(** A string of decimal digits, and the number it writes after [acc]. *)
Fixpoint all_digits (s : string) : bool :=
  match s with
  | String c r => Cmdline.isdigit c && all_digits r
  | EmptyString => true
  end.

Fixpoint decimal (s : string) (acc : Z) : Z :=
  match s with
  | String c r => decimal r (acc * 10 + (Cmdline.code_of c - 48))
  | EmptyString => acc
  end.

(** *** Ends of the process *)

(** [m] ends the process with [EXIT_FAILURE] only. *)
Definition fails {A : Type} (m : M A) : Prop :=
  forall s c s', m s = Exit c s' -> c = EXIT_FAILURE.

(** *** A gap in the read numbers *)

(** An input slot that the main loop leaves as it is: Ready with another
    number than the next write's on a non-seekable output, or Free when the
    end of the data is known. *)
Definition blocked (cfg : config) (s : state) (q : blkqueitem) : Prop :=
  (status q = QUEITEM_READY /\ oseekable cfg = 0 /\ rqnum q <> orqnum s + 1)
  \/ (status q = QUEITEM_FREE /\ eof s = 1).

Definition stuck (cfg : config) (s : state) : Prop :=
  length (ique s) = imaxqsize cfg /\
  length (oque s) = omaxqsize cfg /\
  Forall (blocked cfg s) (ique s) /\
  Forall is_free (oque s) /\
  iqsize s <> 0.

(** ** Example runs *)

(** An oracle that answers from a list, then with [d]. *)
Definition script (l : list Z) (d : Z) : nat -> Z :=
  fun k => default d (l !! k).

(** Standard input to standard output, one slot each way. *)
Definition cfg_pipe : config := Config 512 1 1 0 0.

(** Answers for [cfg_pipe]: the setup succeeds; two blocks of 512 bytes are
    read and written, then the input ends. *)
Definition os_two_blocks : nat -> Z :=
  script [ (* setup *) 1; 1; 1; 1; 0; 0; 0;
           (* turn 1: read 1 submitted *) 0; 4096; 0;
           (* turn 2: read 1 done, write 1 submitted *) 0; 512; 0;
           (* turn 3: read 2 submitted, write 1 done *) 0; 8192; 0; 0; 512;
           (* turn 4: read 2 done, write 2 submitted *) 0; 512; 0;
           (* turn 5: read 3 submitted, write 2 done *) 0; 12288; 0; 0; 512;
           (* turn 6: read 3 finds the end *) 0; 0;
           (* gettimeofday *) 0 ] EINPROGRESS.

(** The state of that run in turn 2, between the two passes: read 1 is
    Ready. *)
Definition s_ready : state :=
  final_state
    ((setup cfg_pipe os_two_blocks 0 1 ;;;
      main_loop cfg_pipe os_two_blocks 1 ;;;
      pass_A cfg_pipe os_two_blocks ;;;
      modify (set_j 0%nat)) start_state).

(** That run at the head of turn 6: read 3 is in progress. *)
Definition s_eof : state := final_state (run cfg_pipe os_two_blocks 0 1 5).

(** Answers for [cfg_pipe]: the first read completes with 100 bytes. *)
Definition os_short : nat -> Z :=
  script [ (* setup *) 1; 1; 1; 1; 0; 0; 0;
           (* turn 1: read 1 submitted *) 0; 4096; 0;
           (* turn 2: read 1 has 100 bytes, is submitted again *) 0; 100; 0 ]
         EINPROGRESS.

(** That run at the head of turn 2: read 1 is in progress. *)
Definition s_short : state := final_state (run cfg_pipe os_short 0 1 1).

(** Answers for [cfg_pipe]: two reads; the second is filled in two steps,
    with 100 bytes and then none, and is written with its 100 bytes. *)
Definition os_last_short : nat -> Z :=
  script [ (* setup *) 1; 1; 1; 1; 0; 0; 0;
           (* turn 1: read 1 submitted *) 0; 4096; 0;
           (* turn 2: read 1 done, write 1 submitted *) 0; 512; 0;
           (* turn 3: read 2 submitted, write 1 done *) 0; 8192; 0; 0; 512;
           (* turn 4: read 2 has 100 bytes, is submitted again *) 0; 100; 0;
           (* turn 5: read 2 finds the end, write 2 submitted *) 0; 0; 0;
           (* turn 6: write 2 done *) 0; 100;
           (* gettimeofday *) 0 ] EINPROGRESS.

(** Answers for [cfg_pipe]: read 1 brings 512 bytes; write 1 completes
    with 100 bytes written; read 2 finds the end. *)
Definition os_short_write : nat -> Z :=
  script [ (* setup *) 1; 1; 1; 1; 0; 0; 0;
           (* turn 1: read 1 submitted *) 0; 4096; 0;
           (* turn 2: read 1 done, write 1 submitted *) 0; 512; 0;
           (* turn 3: read 2 submitted; write 1 done, 100 bytes *)
           0; 8192; 0; 0; 100;
           (* turn 4: read 2 finds the end *) 0; 0;
           (* gettimeofday *) 0 ] EINPROGRESS.

(** A file to a file, two slots each way: what [main] sets up for
    [opts_files] (lemma [cfg_files_from_main]). *)
Definition cfg_files : config := Config 512 2 2 1 1.

(** Answers for [cfg_files]: the second read completes before the first. *)
Definition os_second_first : nat -> Z :=
  script [ (* setup *) 1; 1; 1; 3; 1; 4; 1; 5; 1; 6; 0; 0; 0;
           (* turn 1: reads 1 and 2 submitted *) 0; 4096; 0; 0; 8192; 0;
           (* turn 2: read 1 running, read 2 done, write 1 submitted *)
           115; 0; 512; 0;
           (* turn 3: read 1 done, read 3 submitted, write 1 running,
              write 2 submitted *)
           0; 512; 0; 12288; 0; 115; 0;
           (* turn 4: read 4 submitted *) 0; 16384; 0 ]
         EINPROGRESS.



(** Standard input to a file. *)
Definition cfg_to_file : config := Config 512 1 1 0 1.

(** Answers for [cfg_to_file]: as [os_two_blocks], with the [open] of the
    output. *)
Definition os_to_file : nat -> Z :=
  script [ (* setup *) 1; 1; 1; 1; 5; 0; 0; 0;
           (* turn 1 *) 0; 4096; 0;
           (* turn 2 *) 0; 512; 0;
           (* turn 3 *) 0; 8192; 0; 0; 512;
           (* turn 4 *) 0; 512; 0;
           (* turn 5 *) 0; 12288; 0; 0; 512;
           (* turn 6 *) 0; 0;
           (* gettimeofday *) 0 ] EINPROGRESS.

(** Answers for [cfg_to_file]: the first write fails with [EFBIG]; then the
    operating system is quiet. *)
Definition os_full : nat -> Z :=
  script [ (* setup *) 1; 1; 1; 1; 5; 0; 0; 0;
           (* turn 1: read 1 submitted *) 0; 4096; 0;
           (* turn 2: read 1 done, write 1 submitted *) 0; 512; 0;
           (* turn 3: read 2 submitted; write 1: file too large *)
           0; 8192; 0; 27 ] 0.

(** That run in turn 3, between the two passes: write 1 is in progress. *)
Definition s_full : state :=
  final_state
    ((setup cfg_to_file os_full 0 (-1) ;;;
      main_loop cfg_to_file os_full 2 ;;;
      pass_A cfg_to_file os_full ;;;
      modify (set_j 0%nat)) start_state).

(** Two file systems that differ in the type of "in" only; "out" does not
    exist in either. *)
Definition fs_regular_in : Startup.filesystem :=
  fun path =>
    if String.eqb path "in" then Startup.StatOk (Startup.S_IFREG + 420)
    else Startup.StatErr ENOENT.

Definition fs_fifo_in : Startup.filesystem :=
  fun path =>
    if String.eqb path "in" then Startup.StatOk (Startup.S_IFIFO + 420)
    else Startup.StatErr ENOENT.

(** Answers for [cfg_pipe]: the first read is cancelled, the second one
    completes with a whole block. *)
Definition os_cancelled : nat -> Z :=
  script [ (* setup *) 1; 1; 1; 1; 0; 0; 0;
           (* turn 1: read 1 submitted *) 0; 4096; 0;
           (* turn 2: read 1 was cancelled *) 125; -1;
           (* turn 3: read 2 submitted *) 0; 8192; 0;
           (* turn 4: read 2 done *) 0; 512 ] EINPROGRESS.

(** That run after turn 4: read 2 is Ready and no write was submitted. *)
Definition s_gap : state := final_state (run cfg_pipe os_cancelled 0 1 4).

(** That run at the head of turn 2: read 1 is in progress. *)
Definition s_cancelled : state :=
  final_state (run cfg_pipe os_cancelled 0 1 1).

(** An operating system whose every call answers 5 ([EIO]). *)
Definition os_broken : nat -> Z := script [] 5.

(** The run of [os_full] after the visit that finds the file too large:
    [eof] is set and read 2 is still in progress. *)
Definition s_drain : state :=
  final_state (oque_visit cfg_to_file os_full 0 s_full).

(** The command line [-b 512], standard input to standard output. *)
Definition opts_pipe : list (ascii * string) := [("b"%char, "512"%string)].

(** A file system in which "out" is a regular file and nothing else
    exists. *)
Definition fs_regular_out : Startup.filesystem :=
  fun path =>
    if String.eqb path "out" then Startup.StatOk (Startup.S_IFREG + 420)
    else Startup.StatErr ENOENT.

(** The command line [-q 1 -b 512 -o out], standard input to a file. *)
Definition opts_to_file : list (ascii * string) :=
  [("q"%char, "1"%string); ("b"%char, "512"%string);
   ("o"%char, "out"%string)].

(** The command line [-q 2 -b 512 -i in -o out]. *)
Definition opts_files : list (ascii * string) :=
  [("q"%char, "2"%string); ("b"%char, "512"%string);
   ("i"%char, "in"%string); ("o"%char, "out"%string)].

(** * Properties *)

Local Arguments Nat.ltb : simpl never.
Local Arguments written : simpl never.

(** Case analysis on the next test of the program. *)
Ltac step :=
  match goal with
  | |- context [if ?b then _ else _] => destruct b eqn:?
  end.

Ltac zify_tests :=
  repeat match goal with
  | H : negb _ = true |- _ => apply negb_true_iff in H
  | H : negb _ = false |- _ => apply negb_false_iff in H
  | H : (_ && _) = true |- _ => apply andb_true_iff in H as [? ?]
  | H : (_ || _) = false |- _ => apply orb_false_iff in H as [? ?]
  | H : (_ =? _) = true |- _ => apply Z.eqb_eq in H
  | H : (_ =? _) = false |- _ => apply Z.eqb_neq in H
  end.

Ltac unfold_sched :=
  unfold ique_visit, ique_release, oque_visit, oque_release, match_ready,
    posix_memalign, aio_error, aio_return, aio_read, aio_write, free, emit, note,
    put_ique, put_oque, syscall, bind, gets, modify, ret, exit.

Ltac free_or_not :=
  repeat match goal with
  | |- context [status ?q =? QUEITEM_FREE] =>
    destruct (Z.eqb_spec (status q) QUEITEM_FREE)
  end.

Ltac count_slots :=
  zify_tests; free_or_not;
  unfold QUEITEM_FREE, QUEITEM_READY, QUEITEM_INPROGRESS in *; lia.

(** ** Lists of slots *)

Lemma busy_nonneg l : 0 <= busy l.
Proof.
  induction l as [|q r IH]; simpl; [lia|].
  destruct (status q =? QUEITEM_FREE); lia.
Qed.

Lemma busy_insert l i q q' :
  l !! i = Some q ->
  busy (<[i:=q']> l) =
  busy l - (if status q =? QUEITEM_FREE then 0 else 1)
         + (if status q' =? QUEITEM_FREE then 0 else 1).
Proof.
  revert i. induction l as [|a r IH]; intros [|i] H; simpl in *; try discriminate.
  - injection H as ->. lia.
  - rewrite (IH _ H). lia.
Qed.

Lemma busy_zero l : busy l = 0 <-> Forall is_free l.
Proof.
  induction l as [|q r IH]; simpl.
  - split; auto.
  - pose proof (busy_nonneg r). rewrite Forall_cons. unfold is_free at 1.
    destruct (Z.eqb_spec (status q) QUEITEM_FREE) as [E|E].
    + rewrite <- IH. split; [intros; split; auto; lia | intros [_ ?]; lia].
    + split; [lia|]. intros [HF _]. contradiction.
Qed.

Lemma item_lookup l i : (i < length l)%nat -> l !! i = Some (item l i).
Proof.
  intros H. unfold item.
  destruct (lookup_lt_is_Some_2 l i H) as [x ->]. reflexivity.
Qed.

(** ** The monad *)

Lemma preserves_ret {A} I T (a : A) : preserves I T (ret a).
Proof. intros s H. exact H. Qed.

Lemma preserves_bind {A B} I T (m : M A) (k : A -> M B) :
  preserves I T m -> (forall a, preserves I T (k a)) ->
  preserves I T (bind m k).
Proof.
  intros Hm Hk s H. unfold bind. specialize (Hm s H).
  destruct (m s) as [a s'|c s']; [apply Hk; exact Hm | exact Hm].
Qed.

Lemma preserves_gets {A} I T (f : state -> A) : preserves I T (gets f).
Proof. intros s H. exact H. Qed.

Lemma preserves_for_loop I T body n :
  (forall i, preserves I T (body i)) ->
  forall i, preserves I T (for_loop n i body).
Proof.
  intros Hb. induction n as [|n IH]; intros i; simpl.
  - apply preserves_ret.
  - apply preserves_bind; [apply Hb | intros _; apply IH].
Qed.

Lemma preserves_for_loop_below I T body bound :
  (forall i, (i < bound)%nat -> preserves I T (body i)) ->
  forall n i, (i + n <= bound)%nat -> preserves I T (for_loop n i body).
Proof.
  intros Hb. induction n as [|n IH]; intros i Hn; simpl.
  - apply preserves_ret.
  - apply preserves_bind; [apply Hb; lia | intros _; apply IH; lia].
Qed.

Lemma bind_assoc {A B C} (m : M A) (k : A -> M B) (h : B -> M C) s :
  bind (bind m k) h s = bind m (fun a => bind (k a) h) s.
Proof. unfold bind. destruct (m s); reflexivity. Qed.

Lemma main_loop_S cfg os n s :
  main_loop cfg os (S n) s =
  match turn cfg os s with
  | Ok true s1 => epilogue os s1
  | Ok false s1 => main_loop cfg os n s1
  | Exit c s1 => Exit c s1
  end.
Proof. simpl. unfold bind. destruct (turn cfg os s) as [[|] ?|]; reflexivity. Qed.

Lemma epilogue_exits os s : exists c s', epilogue os s = Exit c s'.
Proof.
  unfold epilogue, gettimeofday, syscall, note, modify, bind, exit.
  destruct (os (clock s) =? -1); eauto.
Qed.

(** Turn [n + 1] of the main loop is what follows [n] turns that did not
    leave it. *)
Lemma main_loop_snoc cfg os n s :
  main_loop cfg os (S n) s =
  (main_loop cfg os n ;;; b <- turn cfg os ;;
   if b then epilogue os else ret tt) s.
Proof.
  revert s. induction n as [|n IH]; intros s.
  - simpl. unfold bind, ret. destruct (turn cfg os s) as [[|] ?|]; reflexivity.
  - rewrite main_loop_S. unfold bind at 1. rewrite (main_loop_S cfg os n s).
    destruct (turn cfg os s) as [[|] s1|]; try reflexivity.
    + destruct (epilogue_exits os s1) as (c & s' & ->). reflexivity.
    + rewrite IH. reflexivity.
Qed.

(** [n + m] turns are [n] turns followed by [m] turns. *)
Lemma main_loop_add cfg os n m s :
  main_loop cfg os (n + m) s = (main_loop cfg os n ;;; main_loop cfg os m) s.
Proof.
  revert s. induction n as [|n IH]; intros s; [reflexivity|].
  change (S n + m)%nat with (S (n + m)). rewrite !main_loop_S.
  unfold bind at 1. rewrite (main_loop_S cfg os n s).
  destruct (turn cfg os s) as [[|] s1|]; try reflexivity.
  - destruct (epilogue_exits os s1) as (c & s' & ->). reflexivity.
  - rewrite IH. reflexivity.
Qed.

(** ** Setup *)

Lemma init_que_shape os n seekable tmpfd s :
  match init_que os n seekable tmpfd s with
  | Ok l s' =>
    length l = n /\ Forall is_free l /\ s' = set_clock (clock s') s
  | Exit _ s' => s' = set_clock (clock s') s
  end.
Proof.
  revert s. induction n as [|n IH]; intros s; simpl.
  - unfold ret. repeat split; auto. destruct s; reflexivity.
  - unfold malloc, open, syscall, bind, ret, exit. cbn.
    repeat step; try reflexivity.
    all: match goal with
         | |- context [init_que _ ?k ?a ?b ?t] =>
           specialize (IH t); destruct (init_que os k a b t)
         end.
    all: cbn in IH; try (destruct IH as (? & ? & IH)).
    all: try (rewrite IH; reflexivity).
    all: repeat split; simpl; auto.
    all: try (apply Forall_cons; split; auto; reflexivity).
    all: rewrite IH; reflexivity.
Qed.

(** After the setup both queues are allocated, every slot is Free and
    nothing was submitted. *)
Lemma setup_state cfg os ifd ofd :
  match setup cfg os ifd ofd start_state with
  | Ok _ s =>
    exists qi qo c,
      s = State 0 0 0 0 0 0 0 qi qo 0%nat c [] [] /\
      length qi = imaxqsize cfg /\ Forall is_free qi /\
      length qo = omaxqsize cfg /\ Forall is_free qo
  | Exit _ s => trace s = []
  end.
Proof.
  unfold setup, malloc, sigemptyset, sigaction, gettimeofday, syscall.
  unfold bind at 1. cbn. step; [reflexivity|].
  unfold bind at 1. cbn. step; [reflexivity|].
  unfold bind at 1.
  match goal with |- context [init_que _ ?k ?a ?b ?t] =>
    pose proof (init_que_shape os k a b t) as Hi;
    destruct (init_que os k a b t) as [qi s1|]; [|rewrite Hi; reflexivity] end.
  destruct Hi as (Li & Fi & E1).
  unfold bind at 1, modify at 1. unfold bind at 1.
  match goal with |- context [init_que _ ?k ?a ?b ?t] =>
    pose proof (init_que_shape os k a b t) as Ho;
    destruct (init_que os k a b t) as [qo s2|];
      [|rewrite Ho, E1; reflexivity] end.
  destruct Ho as (Lo & Fo & E2).
  unfold bind, modify, ret, exit. cbn.
  repeat step; try (rewrite E2, E1; reflexivity).
  exists qi, qo, (S (S (S (clock s2)))).
  repeat split; auto. rewrite E2, E1. reflexivity.
Qed.

(** ** The inner loop *)

(** The [while] loop of the output pass ends by its own test: once the
    fuel covers the slots from [j] on, more fuel changes nothing. *)
Lemma oque_scan_fuel cfg os i fuel fuel' s :
  (imaxqsize cfg - j s <= fuel)%nat ->
  (imaxqsize cfg - j s <= fuel')%nat ->
  oque_scan cfg os fuel i s = oque_scan cfg os fuel' i s.
Proof.
  revert fuel' s. induction fuel as [|fuel IH]; intros [|fuel'] s H H'.
  - reflexivity.
  - simpl. unfold bind, gets.
    destruct (Nat.ltb_spec (j s) (imaxqsize cfg)); [lia|reflexivity].
  - simpl. unfold bind, gets.
    destruct (Nat.ltb_spec (j s) (imaxqsize cfg)); [lia|reflexivity].
  - simpl. unfold_sched. cbn.
    destruct (Nat.ltb_spec (j s) (imaxqsize cfg)); [|reflexivity].
    repeat step; try reflexivity; apply IH; cbn; lia.
Qed.

(** ** The counters (lines 683, 734, 815, 862, 875) *)

Section Counting.
Context (cfg : config) (os : nat -> Z).

Lemma ique_visit_counted i :
  (i < imaxqsize cfg)%nat ->
  preserves (counted cfg) (fun _ => True) (ique_visit cfg os i).
Proof.
  intros Hi s [H1 H2 H3 H4 H5 H6].
  assert (Hq : ique s !! i = Some (item (ique s) i)) by (apply item_lookup; lia).
  pose proof (proj1 (Forall_lookup _ _) H3 _ _ Hq) as Hst. cbn beta in Hst.
  unfold_sched. cbn.
  repeat step; cbn; auto.
  all: constructor; cbn; rewrite ?length_insert; auto.
  all: try (apply Forall_insert; cbn; auto).
  all: erewrite busy_insert by eassumption; cbn.
  all: count_slots.
Qed.

Lemma pass_A_counted :
  preserves (counted cfg) (fun _ => True) (pass_A cfg os).
Proof.
  apply preserves_for_loop_below with (bound := imaxqsize cfg); [|lia].
  apply ique_visit_counted.
Qed.

Lemma oque_scan_counted i fuel :
  (i < omaxqsize cfg)%nat ->
  forall s, counted cfg s ->
  status (item (oque s) i) <> QUEITEM_INPROGRESS ->
  match oque_scan cfg os fuel i s with
  | Ok _ s' => counted cfg s'
  | Exit _ _ => True
  end.
Proof.
  intros Hi. induction fuel as [|fuel IH]; intros s Hc Hfree; [exact Hc|].
  destruct Hc as [H1 H2 H3 H4 H5 H6].
  assert (Ho : oque s !! i = Some (item (oque s) i)) by (apply item_lookup; lia).
  pose proof (proj1 (Forall_lookup _ _) H4 _ _ Ho) as Host. cbn beta in Host.
  simpl. unfold_sched. cbn.
  destruct (Nat.ltb_spec (j s) (imaxqsize cfg)) as [Hj|Hj]; [|constructor; auto].
  assert (Hq : ique s !! j s = Some (item (ique s) (j s)))
    by (apply item_lookup; lia).
  pose proof (proj1 (Forall_lookup _ _) H3 _ _ Hq) as Hst. cbn beta in Hst.
  repeat step; cbn; auto.
  all: try (apply IH; cbn; [| zify_tests; assumption]).
  all: try (constructor; cbn; rewrite ?length_insert; auto).
  all: try (apply Forall_insert; cbn; auto).
  all: try (erewrite !busy_insert by eassumption; cbn).
  all: try count_slots.
Qed.

Lemma oque_visit_counted i :
  (i < omaxqsize cfg)%nat ->
  preserves (counted cfg) (fun _ => True) (oque_visit cfg os i).
Proof.
  intros Hi s Hc.
  destruct (Z.eqb_spec (status (item (oque s) i)) QUEITEM_INPROGRESS) as [E|E].
  2:{ unfold oque_visit, bind, gets. cbn.
      rewrite (proj2 (Z.eqb_neq _ _) E).
      apply oque_scan_counted; assumption. }
  destruct Hc as [H1 H2 H3 H4 H5 H6].
  assert (Ho : oque s !! i = Some (item (oque s) i)) by (apply item_lookup; lia).
  unfold_sched. cbn. rewrite (proj2 (Z.eqb_eq _ _) E).
  repeat step; cbn; auto.
  all: constructor; cbn; rewrite ?length_insert; auto.
  all: try (apply Forall_insert; cbn; auto).
  all: erewrite busy_insert by eassumption; cbn.
  all: count_slots.
Qed.

Lemma set_j_counted k s : counted cfg s -> counted cfg (set_j k s).
Proof. intros [? ? ? ? ? ?]. constructor; assumption. Qed.

Lemma pass_B_counted :
  preserves (counted cfg) (fun _ => True) (pass_B cfg os).
Proof.
  unfold pass_B. apply preserves_bind.
  - intros s H. apply set_j_counted, H.
  - intros _. apply preserves_for_loop_below with (bound := omaxqsize cfg); [|lia].
    apply oque_visit_counted.
Qed.

Lemma turn_counted :
  preserves (counted cfg) (fun _ => True) (turn cfg os).
Proof.
  unfold turn.
  apply preserves_bind; [apply pass_A_counted | intros _].
  apply preserves_bind; [apply pass_B_counted | intros _].
  apply preserves_gets.
Qed.

Lemma main_loop_counted n :
  preserves (counted cfg) (fun _ => True) (main_loop cfg os n).
Proof.
  induction n as [|n IH]; simpl.
  - apply preserves_ret.
  - apply preserves_bind; [apply turn_counted | intros [|]; [|apply IH]].
    intros s _. unfold epilogue, gettimeofday, syscall, note, modify, bind, exit.
    destruct (_ =? _); exact I.
Qed.

Lemma setup_counted ifd ofd :
  match setup cfg os ifd ofd start_state with
  | Ok _ s => counted cfg s
  | Exit _ _ => True
  end.
Proof.
  pose proof (setup_state cfg os ifd ofd) as H.
  destruct (setup cfg os ifd ofd start_state) as [[] s|]; [|exact I].
  destruct H as (qi & qo & c & -> & Li & Fi & Lo & Fo).
  constructor; cbn; auto.
  - eapply Forall_impl; [exact Fi|]. intros q Hq. left. exact Hq.
  - eapply Forall_impl; [exact Fo|]. intros q Hq. left. exact Hq.
  - symmetry. apply busy_zero, Fi.
  - symmetry. apply busy_zero, Fo.
Qed.

Lemma run_to_test_counted ifd ofd n b s :
  run_to_test cfg os ifd ofd n = Ok b s -> counted cfg s.
Proof.
  unfold run_to_test. unfold bind at 1.
  pose proof (setup_counted ifd ofd) as H0.
  destruct (setup cfg os ifd ofd start_state) as [[] s0|]; [|discriminate].
  unfold bind at 1.
  pose proof (main_loop_counted n s0 H0) as H1.
  destruct (main_loop cfg os n s0) as [[] s1|]; [|discriminate].
  pose proof (turn_counted s1 H1) as H2.
  intros E. rewrite E in H2. exact H2.
Qed.

End Counting.

(** C7.  At the test of line 904 the counters [iqsize] and [oqsize] are the
    numbers of input and output slots that are not Free, so the test
    succeeds exactly when every slot of both queues is Free and [eof] is
    set.  When it succeeds the loop is left: whatever number of further
    turns the run is given, it goes to the epilogue in the state of the
    test, and the epilogue ends the process.  When it fails the loop goes
    on from that state. *)
Theorem exit_test_counts_busy_slots cfg os ifd ofd n b s :
  run_to_test cfg os ifd ofd n = Ok b s ->
  iqsize s = busy (ique s) /\ oqsize s = busy (oque s) /\
  (b = true <->
   Forall is_free (ique s) /\ Forall is_free (oque s) /\ eof s = 1) /\
  (forall m,
     run cfg os ifd ofd (S n + m) =
     if b then epilogue os s else main_loop cfg os m s) /\
  (exists s',
     epilogue os s =
     Exit (if os (clock s) =? -1 then EXIT_FAILURE else EXIT_SUCCESS) s').
Proof.
  intros Hrun.
  pose proof (run_to_test_counted cfg os ifd ofd n b s Hrun) as Hc.
  destruct Hc as [_ _ _ _ Hi Ho].
  split; [exact Hi|]. split; [exact Ho|].
  split; [|split].
  - assert (Hb : b = drained s).
    { revert Hrun. unfold run_to_test, turn. unfold bind, gets.
      destruct (setup _ _ _ _ _) as [[] s0|]; [|discriminate].
      destruct (main_loop _ _ _ _) as [[] s1|]; [|discriminate].
      destruct (pass_A _ _ _) as [[] s2|]; [|discriminate].
      destruct (pass_B _ _ _) as [[] s3|]; [|discriminate].
      intros [= <- <-]. reflexivity. }
    rewrite Hb. unfold drained.
    rewrite !andb_true_iff, !Z.eqb_eq, Hi, Ho, !busy_zero. tauto.
  - intros m. revert Hrun. unfold run_to_test, run. unfold bind at 1 3.
    destruct (setup _ _ _ _ _) as [[] s0|]; [|discriminate].
    replace (S n + m)%nat with (n + S m)%nat by lia.
    rewrite main_loop_add. unfold bind.
    destruct (main_loop cfg os n s0) as [[] s1|]; [|discriminate].
    rewrite main_loop_S. intros ->. reflexivity.
  - unfold epilogue, gettimeofday, syscall, note, modify, bind, exit.
    destruct (os (clock s) =? -1); eauto.
Qed.

(** ** Traces *)

Lemma writes_app tr1 tr2 : writes (tr1 ++ tr2) = writes tr1 ++ writes tr2.
Proof.
  induction tr1 as [|e r IH]; simpl; [reflexivity|].
  destruct e; simpl; rewrite ?IH; reflexivity.
Qed.

Lemma total_app l1 l2 : total (l1 ++ l2) = total l1 + total l2.
Proof. induction l1 as [|x r IH]; simpl; lia. Qed.

Lemma written_snoc_write tr rq src cb :
  written (tr ++ [EvWrite rq src cb]) = written tr + aio_nbytes cb.
Proof.
  unfold written. rewrite writes_app, map_app, total_app.
  simpl. unfold w_nbytes. simpl. lia.
Qed.

Lemma each_write_nil P : each_write P [].
Proof. intros [|? ?] ? ? ? ? H; discriminate H. Qed.

Lemma snoc_eq_app_cons {A} (tr : list A) e pre x post :
  tr ++ [e] = pre ++ x :: post ->
  (post = [] /\ pre = tr /\ x = e) \/
  exists post', post = post' ++ [e] /\ tr = pre ++ x :: post'.
Proof.
  destruct post as [|y post _] using rev_ind; intros H.
  - left. apply app_inj_tail in H as [-> ->]. auto.
  - right. exists post.
    change (pre ++ x :: post ++ [y]) with (pre ++ (x :: post) ++ [y]) in H.
    rewrite app_assoc in H. apply app_inj_tail in H as [-> ->]. auto.
Qed.

Lemma each_write_snoc P tr e :
  each_write P tr ->
  (forall rq src cb, e = EvWrite rq src cb -> P tr rq src cb) ->
  each_write P (tr ++ [e]).
Proof.
  intros Htr He pre rq src cb post H.
  apply snoc_eq_app_cons in H as [(_ & -> & E)|(post' & _ & E)].
  - apply He. symmetry. exact E.
  - eapply Htr. exact E.
Qed.

Lemma each_write_snoc_other P tr e :
  each_write P tr ->
  (forall rq src cb, e <> EvWrite rq src cb) ->
  each_write P (tr ++ [e]).
Proof.
  intros Htr He. apply each_write_snoc; [exact Htr|].
  intros rq src cb E. destruct (He _ _ _ E).
Qed.

Lemma slot_ok_snoc cfg tr e q : slot_ok cfg tr q -> slot_ok cfg (tr ++ [e]) q.
Proof.
  intros H Hs. destruct (H Hs) as (Hin & ?). split; [|assumption].
  apply in_or_app. left. exact Hin.
Qed.

Lemma slots_ok_snoc cfg tr e l :
  Forall (slot_ok cfg tr) l -> Forall (slot_ok cfg (tr ++ [e])) l.
Proof. intros H. eapply Forall_impl; [exact H|]. intros q. apply slot_ok_snoc. Qed.

Lemma slot_ok_free cfg tr q : status q = QUEITEM_FREE -> slot_ok cfg tr q.
Proof. intros E H. contradiction. Qed.

Lemma item_not_free l i :
  status (item l i) <> QUEITEM_FREE -> l !! i = Some (item l i).
Proof.
  unfold item. destruct (l !! i) as [q|]; simpl; [reflexivity|].
  intros H. destruct H. reflexivity.
Qed.

Lemma item_slot_ok cfg tr l i :
  Forall (slot_ok cfg tr) l -> slot_ok cfg tr (item l i).
Proof.
  intros H Hs. pose proof (item_not_free l i Hs) as E.
  exact (proj1 (Forall_lookup _ _) H _ _ E Hs).
Qed.

Lemma wrap64_range z : 0 <= wrap64 z < 2 ^ 64.
Proof. unfold wrap64. apply Z.mod_pos_bound. lia. Qed.

Lemma wrap64_add_l a b : wrap64 (wrap64 a + b) = wrap64 (a + b).
Proof. unfold wrap64. apply Zplus_mod_idemp_l. Qed.

Lemma wrap64_small z : 0 <= z < 2 ^ 64 -> wrap64 z = z.
Proof. unfold wrap64. apply Z.mod_small. Qed.

(** ** Numbering and offsets *)

Section Numbering.
Context (cfg : config) (os : nat -> Z).

Lemma writes_snoc_other tr e :
  (forall rq src cb, e <> EvWrite rq src cb) -> writes (tr ++ [e]) = writes tr.
Proof.
  intros H. rewrite writes_app. destruct e; simpl; try apply app_nil_r.
  destruct (H _ _ _ eq_refl).
Qed.

Lemma written_snoc_other tr e :
  (forall rq src cb, e <> EvWrite rq src cb) -> written (tr ++ [e]) = written tr.
Proof. intros H. unfold written. rewrite writes_snoc_other by exact H. reflexivity. Qed.

Ltac not_a_write := let a := fresh in let b := fresh in let c := fresh in
  intros a b c; discriminate.

Ltac trace_goal :=
  match goal with
  | |- each_write _ (_ ++ [_]) =>
    apply each_write_snoc_other; [trace_goal | not_a_write]
  | |- each_write _ _ => assumption
  | |- _ = Z.of_nat (length (writes (_ ++ [_]))) =>
    rewrite writes_snoc_other by not_a_write; trace_goal
  | |- _ = Z.of_nat (length (writes _)) => assumption
  | |- _ = wrap64 (written (_ ++ [_])) =>
    rewrite written_snoc_other by not_a_write; trace_goal
  | |- _ = wrap64 (written _) => assumption
  | |- Forall (slot_ok _ (_ ++ [_])) (ique _) =>
    apply slots_ok_snoc; trace_goal
  | |- Forall (slot_ok _ _) (ique _) => assumption
  end.

Lemma ique_visit_coherent i :
  preserves (coherent cfg) (traced cfg) (ique_visit cfg os i).
Proof.
  intros s [[H1 H2 H3 H4] H5].
  pose proof (item_slot_ok cfg _ _ i H4) as Hq.
  unfold coherent, traced.
  unfold_sched. cbn.
  repeat step; cbn; auto.
  all: try (split; [constructor; cbn|]).
  all: auto.
  all: try trace_goal.
  all: try (apply Forall_insert; [trace_goal|]).
  all: try (apply slot_ok_free; reflexivity).
  all: try (rewrite H3, wrap64_add_l; f_equal; lia).
  all: zify_tests.
  all: unfold slot_ok in *; cbn; intros Hs.
  all: try (destruct Hq as (Hin & Hoff & Hrng & Hrd);
            [unfold QUEITEM_FREE, QUEITEM_INPROGRESS in *; congruence|]).
  all: repeat split; try apply wrap64_range; try lia; auto.
  all: rewrite ?in_app_iff; auto.
  all: try (right; simpl; left; reflexivity).
  all: try (unfold read_offset; destruct (Z.eqb_spec (iseekable cfg) 1);
            try congruence; rewrite H3; f_equal; lia).
  all: try (intros _ Hb; cbn in *; congruence).
Qed.

Lemma set_j_coherent k s : coherent cfg s -> coherent cfg (set_j k s).
Proof. intros [[? ? ? ?] ?]. split; [constructor|]; assumption. Qed.

Lemma match_write_ok s jj d off :
  numbered cfg s ->
  status (item (ique s) jj) = QUEITEM_READY ->
  (oseekable cfg =? 0) && negb (rqnum (item (ique s) jj) =? orqnum s + 1)
    = false ->
  off = (if iseekable cfg =? 0 then ooff s else fdoffset (item (ique s) jj)) ->
  write_ok cfg (trace s) (orqnum s + 1) (rqnum (item (ique s) jj))
    (Aiocb d 0 (buffer (item (ique s) jj)) off (readyb (item (ique s) jj))).
Proof.
  intros [H1 H2 H3 H4] Hst Hgate ->.
  pose proof (item_slot_ok cfg _ _ jj H4) as Hq.
  destruct Hq as (Hin & Hoff & Hrng & Hrd);
    [rewrite Hst; discriminate|].
  unfold write_ok. cbn. repeat split; try lia; auto.
  - exists (first_cb cfg (item (ique s) jj)). cbn. auto.
  - destruct (iseekable cfg =? 0); [exact H2 | exact Hoff].
Qed.

Lemma oque_scan_coherent i fuel :
  preserves (coherent cfg) (traced cfg) (oque_scan cfg os fuel i).
Proof.
  induction fuel as [|fuel IH]; intros s Hc; [exact Hc|].
  pose proof (proj1 Hc) as Hn.
  destruct Hc as [[H1 H2 H3 H4] H5].
  simpl. unfold_sched. cbn.
  destruct (Nat.ltb_spec (j s) (imaxqsize cfg)) as [Hj|Hj];
    [|split; [constructor|]; auto].
  unfold coherent, traced in *.
  repeat step; cbn; auto.
  all: try (apply IH; apply set_j_coherent).
  all: try (split; [constructor; cbn|]).
  all: auto.
  all: try trace_goal.
  all: try (apply each_write_snoc; [assumption|];
            intros ? ? ? [= <- <- <-];
            apply match_write_ok; auto;
            [zify_tests; assumption | rewrite ?Heqb3, ?Heqb4; reflexivity]).
  all: try (rewrite writes_app, length_app; simpl; lia).
  all: try (rewrite written_snoc_write; cbn; rewrite H2, wrap64_add_l;
            reflexivity).
  all: try (apply Forall_insert;
            [apply slots_ok_snoc; assumption | apply slot_ok_free; reflexivity]).
Qed.

Lemma oque_visit_coherent i :
  preserves (coherent cfg) (traced cfg) (oque_visit cfg os i).
Proof.
  intros s Hc.
  destruct (Z.eqb_spec (status (item (oque s) i)) QUEITEM_INPROGRESS) as [E|E].
  2:{ unfold oque_visit, bind, gets. cbn.
      rewrite (proj2 (Z.eqb_neq _ _) E).
      apply oque_scan_coherent, Hc. }
  destruct Hc as [[H1 H2 H3 H4] H5].
  unfold coherent, traced in *.
  unfold_sched. cbn. rewrite (proj2 (Z.eqb_eq _ _) E).
  repeat step; cbn; auto.
  all: try (split; [constructor; cbn|]).
  all: auto.
  all: trace_goal.
Qed.

Lemma turn_coherent : preserves (coherent cfg) (traced cfg) (turn cfg os).
Proof.
  unfold turn, pass_A, pass_B.
  apply preserves_bind;
    [apply preserves_for_loop, ique_visit_coherent | intros _].
  apply preserves_bind; [|intros _; apply preserves_gets].
  apply preserves_bind; [intros s H; apply set_j_coherent, H | intros _].
  apply preserves_for_loop, oque_visit_coherent.
Qed.

Lemma main_loop_coherent n :
  preserves (coherent cfg) (traced cfg) (main_loop cfg os n).
Proof.
  induction n as [|n IH]; simpl.
  - apply preserves_ret.
  - apply preserves_bind; [apply turn_coherent | intros [|]; [|apply IH]].
    intros s [_ H]. unfold epilogue, gettimeofday, syscall, note, modify, bind, exit.
    destruct (os (clock s) =? -1); exact H.
Qed.

Lemma setup_coherent ifd ofd :
  match setup cfg os ifd ofd start_state with
  | Ok _ s => coherent cfg s
  | Exit _ s => traced cfg s
  end.
Proof.
  pose proof (setup_state cfg os ifd ofd) as H.
  destruct (setup cfg os ifd ofd start_state) as [[] s|].
  - destruct H as (qi & qo & c & -> & Li & Fi & Lo & Fo).
    split; [constructor; cbn; auto|apply each_write_nil].
    eapply Forall_impl; [exact Fi|]. intros q Hq. apply slot_ok_free, Hq.
  - unfold traced. rewrite H. apply each_write_nil.
Qed.

(** Every write of every run is numbered, sourced and placed as
    [write_ok] says, whether the run is still going, has returned or was
    ended by an error. *)
Lemma run_traced ifd ofd n :
  traced cfg (final_state (run cfg os ifd ofd n)).
Proof.
  unfold run. unfold bind at 1.
  pose proof (setup_coherent ifd ofd) as H0.
  destruct (setup cfg os ifd ofd start_state) as [[] s0|]; [|exact H0].
  pose proof (main_loop_coherent n s0 H0) as H1.
  destruct (main_loop cfg os n s0) as [[] s1|]; [apply H1 | exact H1].
Qed.

End Numbering.

(** ** What the trace of a run says of its writes *)

Lemma each_write_app_l P tr tr' : each_write P (tr ++ tr') -> each_write P tr.
Proof.
  intros H pre rq src cb post E.
  apply (H pre rq src cb (post ++ tr')).
  rewrite E, <- app_assoc. reflexivity.
Qed.

Lemma writes_lookup tr k w :
  writes tr !! k = Some w ->
  exists pre post,
    tr = pre ++ EvWrite (w_rq w) (w_src w) (w_cb w) :: post /\
    writes pre = take k (writes tr).
Proof.
  revert k. induction tr as [|e r IH]; intros k H; [discriminate|].
  destruct e as [p|p|rq cb|rq src cb]; simpl in H |- *.
  1-3: destruct (IH k H) as (pre & post & -> & E);
       eexists (_ :: pre), post; split; [reflexivity|exact E].
  destruct k as [|k]; simpl in H.
  - injection H as <-. exists [], r. split; reflexivity.
  - destruct (IH k H) as (pre & post & -> & E).
    eexists (_ :: pre), post. split; [reflexivity|].
    simpl. rewrite E. reflexivity.
Qed.

Lemma each_write_lookup P tr k w :
  each_write P tr -> writes tr !! k = Some w ->
  exists pre,
    writes pre = take k (writes tr) /\ (forall e, In e pre -> In e tr) /\
    P pre (w_rq w) (w_src w) (w_cb w).
Proof.
  intros H Hk. destruct (writes_lookup tr k w Hk) as (pre & post & E & Ew).
  exists pre. split; [exact Ew|]. split; [|exact (H _ _ _ _ _ E)].
  intros e He. rewrite E. apply in_or_app. left. exact He.
Qed.

Lemma srcs_consecutive tr :
  each_write (fun pre _ src _ => src = Z.of_nat (length (writes pre)) + 1) tr ->
  map w_src (writes tr) = seqZ 1 (Z.of_nat (length (writes tr))).
Proof.
  induction tr as [|e tr IH] using rev_ind; intros H; [reflexivity|].
  specialize (IH (each_write_app_l _ _ _ H)).
  rewrite writes_app.
  destruct e as [p|p|rq cb|rq src cb]; simpl; rewrite ?app_nil_r; auto.
  rewrite map_app, length_app. simpl.
  replace (length (writes tr) + 1)%nat with (S (length (writes tr))) by lia.
  rewrite seqZ_S, IH. f_equal. f_equal.
  rewrite (H tr rq src cb [] eq_refl). lia.
Qed.

Lemma total_nonneg l : Forall (fun x => 0 <= x) l -> 0 <= total l.
Proof. induction 1; simpl; lia. Qed.

Lemma total_take_le {A} (f : A -> Z) l k :
  Forall (fun x => 0 <= f x) l ->
  0 <= total (map f (take k l)) <= total (map f l).
Proof.
  intros H. revert k. induction H as [|x l Hx Hl IH]; intros [|k]; simpl.
  1-2: lia.
  - assert (0 <= total (map f l)); [|lia].
    apply total_nonneg, Forall_map. exact Hl.
  - specialize (IH k). lia.
Qed.

Lemma total_take_S {A} (f : A -> Z) l k x :
  l !! k = Some x ->
  total (map f (take (S k) l)) = total (map f (take k l)) + f x.
Proof.
  revert k. induction l as [|y l IH]; intros [|k] H; simpl in *; try discriminate.
  - injection H as ->. lia.
  - rewrite (IH k H). lia.
Qed.

Section Runs.
Context (cfg : config) (os : nat -> Z) (ifd ofd : Z) (n : nat).

Let tr := trace (final_state (run cfg os ifd ofd n)).

Lemma run_write_ok : each_write (write_ok cfg) tr.
Proof. apply run_traced. Qed.

Lemma run_write_at k w :
  writes tr !! k = Some w ->
  exists pre,
    writes pre = take k (writes tr) /\ (forall e, In e pre -> In e tr) /\
    write_ok cfg pre (w_rq w) (w_src w) (w_cb w).
Proof. apply each_write_lookup, run_write_ok. Qed.

Lemma run_nbytes_nonneg : Forall (fun w => 0 <= w_nbytes w) (writes tr).
Proof.
  apply Forall_lookup. intros k w Hk.
  destruct (run_write_at k w Hk) as (pre & _ & _ & H).
  unfold write_ok in H. unfold w_nbytes. tauto.
Qed.

Lemma run_write_offset k w :
  writes tr !! k = Some w ->
  w_offset w =
  if iseekable cfg =? 0
  then wrap64 (total (map w_nbytes (take k (writes tr))))
  else read_offset cfg (w_src w).
Proof.
  intros Hk. destruct (run_write_at k w Hk) as (pre & E & _ & H).
  destruct H as (_ & _ & _ & Hoff & _). unfold w_offset. rewrite Hoff.
  unfold written. rewrite E. reflexivity.
Qed.

Lemma run_write_src k w :
  oseekable cfg = 0 -> writes tr !! k = Some w ->
  w_rq w = Z.of_nat k + 1 /\ w_src w = Z.of_nat k + 1.
Proof.
  intros Ho Hk. destruct (run_write_at k w Hk) as (pre & E & _ & H).
  destruct H as (Hrq & Hsrc & _). specialize (Hsrc Ho).
  rewrite E, length_take in Hrq.
  apply lookup_lt_Some in Hk. lia.
Qed.

End Runs.

(** C2, as the code has it.  With a non-seekable output the k-th write
    carries the byte total of the writes before it when the input is
    non-seekable, and the offset of the read it carries, (k-1) * blksize,
    when the input is seekable (both modulo 2^64).  The first write carries
    offset zero. *)
Theorem nonseekable_output_write_offsets cfg os ifd ofd n :
  oseekable cfg = 0 ->
  let ws := writes (trace (final_state (run cfg os ifd ofd n))) in
  forall k w, ws !! k = Some w ->
    w_offset w =
      (if iseekable cfg =? 0
       then wrap64 (total (map w_nbytes (take k ws)))
       else read_offset cfg (Z.of_nat k + 1)) /\
    (k = 0%nat -> w_offset w = 0).
Proof.
  intros Ho ws k w Hk.
  pose proof (run_write_offset cfg os ifd ofd n k w Hk) as Hoff.
  destruct (run_write_src cfg os ifd ofd n k w Ho Hk) as [_ Hsrc].
  rewrite Hsrc in Hoff. split; [exact Hoff|].
  intros ->. rewrite Hoff. unfold read_offset. simpl.
  destruct (iseekable cfg =? 0); [reflexivity|].
  destruct (iseekable cfg =? 1); reflexivity.
Qed.

Lemma sint64_small z : - 2 ^ 63 <= z < 2 ^ 63 -> sint64 z = z.
Proof. intros H. unfold sint64. rewrite Z.mod_small by lia. lia. Qed.

(** C3, as the code has it.  With a seekable output: when the input is
    non-seekable (and the block size is not zero and fewer than 2^63
    bytes, the range of [off_t], are written) the file offsets of
    consecutive writes grow by the byte count of the earlier write; when
    the input is seekable each write carries the offset of the read it was
    matched to, whatever the order of submission. *)
Theorem seekable_output_write_offsets cfg os ifd ofd n :
  oseekable cfg = 1 ->
  let tr := trace (final_state (run cfg os ifd ofd n)) in
  (iseekable cfg = 0 -> wrap64 (blksize cfg) <> 0 -> written tr < 2 ^ 63 ->
   spaced_by_filled (writes tr)) /\
  (iseekable cfg = 1 ->
   forall k w, writes tr !! k = Some w ->
     w_offset w = wrap64 ((w_src w - 1) * blksize cfg)).
Proof.
  intros _ tr. subst tr. split.
  - intros Hi Hb Hlt k w w' Hk Hk'.
    pose proof (run_write_offset cfg os ifd ofd n k w Hk) as Hoff.
    pose proof (run_write_offset cfg os ifd ofd n (S k) w' Hk') as Hoff'.
    rewrite Hi in Hoff, Hoff'. simpl in Hoff, Hoff'.
    rewrite (total_take_S w_nbytes _ _ _ Hk) in Hoff'.
    pose proof (run_nbytes_nonneg cfg os ifd ofd n) as Hnn.
    pose proof (total_take_le w_nbytes _ k Hnn) as Hle.
    pose proof (total_take_le w_nbytes _ (S k) Hnn) as Hle'.
    rewrite (total_take_S w_nbytes _ _ _ Hk) in Hle'.
    unfold written in Hlt.
    rewrite wrap64_small in Hoff by lia.
    rewrite wrap64_small in Hoff' by lia.
    destruct (run_write_at cfg os ifd ofd n k w Hk) as (pre & _ & _ & H).
    destruct H as (_ & _ & _ & _ & Hrng & Hnz). specialize (Hnz Hb).
    unfold w_off_t. rewrite Hoff, Hoff'.
    rewrite !sint64_small by (unfold w_nbytes in *; lia).
    unfold w_nbytes in *. lia.
  - intros Hi k w Hk.
    rewrite (run_write_offset cfg os ifd ofd n k w Hk).
    unfold read_offset. rewrite Hi. reflexivity.
Qed.

(** ** Single visits *)

Lemma item_of_lookup l i q : l !! i = Some q -> item l i = q.
Proof. intros H. unfold item. rewrite H. reflexivity. Qed.

Lemma sint32_small z : - 2 ^ 31 <= z < 2 ^ 31 -> sint32 z = z.
Proof. intros H. unfold sint32. rewrite Z.mod_small by lia. lia. Qed.

(** C4.  A completion with [n] bytes, [0 < n < blksize - filled], leaves
    the input slot in progress with [filled + n] bytes and calls [aio_read]
    again on the same slot for the [blksize - (filled + n)] bytes that are
    missing, at offset [fdoffset + (filled + n)] for a seekable input and
    at offset 0 otherwise.  The address it reads into is
    [buffer + (filled + n)] as line 612 computes it, in the 64 bits of a
    pointer: it lies behind the bytes already there whenever the block of
    [blksize] bytes at [buffer] lies in the address space.  The visit ends
    the process only when that [aio_read] itself is refused. *)
Theorem short_read_is_resubmitted cfg os s i q n :
  ique s !! i = Some q ->
  status q = QUEITEM_INPROGRESS ->
  os (clock s) = 0 ->
  os (S (clock s)) = n ->
  0 <= readyb q ->
  blksize cfg < 2 ^ 31 ->
  0 < n < blksize cfg - readyb q ->
  exists s' q' cb,
    ique_visit cfg os i s =
      (if os (S (S (clock s))) =? -1 then Exit EXIT_FAILURE s' else Ok tt s') /\
    ique s' !! i = Some q' /\
    status q' = QUEITEM_INPROGRESS /\
    readyb q' = readyb q + n /\
    rqnum q' = rqnum q /\ fd q' = fd q /\
    buffer q' = buffer q /\ fdoffset q' = fdoffset q /\
    trace s' = trace s ++ [EvRead (rqnum q) cb] /\
    aio_fildes cb = fd q /\ aio_reqprio cb = 0 /\
    aio_buf cb = wrap64 (buffer q + readyb q') /\
    (0 <= buffer q -> buffer q + blksize cfg <= 2 ^ 64 ->
     wrap64 (buffer q + readyb q') = buffer q + readyb q') /\
    aio_nbytes cb = blksize cfg - readyb q' /\
    aio_offset cb =
      (if iseekable cfg =? 1 then wrap64 (fdoffset q + readyb q') else 0) /\
    (0 <= fdoffset q -> fdoffset q + blksize cfg <= 2 ^ 64 ->
     wrap64 (fdoffset q + readyb q') = fdoffset q + readyb q') /\
    eof s' = eof s /\ iqsize s' = iqsize s.
Proof.
  intros Hq Hst He Hr H0 Hb Hn.
  pose proof (item_of_lookup _ _ _ Hq) as Hit.
  assert (Hlen : (i < length (ique s))%nat) by (eapply lookup_lt_Some; eauto).
  assert (Hs : sint32 n = n) by (apply sint32_small; lia).
  assert (Hw : wrap64 (readyb q + n) = readyb q + n)
    by (apply wrap64_small; lia).
  assert (Hwb : wrap64 (blksize cfg) = blksize cfg)
    by (apply wrap64_small; lia).
  assert (Hwr : wrap64 (blksize cfg - (readyb q + n)) = blksize cfg - (readyb q + n))
    by (apply wrap64_small; lia).
  unfold_sched. cbn. rewrite Hit, Hst. cbn. rewrite He. cbn. rewrite Hr, Hs.
  destruct (Z.eqb_spec n 0) as [|_]; [lia|]. cbn.
  rewrite Hw, Hwb, Hwr.
  destruct (Z.eqb_spec (readyb q + n) (blksize cfg)) as [|_]; [lia|]. cbn.
  do 3 eexists.
  split; [destruct (os (S (S (clock s))) =? -1); reflexivity|]. cbn.
  rewrite list_lookup_insert_eq by exact Hlen.
  repeat split; auto; cbn; intros ? ?; apply wrap64_small; lia.
Qed.

(** C5.  A completion with 0 bytes sets [eof]; the input slot becomes Ready
    when it holds bytes already, and otherwise Free, its buffer passed to
    [free] and its pointer set to NULL. *)
Theorem read_eof_latches cfg os s i q :
  ique s !! i = Some q ->
  status q = QUEITEM_INPROGRESS ->
  os (clock s) = 0 ->
  os (S (clock s)) = 0 ->
  exists s' q',
    ique_visit cfg os i s = Ok tt s' /\
    eof s' = 1 /\
    ique s' !! i = Some q' /\
    (readyb q <> 0 ->
     status q' = QUEITEM_READY /\ readyb q' = readyb q /\
     buffer q' = buffer q /\ trace s' = trace s /\ iqsize s' = iqsize s) /\
    (readyb q = 0 ->
     status q' = QUEITEM_FREE /\ buffer q' = NULL /\
     trace s' = trace s ++ [EvFree (buffer q)] /\
     iqsize s' = iqsize s - 1).
Proof.
  intros Hq Hst He Hr.
  pose proof (item_of_lookup _ _ _ Hq) as Hit.
  assert (Hlen : (i < length (ique s))%nat) by (eapply lookup_lt_Some; eauto).
  unfold_sched. cbn. rewrite Hit, Hst. cbn. rewrite He. cbn. rewrite Hr. cbn.
  destruct (Z.eqb_spec (readyb q) 0) as [E|E]; cbn.
  - do 2 eexists. split; [reflexivity|]. cbn.
    rewrite list_lookup_insert_eq by exact Hlen.
    repeat split; auto; intros; contradiction.
  - do 2 eexists. split; [reflexivity|]. cbn.
    rewrite list_lookup_insert_eq by exact Hlen.
    repeat split; auto; intros; contradiction.
Qed.


(** C9, as the code has it.  When the scan of a Free output slot [i] finds
    the input slot under the cursor Ready (and, for a non-seekable output,
    next in order) and [aio_write] accepts the write, then in that one step
    the output slot gets the buffer of the input slot and is in progress,
    the input slot is Free and the [aio_buf] of its control block is NULL;
    its [buffer] field still holds the pointer. *)
Theorem handoff_moves_buffer cfg os fuel s i qj qo :
  (j s < imaxqsize cfg)%nat ->
  ique s !! j s = Some qj ->
  oque s !! i = Some qo ->
  status qj = QUEITEM_READY ->
  status qo = QUEITEM_FREE ->
  (oseekable cfg = 0 -> rqnum qj = orqnum s + 1) ->
  os (clock s) <> -1 ->
  exists s' qj' qo',
    oque_scan cfg os (S fuel) i s = Ok tt s' /\
    ique s' !! j s = Some qj' /\
    oque s' !! i = Some qo' /\
    buffer qo' = buffer qj /\
    aio_buf (aiodata qo') = buffer qj /\
    status qo' = QUEITEM_INPROGRESS /\
    status qj' = QUEITEM_FREE /\
    aio_buf (aiodata qj') = NULL /\
    buffer qj' = buffer qj /\
    j s' = S (j s).
Proof.
  intros Hj Hqj Hqo Hsj Hso Hgate Hw.
  pose proof (item_of_lookup _ _ _ Hqj) as Hitj.
  pose proof (item_of_lookup _ _ _ Hqo) as Hito.
  assert (Hlj : (j s < length (ique s))%nat) by (eapply lookup_lt_Some; eauto).
  assert (Hlo : (i < length (oque s))%nat) by (eapply lookup_lt_Some; eauto).
  assert (Hg : (oseekable cfg =? 0) && negb (rqnum qj =? orqnum s + 1) = false).
  { destruct (Z.eqb_spec (oseekable cfg) 0) as [E|E]; [|reflexivity].
    rewrite (Hgate E), Z.eqb_refl. reflexivity. }
  subst qj qo.
  simpl. unfold_sched. cbn.
  destruct (Nat.ltb_spec (j s) (imaxqsize cfg)) as [_|]; [|lia].
  rewrite Hsj. cbn. rewrite Hg.
  destruct (Z.eqb_spec (os (clock s)) (-1)) as [|_]; [contradiction|]. cbn.
  unfold item at 1. rewrite list_lookup_insert_eq by exact Hlo. cbn.
  do 3 eexists. split; [reflexivity|]. cbn.
  rewrite !list_lookup_insert_eq by assumption.
  repeat split; reflexivity.
Qed.

(** C8.  The block-size argument "0" is accepted and makes the block size
    0, which is below 512; so is "-512", which makes it -512.  (Lines
    305-317 test the multiple of 512 and the upper bound only; the queue
    size, at line 247, is tested against its lower bound too.) *)
Theorem zero_blksize_is_accepted :
  Cmdline.opt_b "0" = Cmdline.Accepted 0 /\
  ~ Cmdline.valid_blksize 0 /\
  Cmdline.opt_b "-512" = Cmdline.Accepted (-512) /\
  ~ Cmdline.valid_blksize (-512).
Proof.
  split; [vm_compute; reflexivity|].
  split; [unfold Cmdline.valid_blksize; lia|].
  split; [vm_compute; reflexivity|].
  unfold Cmdline.valid_blksize; lia.
Qed.

(** What lines 305-319 do accept. *)
Lemma check_blksize_accepts tint v :
  Cmdline.check_blksize tint = Cmdline.Accepted v <->
  Z.rem tint 512 = 0 /\ tint <= 1024 * 1024 * 16 /\ v = sint32 tint.
Proof.
  unfold Cmdline.check_blksize.
  destruct (Z.eqb_spec (Z.rem tint 512) 0) as [E|E]; cbn.
  - destruct (Z.ltb_spec (1024 * 1024 * 16) tint) as [L|L].
    + split; [discriminate | lia].
    + split; [intros [= <-]; auto | intros (_ & _ & ->); reflexivity].
  - split; [discriminate | tauto].
Qed.

(** Every block size of the domain of the specification is accepted. *)
Lemma check_blksize_valid v :
  Cmdline.valid_blksize v -> Cmdline.check_blksize v = Cmdline.Accepted v.
Proof.
  intros [Hr Hm]. apply check_blksize_accepts.
  split; [|split; [lia|]].
  - rewrite Z.rem_mod_nonneg by lia. exact Hm.
  - symmetry. apply sint32_small. lia.
Qed.

(** C10.  For an output path that does not exist, [stat] fails with ENOENT
    and [statdata] still holds what the [stat] of the input put there: the
    output is classified seekable when the input is a regular file and
    non-seekable when the input is a FIFO. *)
Theorem missing_output_classified_by_input :
  Startup.oseekable_of
    (Startup.classify fs_regular_in 8 (Some "in"%string) (Some "out"%string) 0)
    = Some 1 /\
  Startup.oseekable_of
    (Startup.classify fs_fifo_in 8 (Some "in"%string) (Some "out"%string) 0)
    = Some 0 /\
  fs_regular_in "out" = fs_fifo_in "out".
Proof. repeat split; vm_compute; reflexivity. Qed.

(** With standard input, the class of a missing output is that of whatever
    the uninitialised [statdata] holds. *)
Lemma missing_output_classified_by_garbage fs path maxqsize garbage :
  fs path = Startup.StatErr ENOENT ->
  Startup.oseekable_of
    (Startup.classify fs maxqsize None (Some path) garbage)
  = Some (if Startup.seekable_mode garbage then 1 else 0).
Proof.
  intros H. unfold Startup.classify. rewrite H. cbn.
  destruct (Startup.seekable_mode garbage); reflexivity.
Qed.

(** A path that exists is classified by its own type, on both sides. *)
Lemma existing_paths_classified fs maxqsize ipath opath garbage mi mo :
  fs ipath = Startup.StatOk mi ->
  fs opath = Startup.StatOk mo ->
  exists r,
    Startup.classify fs maxqsize (Some ipath) (Some opath) garbage
      = Startup.Started r /\
    Startup.s_iseekable r = (if Startup.seekable_mode mi then 1 else 0) /\
    Startup.s_oseekable r = (if Startup.seekable_mode mo then 1 else 0).
Proof.
  intros Hi Ho. unfold Startup.classify. rewrite Hi, Ho.
  destruct (Startup.seekable_mode mi), (Startup.seekable_mode mo); cbn;
    eexists; repeat split.
Qed.

(** ** [eof] is latched *)

Section Latch.
Context (cfg : config) (os : nat -> Z).








End Latch.

(** ** Draining the queues *)

Section Draining.
Context (cfg : config) (os : nat -> Z).

Lemma quiet_later c c' : quiet os c -> (c <= c')%nat -> quiet os c'.
Proof. intros H L k Hk. apply H. lia. Qed.

Lemma ique_visit_quiet i s :
  (i < imaxqsize cfg)%nat -> draining cfg os s ->
  exists s',
    ique_visit cfg os i s = Ok tt s' /\ draining cfg os s' /\
    pending s' <= pending s /\
    settled (item (ique s') i) /\
    (forall m, m <> i -> ique s' !! m = ique s !! m).
Proof.
  intros Hi (Hc & He & Hq).
  pose proof (ique_visit_counted cfg os i Hi s Hc) as Hc'.
  assert (Hlen : (i < length (ique s))%nat) by (rewrite (cnt_ilen _ _ Hc); exact Hi).
  pose proof (proj1 (Forall_lookup _ _) (cnt_ist _ _ Hc) _ _ (item_lookup _ _ Hlen)) as Hst.
  cbn beta in Hst.
  revert Hc'. unfold draining, pending, settled.
  unfold_sched. cbn.
  repeat step; cbn; intros Hc'.
  all: cbn in *; rewrite ?He in *.
  all: repeat match goal with
       | H : context [os ?c] |- _ => rewrite (Hq c) in H by lia
       end.
  all: try discriminate.
  all: rewrite ?(Hq (clock s)) by lia; rewrite ?(Hq (S (clock s))) by lia.
  all: eexists; split; [reflexivity|]; cbn.
  all: split; [split; [exact Hc'|split; [auto|eapply quiet_later; [exact Hq|cbn; lia]]]|].
  all: split; [lia|].
  all: split; [|intros m Hm; rewrite ?list_lookup_insert_ne by auto; reflexivity].
  all: unfold item; rewrite ?list_lookup_insert_eq by exact Hlen; cbn.
  all: try discriminate.
  all: fold (item (ique s) i); zify_tests; try congruence.
  unfold QUEITEM_FREE, QUEITEM_READY, QUEITEM_INPROGRESS in *; lia.
Qed.

Lemma pass_A_quiet s :
  draining cfg os s ->
  exists s',
    pass_A cfg os s = Ok tt s' /\ draining cfg os s' /\
    pending s' <= pending s /\ Forall settled (ique s').
Proof.
  intros Hd.
  assert (G : forall n i s,
    (i + n = imaxqsize cfg)%nat -> draining cfg os s ->
    (forall m q, (m < i)%nat -> ique s !! m = Some q -> settled q) ->
    exists s',
      for_loop n i (ique_visit cfg os) s = Ok tt s' /\ draining cfg os s' /\
      pending s' <= pending s /\ Forall settled (ique s')).
  { clear s Hd. induction n as [|n IH]; intros i s Hn Hd Hs.
    - exists s. simpl. repeat split; try apply Hd; try lia.
      apply Forall_lookup. intros m q Hm. apply (Hs m q); [|exact Hm].
      apply lookup_lt_Some in Hm.
      rewrite (cnt_ilen _ _ (proj1 Hd)) in Hm. lia.
    - destruct (ique_visit_quiet i s ltac:(lia) Hd)
        as (s1 & E1 & Hd1 & Hp1 & Hs1 & Hf1).
      destruct (IH (S i) s1 ltac:(lia) Hd1) as (s2 & E2 & Hd2 & Hp2 & Hs2).
      + intros m q Hm Hq.
        destruct (decide (m = i)) as [->|Hne].
        * rewrite <- (item_of_lookup _ _ _ Hq). exact Hs1.
        * rewrite Hf1 in Hq by exact Hne. apply (Hs m q); [lia|exact Hq].
      + exists s2. simpl. unfold bind. rewrite E1.
        repeat split; try apply Hd2; auto. lia. }
  apply G; [lia|exact Hd|]. intros m q Hm. lia.
Qed.

Lemma item_insert_eq l i q :
  (i < length l)%nat -> item (<[i:=q]> l) i = q.
Proof.
  intros H. unfold item. rewrite list_lookup_insert_eq by exact H. reflexivity.
Qed.

Lemma oque_scan_quiet i fuel s :
  (i < omaxqsize cfg)%nat -> oseekable cfg = 1 ->
  draining cfg os s -> status (item (oque s) i) = QUEITEM_FREE ->
  exists s',
    oque_scan cfg os fuel i s = Ok tt s' /\ draining cfg os s' /\
    pending s' <= pending s /\
    (forall m, m <> i -> oque s' !! m = oque s !! m) /\
    (Forall settled (ique s) -> Forall settled (ique s')) /\
    ((imaxqsize cfg - j s <= fuel)%nat ->
     (exists m, (j s <= m < imaxqsize cfg)%nat /\
                status (item (ique s) m) = QUEITEM_READY) ->
     pending s' < pending s).
Proof.
  intros Hi Hseek. revert s.
  induction fuel as [|fuel IH]; intros s Hd Hfree.
  { exists s. simpl. unfold ret.
    split; [reflexivity|]. split; [exact Hd|]. split; [lia|].
    split; [auto|]. split; [auto|]. intros Hf (m & Hm & _). lia. }
  pose proof Hd as (Hc & He & Hq).
  assert (Hfree' : status (item (oque s) i) <> QUEITEM_INPROGRESS)
    by (rewrite Hfree; discriminate).
  pose proof (oque_scan_counted cfg os i (S fuel) Hi s Hc Hfree') as Hc'.
  revert Hc'. simpl. unfold_sched. cbn.
  destruct (Nat.ltb_spec (j s) (imaxqsize cfg)) as [Hj|Hj].
  2:{ cbn. intros _. exists s.
      split; [reflexivity|]. split; [exact Hd|]. split; [lia|].
      split; [auto|]. split; [auto|]. intros _ (m & Hm & _). lia. }
  assert (Hlen : (j s < length (ique s))%nat)
    by (rewrite (cnt_ilen _ _ Hc); exact Hj).
  pose proof (proj1 (Forall_lookup _ _) (cnt_ist _ _ Hc) _ _
                (item_lookup _ _ Hlen)) as Hst.
  cbn beta in Hst.
  assert (Hlo : (i < length (oque s))%nat)
    by (rewrite (cnt_olen _ _ Hc); exact Hi).
  assert (Hskip : forall s1, s1 = set_j (S (j s)) s ->
    status (item (ique s) (j s)) <> QUEITEM_READY ->
    exists s',
      oque_scan cfg os fuel i s1 = Ok tt s' /\ draining cfg os s' /\
      pending s' <= pending s /\
      (forall m, m <> i -> oque s' !! m = oque s !! m) /\
      (Forall settled (ique s) -> Forall settled (ique s')) /\
      ((imaxqsize cfg - j s <= S fuel)%nat ->
       (exists m, (j s <= m < imaxqsize cfg)%nat /\
                  status (item (ique s) m) = QUEITEM_READY) ->
       pending s' < pending s)).
  { intros s1 -> Hnr.
    destruct (IH (set_j (S (j s)) s)) as (s' & E & Hd' & Hp & Hf & Hs & Hlt).
    - split; [apply set_j_counted, Hc|]. split; [exact He|exact Hq].
    - exact Hfree.
    - exists s'. split; [exact E|]. split; [exact Hd'|].
      split; [exact Hp|]. split; [exact Hf|]. split; [exact Hs|].
      intros Hfu (m & Hm & Hr). apply Hlt; [cbn; lia|].
      exists m. split; [cbn|exact Hr].
      destruct (decide (m = j s)) as [->|]; [contradiction|lia]. }
  destruct Hst as [Hst|[Hst|Hst]]; rewrite Hst; cbn.
  - rewrite Hfree. cbn. intros _. apply Hskip; [reflexivity|].
    rewrite Hst. discriminate.
  - rewrite Hseek. cbn. rewrite (Hq (clock s)) by lia. cbn.
    rewrite !item_insert_eq by exact Hlo. cbn.
    intros Hc'. eexists. split; [reflexivity|].
    split; [split; [exact Hc'|split; [exact He|]]|].
    { eapply quiet_later; [exact Hq|cbn; lia]. }
    unfold pending. cbn.
    split; [lia|]. split; [|split; [|lia]].
    + intros m Hm. rewrite list_lookup_insert_ne by auto. reflexivity.
    + intros Hs. apply Forall_insert; [exact Hs|]. unfold settled. cbn.
      discriminate.
  - rewrite Hfree. cbn. intros _. apply Hskip; [reflexivity|].
    rewrite Hst. discriminate.
Qed.

Lemma oque_visit_quiet i s :
  (i < omaxqsize cfg)%nat -> oseekable cfg = 1 -> draining cfg os s ->
  exists s',
    oque_visit cfg os i s = Ok tt s' /\ draining cfg os s' /\
    pending s' + (if status (item (oque s) i) =? QUEITEM_FREE then 0 else 1)
      <= pending s /\
    (forall m, m <> i -> oque s' !! m = oque s !! m) /\
    (Forall settled (ique s) -> Forall settled (ique s')) /\
    (status (item (oque s) i) = QUEITEM_FREE ->
     (exists m, (j s <= m < imaxqsize cfg)%nat /\
                status (item (ique s) m) = QUEITEM_READY) ->
     pending s' < pending s).
Proof.
  intros Hi Hseek Hd. pose proof Hd as (Hc & He & Hq).
  assert (Hlo : (i < length (oque s))%nat)
    by (rewrite (cnt_olen _ _ Hc); exact Hi).
  pose proof (proj1 (Forall_lookup _ _) (cnt_ost _ _ Hc) _ _
                (item_lookup _ _ Hlo)) as Hst.
  cbn beta in Hst.
  destruct Hst as [Hst|Hst].
  - destruct (oque_scan_quiet i (imaxqsize cfg) s Hi Hseek Hd Hst)
      as (s' & E & Hd' & Hp & Hf & Hs & Hlt).
    exists s'. unfold oque_visit, bind, gets. rewrite Hst. cbn.
    split; [exact E|]. split; [exact Hd'|]. split; [lia|].
    split; [exact Hf|]. split; [exact Hs|].
    intros _ Hm. apply Hlt; [lia|exact Hm].
  - pose proof (oque_visit_counted cfg os i Hi s Hc) as Hc'.
    revert Hc'. unfold_sched. cbn. rewrite Hst. cbn.
    rewrite (Hq (clock s)) by lia. cbn.
    rewrite (Hq (S (clock s))) by lia. cbn.
    intros Hc'. eexists. split; [reflexivity|].
    split; [split; [exact Hc'|split; [reflexivity|]]|].
    { eapply quiet_later; [exact Hq|cbn; lia]. }
    unfold pending. cbn.
    split; [lia|]. split; [|split; [auto|discriminate]].
    intros m Hm. rewrite list_lookup_insert_ne by auto. reflexivity.
Qed.

Lemma pass_B_tail n i s :
  (i + n = omaxqsize cfg)%nat -> oseekable cfg = 1 -> draining cfg os s ->
  exists s',
    for_loop n i (oque_visit cfg os) s = Ok tt s' /\ draining cfg os s' /\
    pending s' + busy (drop i (oque s)) <= pending s.
Proof.
  intros Hn Hseek. revert i s Hn.
  induction n as [|n IH]; intros i s Hn Hd.
  - exists s. simpl. split; [reflexivity|]. split; [exact Hd|].
    rewrite drop_ge by (rewrite (cnt_olen _ _ (proj1 Hd)); lia). simpl. lia.
  - destruct (oque_visit_quiet i s ltac:(lia) Hseek Hd)
      as (s1 & E1 & Hd1 & Hp1 & Hf1 & _ & _).
    destruct (IH (S i) s1 ltac:(lia) Hd1) as (s2 & E2 & Hd2 & Hp2).
    exists s2. simpl. unfold bind. rewrite E1.
    split; [exact E2|]. split; [exact Hd2|].
    assert (Hlo : (i < length (oque s))%nat)
      by (rewrite (cnt_olen _ _ (proj1 Hd)); lia).
    rewrite (drop_S _ _ _ (item_lookup _ _ Hlo)). simpl.
    assert (Hdrop : drop (S i) (oque s1) = drop (S i) (oque s)).
    { apply list_eq. intros k. rewrite !lookup_drop. apply Hf1. lia. }
    rewrite Hdrop in Hp2. lia.
Qed.

Lemma busy_positive l :
  0 < busy l -> exists m, (m < length l)%nat /\ status (item l m) <> QUEITEM_FREE.
Proof.
  induction l as [|q r IH]; simpl; [lia|].
  destruct (Z.eqb_spec (status q) QUEITEM_FREE) as [E|E]; intros H.
  - destruct IH as (m & Hm & Hs); [lia|]. exists (S m). split; [lia|exact Hs].
  - exists 0%nat. split; [lia|exact E].
Qed.

Lemma pass_B_quiet s :
  (0 < omaxqsize cfg)%nat -> oseekable cfg = 1 ->
  draining cfg os s -> Forall settled (ique s) ->
  exists s',
    pass_B cfg os s = Ok tt s' /\ draining cfg os s' /\
    pending s' <= pending s /\ (0 < pending s -> pending s' < pending s).
Proof.
  intros Ho Hseek Hd Hs. pose proof Hd as (Hc & He & Hq).
  set (s0 := set_j 0%nat s).
  assert (Hd0 : draining cfg os s0)
    by (split; [apply set_j_counted, Hc|split; [exact He|exact Hq]]).
  unfold pass_B, bind, modify. fold s0.
  pose proof (busy_nonneg (oque s)) as Hbo.
  pose proof (busy_nonneg (ique s)) as Hbi.
  destruct (Z.eq_dec (busy (oque s)) 0) as [Hz|Hnz].
  - (* every output slot is Free *)
    destruct (omaxqsize cfg) as [|n] eqn:En; [lia|]. simpl. unfold bind.
    assert (Hfree0 : status (item (oque s0) 0) = QUEITEM_FREE).
    { apply busy_zero in Hz.
      assert (Hl : (0 < length (oque s))%nat)
        by (rewrite (cnt_olen _ _ Hc); lia).
      exact (proj1 (Forall_lookup _ _) Hz _ _ (item_lookup _ _ Hl)). }
    destruct (oque_visit_quiet 0 s0 ltac:(lia) Hseek Hd0)
      as (s1 & E1 & Hd1 & Hp1 & _ & _ & Hlt1).
    rewrite E1.
    destruct (pass_B_tail n 1 s1 ltac:(lia) Hseek Hd1) as (s2 & E2 & Hd2 & Hp2).
    exists s2. split; [exact E2|]. split; [exact Hd2|].
    pose proof (busy_nonneg (drop 1 (oque s1))).
    rewrite Hfree0 in Hp1. cbn in Hp1.
    change (pending s0) with (pending s) in *.
    split; [lia|]. intros Hpos.
    assert (Hi : 0 < busy (ique s)).
    { unfold pending in Hpos. rewrite (cnt_iq _ _ Hc), (cnt_oq _ _ Hc) in Hpos.
      lia. }
    destruct (busy_positive _ Hi) as (m & Hm & Hsm).
    assert (Hr : status (item (ique s) m) = QUEITEM_READY).
    { pose proof (proj1 (Forall_lookup _ _) (cnt_ist _ _ Hc) _ _
                    (item_lookup _ _ Hm)) as [?|[?|?]]; auto; try contradiction.
      pose proof (proj1 (Forall_lookup _ _) Hs _ _ (item_lookup _ _ Hm)).
      contradiction. }
    assert (pending s1 < pending s0); [|change (pending s0) with (pending s) in *; lia].
    apply Hlt1; [exact Hfree0|]. exists m. split; [|exact Hr].
    rewrite (cnt_ilen _ _ Hc) in Hm. cbn. lia.
  - destruct (pass_B_tail (omaxqsize cfg) 0 s0 ltac:(lia) Hseek Hd0)
      as (s2 & E2 & Hd2 & Hp2).
    exists s2. split; [exact E2|]. split; [exact Hd2|].
    rewrite drop_0 in Hp2. change (oque s0) with (oque s) in Hp2.
    change (pending s0) with (pending s) in Hp2. lia.
Qed.

Lemma pending_nonneg s : counted cfg s -> 0 <= iqsize s /\ 0 <= oqsize s.
Proof.
  intros Hc. rewrite (cnt_iq _ _ Hc), (cnt_oq _ _ Hc).
  split; apply busy_nonneg.
Qed.

Lemma turn_quiet s :
  (0 < omaxqsize cfg)%nat -> oseekable cfg = 1 -> draining cfg os s ->
  exists s',
    turn cfg os s = Ok (drained s') s' /\ draining cfg os s' /\
    pending s' <= pending s /\ (0 < pending s -> pending s' < pending s).
Proof.
  intros Ho Hseek Hd.
  destruct (pass_A_quiet s Hd) as (s1 & E1 & Hd1 & Hp1 & Hs1).
  destruct (pass_B_quiet s1 Ho Hseek Hd1 Hs1) as (s2 & E2 & Hd2 & Hp2 & Hlt2).
  exists s2. unfold turn, bind, gets. rewrite E1, E2.
  split; [reflexivity|]. split; [exact Hd2|]. split; [lia|].
  intros Hpos. destruct (pending_nonneg s1 (proj1 Hd1)).
  destruct (Z.eq_dec (pending s1) 0) as [Hz|Hnz]; [lia|].
  unfold pending in *. lia.
Qed.

Lemma epilogue_quiet s :
  quiet os (clock s) -> exists s', epilogue os s = Exit EXIT_SUCCESS s'.
Proof.
  intros Hq. unfold epilogue, gettimeofday, syscall, note, modify, bind, exit.
  rewrite (Hq (clock s)) by lia. cbn. eauto.
Qed.

Lemma drained_pending s :
  counted cfg s -> eof s = 1 -> (drained s = true <-> pending s = 0).
Proof.
  intros Hc He. destruct (pending_nonneg s Hc).
  unfold drained, pending. rewrite He, !andb_true_iff, !Z.eqb_eq. lia.
Qed.

(** Once the end of the data is known and the operating system is quiet,
    the main loop leaves within [pending + 1] turns and [main] returns
    [EXIT_SUCCESS]. *)
Lemma main_loop_drains m s :
  (0 < omaxqsize cfg)%nat -> oseekable cfg = 1 -> draining cfg os s ->
  pending s <= Z.of_nat m ->
  exists s', main_loop cfg os (S m) s = Exit EXIT_SUCCESS s'.
Proof.
  intros Ho Hseek. revert s.
  induction m as [|m IH]; intros s Hd Hm.
  - destruct (turn_quiet s Ho Hseek Hd) as (s1 & E1 & Hd1 & Hp1 & _).
    destruct Hd1 as (Hc1 & He1 & Hq1).
    destruct (pending_nonneg s1 Hc1).
    rewrite main_loop_S, E1.
    rewrite (proj2 (drained_pending s1 Hc1 He1)) by (unfold pending in *; lia).
    apply epilogue_quiet, Hq1.
  - destruct (turn_quiet s Ho Hseek Hd) as (s1 & E1 & Hd1 & Hp1 & Hlt1).
    pose proof Hd1 as (Hc1 & He1 & Hq1).
    rewrite main_loop_S, E1.
    destruct (drained s1) eqn:Ed.
    + apply epilogue_quiet, Hq1.
    + apply IH; [exact Hd1|].
      destruct (pending_nonneg s1 Hc1).
      assert (pending s1 <> 0).
      { intros Hz. apply (drained_pending s1 Hc1 He1) in Hz. congruence. }
      unfold pending in *. lia.
Qed.

Lemma rest_of_run_drains i s :
  (i < omaxqsize cfg)%nat -> oseekable cfg = 1 -> draining cfg os s ->
  exists n s', rest_of_run cfg os i n s = Exit EXIT_SUCCESS s'.
Proof.
  intros Hi Hseek Hd.
  destruct (pass_B_tail (omaxqsize cfg - S i) (S i) s ltac:(lia) Hseek Hd)
    as (s1 & E1 & Hd1 & _).
  pose proof Hd1 as (Hc1 & He1 & Hq1).
  exists (S (Z.to_nat (pending s1))).
  unfold rest_of_run. unfold bind at 1. rewrite E1.
  unfold bind, gets.
  destruct (drained s1).
  - apply epilogue_quiet, Hq1.
  - apply main_loop_drains; [lia|exact Hseek|exact Hd1|].
    destruct (pending_nonneg s1 Hc1). unfold pending in *. lia.
Qed.

End Draining.

(** The loop over a queue, cut at slot [i]. *)
Lemma for_loop_split body n k i s :
  for_loop (k + S n) i body s =
  (for_loop k i body ;;; body (i + k)%nat ;;;
   for_loop n (S (i + k)) body) s.
Proof.
  revert i s. induction k as [|k IH]; intros i s; simpl.
  - unfold bind, ret. rewrite Nat.add_0_r. reflexivity.
  - unfold bind. destruct (body i s) as [[] s1|]; [|reflexivity].
    specialize (IH (S i) s1). unfold bind in IH. rewrite IH.
    replace (S i + k)%nat with (i + S k)%nat by lia. reflexivity.
Qed.

(** ** Answers that end the process *)

Section Vetting.
Context (cfg : config) (os : nat -> Z).












End Vetting.

(** ** Every turn calls the operating system *)

Section Progress.
Context (cfg : config) (os : nat -> Z).














End Progress.



(** [rest_of_run] is what the name says: a turn of the main loop is the
    input pass, the output pass up to slot [i], the visit of slot [i], and
    the rest. *)
Lemma main_loop_through_visit cfg os i n s :
  (i < omaxqsize cfg)%nat ->
  main_loop cfg os (S n) s =
  (pass_A cfg os ;;; modify (set_j 0%nat) ;;;
   for_loop i 0%nat (oque_visit cfg os) ;;;
   oque_visit cfg os i ;;; rest_of_run cfg os i n) s.
Proof.
  intros Hi. simpl. unfold turn, pass_B, rest_of_run.
  unfold bind, modify, gets.
  destruct (pass_A cfg os s) as [[] s1|]; [|reflexivity].
  cbv beta iota.
  pose proof (for_loop_split (oque_visit cfg os) (omaxqsize cfg - S i) i
                0%nat (set_j 0%nat s1)) as Hs.
  replace (i + S (omaxqsize cfg - S i))%nat with (omaxqsize cfg) in Hs by lia.
  rewrite Hs. unfold bind.
  destruct (for_loop i 0%nat (oque_visit cfg os) (set_j 0%nat s1))
    as [[] s2|]; [|reflexivity].
  simpl.
  destruct (oque_visit cfg os i s2) as [[] s3|]; [|reflexivity].
  destruct (for_loop (omaxqsize cfg - S i) (S i) (oque_visit cfg os) s3)
    as [[] s4|]; reflexivity.
Qed.

(** * The properties on the example runs *)

Lemma script_past l d k : (length l <= k)%nat -> script l d k = d.
Proof. intros H. unfold script. rewrite lookup_ge_None_2 by exact H. reflexivity. Qed.

(** C2 as stated fails: the second write of the run of [os_two_blocks], on
    a non-seekable output, carries offset 512. *)
Lemma nonseekable_output_offset_not_zero :
  oseekable cfg_pipe = 0 /\
  ~ zero_offsets
      (writes (trace (final_state (run cfg_pipe os_two_blocks 0 1 6)))).
Proof.
  split; [reflexivity|]. intros H.
  apply Forall_lookup with (i := 1%nat)
    (x := Write 2 2 (Aiocb 1 0 8192 512 512)) in H.
  - vm_compute in H. discriminate H.
  - vm_compute. reflexivity.
Qed.

(** C2 as the code has it, on the same run. *)
Lemma nonseekable_output_write_offsets_witness :
  w_offset (Write 2 2 (Aiocb 1 0 8192 512 512)) = 512.
Proof.
  destruct (nonseekable_output_write_offsets
              cfg_pipe os_two_blocks 0 1 6 eq_refl 1%nat
              (Write 2 2 (Aiocb 1 0 8192 512 512))) as [H _].
  - vm_compute. reflexivity.
  - rewrite H. vm_compute. reflexivity.
Defined.

(** The configurations of the example runs are configurations of [main]:
    [cfg_pipe] for the command line [opts_pipe]; [cfg_to_file] for
    [opts_to_file] when "out" is a regular file; [cfg_files] for
    [opts_files] when "in" is a regular file and "out" does not exist
    yet. *)
Lemma cfg_pipe_from_main fs garbage os n :
  main opts_pipe fs garbage os n = run cfg_pipe os 0 1 n.
Proof. reflexivity. Qed.

Lemma cfg_to_file_from_main garbage os n :
  main opts_to_file fs_regular_out garbage os n
  = run cfg_to_file os 0 (-1) n.
Proof. reflexivity. Qed.

Lemma cfg_files_from_main os n :
  main opts_files fs_regular_in 0 os n = run cfg_files os (-1) (-1) n.
Proof. reflexivity. Qed.

(** C3 as stated fails: in the run of [main] on [opts_files] with the
    answers of [os_second_first], on a seekable output, the first write
    carries offset 512 and the second offset 0. *)
Lemma seekable_output_offsets_not_increasing :
  main opts_files fs_regular_in 0 os_second_first 4
  = run cfg_files os_second_first (-1) (-1) 4 /\
  oseekable cfg_files = 1 /\
  ~ spaced_by_filled
      (writes (trace (final_state
                        (main opts_files fs_regular_in 0 os_second_first 4)))).
Proof.
  split; [reflexivity|]. split; [reflexivity|]. intros H.
  destruct (H 0%nat (Write 1 2 (Aiocb 5 0 8192 512 512))
              (Write 2 1 (Aiocb 6 0 4096 0 512))) as [_ Hlt].
  - vm_compute. reflexivity.
  - vm_compute. reflexivity.
  - vm_compute in Hlt. discriminate Hlt.
Qed.

(** C3 as the code has it, on the run of [os_to_file]. *)
Lemma seekable_output_write_offsets_witness :
  spaced_by_filled
    (writes (trace (final_state (run cfg_to_file os_to_file 0 (-1) 6)))).
Proof.
  apply (proj1 (seekable_output_write_offsets
                  cfg_to_file os_to_file 0 (-1) 6 eq_refl)).
  - reflexivity.
  - vm_compute. discriminate.
  - vm_compute. reflexivity.
Defined.

(** C4 on the run of [os_short]. *)
Lemma short_read_is_resubmitted_witness :
  exists s' q',
    ique_visit cfg_pipe os_short 0 s_short = Ok tt s' /\
    ique s' !! 0%nat = Some q' /\
    status q' = QUEITEM_INPROGRESS /\ readyb q' = 100 /\
    trace s' = trace s_short ++ [EvRead 1 (Aiocb 0 0 4196 0 412)].
Proof.
  destruct (short_read_is_resubmitted cfg_pipe os_short s_short 0
              (item (ique s_short) 0) 100)
    as (s' & q' & cb & E & Hq & Hs & Hr & _ & _ & _ & _ & Ht &
        Hfd & Hprio & Hbuf & _ & Hn & Hoff & _).
  - vm_compute. reflexivity.
  - vm_compute. reflexivity.
  - vm_compute. reflexivity.
  - vm_compute. reflexivity.
  - vm_compute. discriminate.
  - vm_compute. reflexivity.
  - vm_compute. split; reflexivity.
  - exists s', q'.
    assert (E' : ique_visit cfg_pipe os_short 0 s_short = Ok tt s').
    { rewrite E. vm_compute. reflexivity. }
    split; [exact E'|]. split; [exact Hq|].
    split; [exact Hs|]. split; [rewrite Hr; vm_compute; reflexivity|].
    rewrite Ht. destruct cb as [a b c d e].
    cbn in Hfd, Hprio, Hbuf, Hn, Hoff.
    rewrite Hr in Hbuf, Hn. subst. vm_compute. reflexivity.
Defined.

(** C5 on the run of [os_two_blocks]: the third read finds the end with
    nothing in its buffer. *)
Lemma read_eof_latches_witness :
  exists s' q',
    ique_visit cfg_pipe os_two_blocks 0 s_eof = Ok tt s' /\
    eof s' = 1 /\ ique s' !! 0%nat = Some q' /\
    status q' = QUEITEM_FREE /\ buffer q' = NULL /\
    trace s' = trace s_eof ++ [EvFree 12288].
Proof.
  destruct (read_eof_latches cfg_pipe os_two_blocks s_eof 0
              (item (ique s_eof) 0))
    as (s' & q' & E & He & Hq & _ & H0).
  - vm_compute. reflexivity.
  - vm_compute. reflexivity.
  - vm_compute. reflexivity.
  - vm_compute. reflexivity.
  - destruct H0 as (Hs & Hb & Ht & _); [vm_compute; reflexivity|].
    exists s', q'. repeat (split; [assumption|]).
    rewrite Ht. vm_compute. reflexivity.
Defined.

Lemma s_full_counted : counted cfg_to_file s_full.
Proof.
  constructor; try (vm_compute; reflexivity).
  - vm_compute. constructor; [right; right; reflexivity|constructor].
  - vm_compute. constructor; [right; reflexivity|constructor].
Defined.



(** C7 on the run of [os_two_blocks]: the test of turn 6 succeeds and the
    run ends there with [EXIT_SUCCESS], also when it is given 10 turns. *)
Lemma exit_test_counts_busy_slots_witness :
  let s := final_state (run_to_test cfg_pipe os_two_blocks 0 1 5) in
  iqsize s = 0 /\ oqsize s = 0 /\
  Forall is_free (ique s) /\ Forall is_free (oque s) /\ eof s = 1 /\
  exists s',
    run cfg_pipe os_two_blocks 0 1 10 = Exit EXIT_SUCCESS s' /\
    epilogue os_two_blocks s = Exit EXIT_SUCCESS s'.
Proof.
  intros s.
  destruct (exit_test_counts_busy_slots cfg_pipe os_two_blocks 0 1 5 true s)
    as (Hi & Ho & Hb & Hrun & s' & He).
  - vm_compute. reflexivity.
  - destruct (proj1 Hb eq_refl) as (Hfi & Hfo & Heof).
    split; [vm_compute; reflexivity|]. split; [vm_compute; reflexivity|].
    split; [exact Hfi|]. split; [exact Hfo|]. split; [exact Heof|].
    assert (Hc : (os_two_blocks (clock s) =? -1) = false)
      by (vm_compute; reflexivity).
    rewrite Hc in He.
    exists s'. split; [|exact He].
    rewrite <- He. exact (Hrun 4%nat).
Defined.

(** C9 as stated fails: after the match in state [s_ready] the output slot
    holds buffer 4096 and the [buffer] field of the input slot, now Free,
    is still 4096. *)
Lemma handoff_leaves_donor_pointer :
  ~ handoff_nulls_donor cfg_pipe os_two_blocks s_ready 0 0.
Proof.
  intros H.
  destruct (H (final_state (match_ready cfg_pipe os_two_blocks 0 0 s_ready)))
    as [_ Hnull].
  - vm_compute. reflexivity.
  - vm_compute. reflexivity.
  - vm_compute in Hnull. discriminate Hnull.
Qed.

(** C9 as the code has it, on the same state. *)
Lemma handoff_moves_buffer_witness :
  exists s' qj' qo',
    oque_scan cfg_pipe os_two_blocks 1 0 s_ready = Ok tt s' /\
    ique s' !! 0%nat = Some qj' /\ oque s' !! 0%nat = Some qo' /\
    buffer qo' = 4096 /\ status qj' = QUEITEM_FREE /\
    aio_buf (aiodata qj') = NULL /\ buffer qj' = 4096.
Proof.
  assert (Hj : j s_ready = 0%nat) by (vm_compute; reflexivity).
  destruct (handoff_moves_buffer cfg_pipe os_two_blocks 0 s_ready 0
              (item (ique s_ready) 0) (item (oque s_ready) 0))
    as (s' & qj' & qo' & E & Hi & Ho & Hb & _ & _ & Hs & Ha & Hk & _).
  - vm_compute. lia.
  - vm_compute. reflexivity.
  - vm_compute. reflexivity.
  - vm_compute. reflexivity.
  - vm_compute. reflexivity.
  - vm_compute. reflexivity.
  - vm_compute. discriminate.
  - rewrite Hj in Hi. exists s', qj', qo'.
    split; [exact E|]. split; [exact Hi|]. split; [exact Ho|].
    split; [rewrite Hb; vm_compute; reflexivity|].
    split; [exact Hs|]. split; [exact Ha|].
    rewrite Hk. vm_compute. reflexivity.
Defined.

(** * Further properties of the code *)

(** ** Buffers (lines 679, 693, 811, 844) *)

Lemma count_snoc f tr e :
  count f (tr ++ [e]) = count f tr + (if f e then 1 else 0).
Proof. induction tr as [|x r IH]; simpl; [lia|]. rewrite IH. lia. Qed.

Lemma count_nonneg f tr : 0 <= count f tr.
Proof. induction tr as [|x r IH]; simpl; [lia|]. destruct (f x); lia. Qed.

Lemma busy_le_length l : busy l <= Z.of_nat (length l).
Proof.
  induction l as [|q r IH]; simpl; [lia|].
  destruct (status q =? QUEITEM_FREE); lia.
Qed.

Section Balance.
Context (cfg : config) (os : nat -> Z).

Ltac balance :=
  unfold balanced in *; cbn in *; rewrite ?count_snoc; cbn; zify_tests; lia.

Lemma ique_visit_balanced i :
  preserves balanced (fun _ => True) (ique_visit cfg os i).
Proof.
  intros s H. unfold_sched. cbn.
  repeat step; cbn; auto; balance.
Qed.

Lemma oque_scan_balanced i fuel :
  preserves balanced (fun _ => True) (oque_scan cfg os fuel i).
Proof.
  induction fuel as [|fuel IH]; intros s H; [exact H|].
  simpl. unfold_sched. cbn.
  destruct (Nat.ltb_spec (j s) (imaxqsize cfg)); [|exact H].
  repeat step; cbn; auto; try (apply IH); balance.
Qed.

Lemma oque_visit_balanced i :
  preserves balanced (fun _ => True) (oque_visit cfg os i).
Proof.
  intros s H.
  destruct (Z.eqb_spec (status (item (oque s) i)) QUEITEM_INPROGRESS) as [E|E].
  2:{ unfold oque_visit, bind, gets. cbn.
      rewrite (proj2 (Z.eqb_neq _ _) E). apply oque_scan_balanced, H. }
  unfold_sched. cbn. rewrite (proj2 (Z.eqb_eq _ _) E).
  repeat step; cbn; auto; balance.
Qed.

Lemma turn_balanced : preserves balanced (fun _ => True) (turn cfg os).
Proof.
  unfold turn, pass_A, pass_B.
  apply preserves_bind;
    [apply preserves_for_loop, ique_visit_balanced | intros _].
  apply preserves_bind; [|intros _; apply preserves_gets].
  apply preserves_bind; [intros s H; exact H | intros _].
  apply preserves_for_loop, oque_visit_balanced.
Qed.

Lemma main_loop_balanced n :
  preserves balanced (fun _ => True) (main_loop cfg os n).
Proof.
  induction n as [|n IH]; simpl.
  - apply preserves_ret.
  - apply preserves_bind; [apply turn_balanced | intros [|]; [|apply IH]].
    intros s _. destruct (epilogue_exits os s) as (c & s' & ->). exact I.
Qed.

Lemma run_to_test_balanced ifd ofd n b s :
  run_to_test cfg os ifd ofd n = Ok b s -> balanced s.
Proof.
  unfold run_to_test. unfold bind at 1.
  pose proof (setup_state cfg os ifd ofd) as H0.
  destruct (setup cfg os ifd ofd start_state) as [[] s0|]; [|discriminate].
  assert (Hb : balanced s0).
  { destruct H0 as (qi & qo & c & -> & _). reflexivity. }
  unfold bind at 1.
  pose proof (main_loop_balanced n s0 Hb) as H1.
  destruct (main_loop cfg os n s0) as [[] s1|]; [|discriminate].
  pose proof (turn_balanced s1 H1) as H2.
  intros E. rewrite E in H2. exact H2.
Qed.

End Balance.

(** X1.  At the test of line 904 of every turn, the requests outstanding
    on each side are never more than the depth of that side's queue. *)
Theorem queue_depth_is_respected cfg os ifd ofd n b s :
  run_to_test cfg os ifd ofd n = Ok b s ->
  0 <= iqsize s <= Z.of_nat (imaxqsize cfg) /\
  0 <= oqsize s <= Z.of_nat (omaxqsize cfg).
Proof.
  intros Hrun.
  destruct (run_to_test_counted cfg os ifd ofd n b s Hrun)
    as [Li Lo _ _ Hi Ho].
  pose proof (busy_nonneg (ique s)). pose proof (busy_nonneg (oque s)).
  pose proof (busy_le_length (ique s)). pose proof (busy_le_length (oque s)).
  rewrite Hi, Ho, <- Li, <- Lo. lia.
Qed.

(** X2.  At the test of line 904 of every turn, the buffers that
    [posix_memalign] has handed out and [free] has not taken back are as
    many as the two counters say together, so never more than the two
    queues have slots. *)
Theorem live_buffers_are_bounded cfg os ifd ofd n b s :
  run_to_test cfg os ifd ofd n = Ok b s ->
  count is_alloc (trace s) - count is_release (trace s)
    = iqsize s + oqsize s /\
  count is_alloc (trace s) - count is_release (trace s)
    <= Z.of_nat (imaxqsize cfg) + Z.of_nat (omaxqsize cfg).
Proof.
  intros Hrun.
  pose proof (run_to_test_balanced cfg os ifd ofd n b s Hrun) as Hb.
  destruct (run_to_test_counted cfg os ifd ofd n b s Hrun)
    as [Li Lo _ _ Hi Ho].
  pose proof (busy_le_length (ique s)). pose proof (busy_le_length (oque s)).
  unfold balanced in Hb. split; [lia|]. rewrite Hb, Hi, Ho, <- Li, <- Lo. lia.
Qed.

(** ** Who holds a buffer *)

Lemma holds_nonneg p l : 0 <= holds p l.
Proof.
  induction l as [|q r IH]; simpl; [lia|].
  destruct (status q =? QUEITEM_FREE), (buffer q =? p); lia.
Qed.

Lemma holds_insert p l i q q' :
  l !! i = Some q ->
  holds p (<[i:=q']> l) =
  holds p l
  - (if status q =? QUEITEM_FREE then 0 else if buffer q =? p then 1 else 0)
  + (if status q' =? QUEITEM_FREE then 0 else if buffer q' =? p then 1 else 0).
Proof.
  revert i. induction l as [|a r IH]; intros [|i] H; simpl in *; try discriminate.
  - injection H as ->. lia.
  - rewrite (IH _ H). lia.
Qed.

Lemma holds_lookup l i q :
  l !! i = Some q -> status q <> QUEITEM_FREE -> 1 <= holds (buffer q) l.
Proof.
  revert i. induction l as [|a r IH]; intros [|i] H Hs; simpl in *; try discriminate.
  - injection H as ->. pose proof (holds_nonneg (buffer q) r).
    destruct (Z.eqb_spec (status q) QUEITEM_FREE); [contradiction|].
    rewrite Z.eqb_refl. lia.
  - specialize (IH _ H Hs).
    destruct (status a =? QUEITEM_FREE), (buffer a =? buffer q); lia.
Qed.

Lemma holds_free p l : Forall is_free l -> holds p l = 0.
Proof.
  induction 1 as [|q r Hq _ IH]; simpl; [reflexivity|].
  unfold is_free in Hq. rewrite Hq, IH. reflexivity.
Qed.

Lemma each_free_nil P : each_free P [].
Proof. intros [|? ?] ? ? H; discriminate H. Qed.

Lemma each_free_snoc P tr e :
  each_free P tr ->
  (forall p, e = EvFree p -> P tr p) ->
  each_free P (tr ++ [e]).
Proof.
  intros Htr He pre p post H.
  apply snoc_eq_app_cons in H as [(_ & -> & E)|(post' & _ & E)].
  - apply He. symmetry. exact E.
  - eapply Htr. exact E.
Qed.

Section Ownership.
Context (cfg : config) (os : nat -> Z).

Ltac owned_goal Ho :=
  let p := fresh "p" in
  intros p; specialize (Ho p); cbn in *;
  rewrite ?count_snoc; erewrite ?holds_insert by eassumption; cbn;
  zify_tests;
  repeat match goal with
  | |- context [?a =? ?b] => destruct (Z.eqb_spec a b)
  end;
  unfold QUEITEM_FREE, QUEITEM_READY, QUEITEM_INPROGRESS in *; try lia.

Ltac free_goal Ho Hq s :=
  match goal with
  | |- each_free _ (_ ++ [EvFree ?b]) =>
    apply each_free_snoc;
    [ free_goal Ho Hq s
    | let Hb := fresh "Hb" in let Hl := fresh "Hl" in
      intros ? [= <-]; unfold live;
      pose proof (Ho b) as Hb;
      pose proof (holds_nonneg b (ique s));
      pose proof (holds_nonneg b (oque s));
      pose proof (holds_lookup _ _ _ Hq) as Hl;
      zify_tests;
      unfold QUEITEM_FREE, QUEITEM_READY, QUEITEM_INPROGRESS in *; lia ]
  | |- each_free _ (_ ++ [_]) =>
    apply each_free_snoc; [free_goal Ho Hq s | intros ? ?; discriminate]
  | |- each_free _ _ => assumption
  end.

Lemma ique_visit_kept i :
  (i < imaxqsize cfg)%nat ->
  preserves (buffers_kept cfg) (fun s => each_free live (trace s))
    (ique_visit cfg os i).
Proof.
  intros Hi s (Hc & Ho & Hf).
  pose proof (ique_visit_counted cfg os i Hi s Hc) as Hc'.
  destruct Hc as [H1 H2 H3 H4 H5 H6].
  assert (Hq : ique s !! i = Some (item (ique s) i)) by (apply item_lookup; lia).
  pose proof (proj1 (Forall_lookup _ _) H3 _ _ Hq) as Hst. cbn beta in Hst.
  revert Hc'. unfold buffers_kept. unfold_sched. cbn.
  repeat step; cbn; intros Hc'; auto.
  all: try (split; [exact Hc'|split]).
  all: try (owned_goal Ho).
  all: free_goal Ho Hq s.
Qed.

Lemma set_j_kept k s : buffers_kept cfg s -> buffers_kept cfg (set_j k s).
Proof.
  intros (Hc & Ho & Hf). split; [apply set_j_counted, Hc|]. split; assumption.
Qed.

Lemma oque_scan_kept i fuel :
  (i < omaxqsize cfg)%nat ->
  forall s, buffers_kept cfg s ->
  status (item (oque s) i) <> QUEITEM_INPROGRESS ->
  match oque_scan cfg os fuel i s with
  | Ok _ s' => buffers_kept cfg s'
  | Exit _ s' => each_free live (trace s')
  end.
Proof.
  intros Hi. induction fuel as [|fuel IH]; intros s Hk Hfree; [exact Hk|].
  pose proof Hk as (Hc & Ho & Hf).
  pose proof (oque_scan_counted cfg os i (S fuel) Hi s Hc Hfree) as Hc'.
  destruct Hc as [H1 H2 H3 H4 H5 H6].
  assert (Hqo : oque s !! i = Some (item (oque s) i)) by (apply item_lookup; lia).
  pose proof (proj1 (Forall_lookup _ _) H4 _ _ Hqo) as Host. cbn beta in Host.
  revert Hc'. simpl. unfold_sched. cbn.
  destruct (Nat.ltb_spec (j s) (imaxqsize cfg)) as [Hj|Hj]; [|intros _; exact Hk].
  assert (Hq : ique s !! j s = Some (item (ique s) (j s)))
    by (apply item_lookup; lia).
  pose proof (proj1 (Forall_lookup _ _) H3 _ _ Hq) as Hst. cbn beta in Hst.
  repeat step; cbn; intros Hc'; auto.
  all: try (match goal with
            | H : (status (item _ ?k) =? QUEITEM_INPROGRESS) = false |- _ =>
              cbn in H; rewrite item_insert_eq in H by lia; discriminate H
            end).
  all: try (apply IH; [apply set_j_kept, Hk | zify_tests; assumption]).
  all: try (split; [exact Hc'|split]).
  all: try (owned_goal Ho).
  all: cbn; free_goal Ho Hq s.
Qed.

Lemma oque_visit_kept i :
  (i < omaxqsize cfg)%nat ->
  preserves (buffers_kept cfg) (fun s => each_free live (trace s))
    (oque_visit cfg os i).
Proof.
  intros Hi s Hk.
  destruct (Z.eqb_spec (status (item (oque s) i)) QUEITEM_INPROGRESS) as [E|E].
  2:{ unfold oque_visit, bind, gets. cbn.
      rewrite (proj2 (Z.eqb_neq _ _) E).
      apply oque_scan_kept; assumption. }
  pose proof Hk as (Hc & Ho & Hf).
  pose proof (oque_visit_counted cfg os i Hi s Hc) as Hc'.
  destruct Hc as [H1 H2 H3 H4 H5 H6].
  assert (Hq : oque s !! i = Some (item (oque s) i)) by (apply item_lookup; lia).
  revert Hc'. unfold buffers_kept. unfold_sched. cbn.
  rewrite (proj2 (Z.eqb_eq _ _) E).
  repeat step; cbn; intros Hc'; auto.
  all: try (split; [exact Hc'|split]).
  all: try (owned_goal Ho).
  all: free_goal Ho Hq s.
Qed.

Lemma turn_kept :
  preserves (buffers_kept cfg) (fun s => each_free live (trace s))
    (turn cfg os).
Proof.
  unfold turn, pass_A, pass_B.
  apply preserves_bind.
  { apply preserves_for_loop_below with (bound := imaxqsize cfg); [|lia].
    apply ique_visit_kept. }
  intros _. apply preserves_bind; [|intros _; apply preserves_gets].
  apply preserves_bind; [intros s H; apply set_j_kept, H | intros _].
  apply preserves_for_loop_below with (bound := omaxqsize cfg); [|lia].
  apply oque_visit_kept.
Qed.

Lemma main_loop_kept n :
  preserves (buffers_kept cfg) (fun s => each_free live (trace s))
    (main_loop cfg os n).
Proof.
  induction n as [|n IH]; simpl.
  - apply preserves_ret.
  - apply preserves_bind; [apply turn_kept | intros [|]; [|apply IH]].
    intros s (_ & _ & H). unfold epilogue, gettimeofday, syscall, note, modify, bind, exit.
    destruct (os (clock s) =? -1); exact H.
Qed.

Lemma setup_kept ifd ofd :
  match setup cfg os ifd ofd start_state with
  | Ok _ s => buffers_kept cfg s
  | Exit _ s => each_free live (trace s)
  end.
Proof.
  pose proof (setup_state cfg os ifd ofd) as H.
  pose proof (setup_counted cfg os ifd ofd) as Hc.
  destruct (setup cfg os ifd ofd start_state) as [[] s|].
  - destruct H as (qi & qo & c & -> & Li & Fi & Lo & Fo).
    split; [exact Hc|]. split; [|apply each_free_nil].
    intros p. cbn. rewrite (holds_free p qi Fi), (holds_free p qo Fo).
    reflexivity.
  - rewrite H. apply each_free_nil.
Qed.

Lemma run_kept ifd ofd n :
  each_free live (trace (final_state (run cfg os ifd ofd n))).
Proof.
  unfold run. unfold bind at 1.
  pose proof (setup_kept ifd ofd) as H0.
  destruct (setup cfg os ifd ofd start_state) as [[] s0|]; [|exact H0].
  pose proof (main_loop_kept n s0 H0) as H1.
  destruct (main_loop cfg os n s0) as [[] s1|]; [apply H1 | exact H1].
Qed.

End Ownership.

(** X3.  In every run, whether it is still going, has returned or was
    ended by an error, each call of [free] is given a pointer that
    [posix_memalign] has handed out more often than [free] has taken it
    before: no pointer is released that is not allocated, none twice. *)
Theorem free_takes_an_allocated_buffer cfg os ifd ofd n pre p post :
  trace (final_state (run cfg os ifd ofd n)) = pre ++ EvFree p :: post ->
  count (is_release_of p) pre < count (is_alloc_of p) pre.
Proof. intros H. exact (run_kept cfg os ifd ofd n pre p post H). Qed.

(** ** How the process ends *)

Lemma fails_ret {A} (a : A) : fails (ret a).
Proof. intros s c s' H. discriminate H. Qed.

Lemma fails_bind {A B} (m : M A) (k : A -> M B) :
  fails m -> (forall a, fails (k a)) -> fails (bind m k).
Proof.
  intros Hm Hk s c s'. unfold bind.
  destruct (m s) as [a s1|c1 s1] eqn:E.
  - apply Hk.
  - intros [= <- <-]. exact (Hm _ _ _ E).
Qed.

Lemma fails_for_loop body n :
  (forall i, fails (body i)) -> forall i, fails (for_loop n i body).
Proof.
  intros Hb. induction n as [|n IH]; intros i; simpl.
  - apply fails_ret.
  - apply fails_bind; [apply Hb | intros _; apply IH].
Qed.

Section Ends.
Context (cfg : config) (os : nat -> Z).

Ltac exit_code :=
  let H := fresh in
  intros H; first [discriminate H | injection H as <- <-; reflexivity].

Lemma ique_visit_fails i : fails (ique_visit cfg os i).
Proof.
  intros s c s'. unfold_sched. cbn.
  repeat step; exit_code.
Qed.

Lemma oque_scan_fails i fuel : fails (oque_scan cfg os fuel i).
Proof.
  induction fuel as [|fuel IH]; intros s c s'; [discriminate|].
  simpl. unfold_sched. cbn.
  destruct (Nat.ltb_spec (j s) (imaxqsize cfg)); [|discriminate].
  repeat step; try exit_code; apply IH.
Qed.

Lemma oque_visit_fails i : fails (oque_visit cfg os i).
Proof.
  intros s c s'.
  destruct (Z.eqb_spec (status (item (oque s) i)) QUEITEM_INPROGRESS) as [E|E].
  2:{ unfold oque_visit, bind, gets. cbn.
      rewrite (proj2 (Z.eqb_neq _ _) E). apply oque_scan_fails. }
  unfold_sched. cbn. rewrite (proj2 (Z.eqb_eq _ _) E).
  repeat step; exit_code.
Qed.

Lemma turn_fails : fails (turn cfg os).
Proof.
  unfold turn, pass_A, pass_B.
  apply fails_bind; [apply fails_for_loop, ique_visit_fails | intros _].
  apply fails_bind; [|intros _ s c s' H; discriminate H].
  apply fails_bind; [intros s c s' H; discriminate H | intros _].
  apply fails_for_loop, oque_visit_fails.
Qed.

Lemma init_que_fails k seekable tmpfd : fails (init_que os k seekable tmpfd).
Proof.
  induction k as [|k IH]; simpl; [apply fails_ret|].
  unfold malloc, open. apply fails_bind.
  { intros s c s' H. discriminate H. }
  intros p. step; [intros s c s'; exit_code|].
  apply fails_bind.
  { step; [apply fails_ret|]. apply fails_bind.
    - intros s c s' H. discriminate H.
    - intros d. step; [intros s c s'; exit_code | apply fails_ret]. }
  intros d. apply fails_bind; [apply IH | intros; apply fails_ret].
Qed.

Lemma setup_fails ifd ofd : fails (setup cfg os ifd ofd).
Proof.
  unfold setup, malloc, sigemptyset, sigaction, gettimeofday.
  repeat first
    [ apply fails_ret
    | apply init_que_fails
    | apply fails_bind; [|intros ?]
    | step
    | (intros s c s'; exit_code) ].
Qed.

Lemma turn_returns_test s b s' : turn cfg os s = Ok b s' -> b = drained s'.
Proof.
  unfold turn, bind, gets.
  destruct (pass_A cfg os s) as [[] s1|]; [|discriminate].
  destruct (pass_B cfg os s1) as [[] s2|]; [|discriminate].
  intros [= <- <-]. reflexivity.
Qed.

(** The main loop ends with [EXIT_SUCCESS] only through its [break]. *)
Lemma main_loop_success (I : state -> Prop) n :
  preserves I (fun _ => True) (turn cfg os) ->
  forall s s', I s -> main_loop cfg os n s = Exit EXIT_SUCCESS s' ->
  exists s1 r,
    I s1 /\ drained s1 = true /\
    s' = set_replies (replies s1 ++ [Timed r]) (set_clock (S (clock s1)) s1).
Proof.
  intros Ht. induction n as [|n IH]; intros s s' Hs; [discriminate|].
  rewrite main_loop_S. specialize (Ht s Hs).
  destruct (turn cfg os s) as [[|] s1|c s1] eqn:E.
  - apply turn_returns_test in E.
    unfold epilogue, gettimeofday, syscall, note, modify, bind, exit.
    destruct (os (clock s1) =? -1); [discriminate|].
    intros [= <-]. exists s1, (os (clock s1)). auto.
  - apply IH, Ht.
  - intros [= -> <-]. apply turn_fails in E. discriminate E.
Qed.

End Ends.

Lemma run_success cfg os ifd ofd n s :
  run cfg os ifd ofd n = Exit EXIT_SUCCESS s ->
  exists s1 r,
    buffers_kept cfg s1 /\ drained s1 = true /\
    s = set_replies (replies s1 ++ [Timed r]) (set_clock (S (clock s1)) s1).
Proof.
  unfold run. unfold bind at 1.
  pose proof (setup_kept cfg os ifd ofd) as H0.
  destruct (setup cfg os ifd ofd start_state) as [[] s0|c s0] eqn:E.
  - apply main_loop_success; [|exact H0].
    intros s1 H1. pose proof (turn_kept cfg os s1 H1) as H2.
    destruct (turn cfg os s1); [exact H2 | exact I].
  - intros [= -> <-]. apply setup_fails in E. discriminate E.
Qed.

(** X4.  [main] returns [EXIT_SUCCESS] only through the [break] of line
    904: the end of the data was seen, every slot of both queues is Free,
    and every pointer was released as often as it was allocated. *)
Theorem success_leaves_nothing_behind cfg os ifd ofd n s :
  run cfg os ifd ofd n = Exit EXIT_SUCCESS s ->
  eof s = 1 /\ Forall is_free (ique s) /\ Forall is_free (oque s) /\
  forall p, count (is_alloc_of p) (trace s) = count (is_release_of p) (trace s).
Proof.
  intros H. destruct (run_success _ _ _ _ _ _ H) as (s1 & r & Hk & Hd & ->).
  destruct Hk as (Hc & Ho & _). cbn.
  unfold drained in Hd. rewrite !andb_true_iff, !Z.eqb_eq in Hd.
  destruct Hd as ((Hi & Hq) & He).
  rewrite (cnt_iq _ _ Hc), busy_zero in Hi.
  rewrite (cnt_oq _ _ Hc), busy_zero in Hq.
  repeat (split; [assumption|]).
  intros p. rewrite (Ho p), (holds_free p _ Hi), (holds_free p _ Hq). lia.
Qed.

(** ** No read is written twice (lines 705, 838-877) *)

Lemma sources_snoc_other tr e :
  (forall rq src cb, e <> EvWrite rq src cb) -> sources (tr ++ [e]) = sources tr.
Proof.
  intros H. unfold sources. rewrite writes_app.
  destruct e; simpl; rewrite ?app_nil_r; try reflexivity.
  destruct (H _ _ _ eq_refl).
Qed.

Lemma sources_snoc_write tr rq src cb :
  sources (tr ++ [EvWrite rq src cb]) = sources tr ++ [src].
Proof. unfold sources. rewrite writes_app, map_app. reflexivity. Qed.

Lemma fresh_insert_same l n srcs i q' :
  fresh_slots l n srcs ->
  rqnum q' = rqnum (item l i) ->
  (status q' <> QUEITEM_FREE -> status (item l i) <> QUEITEM_FREE) ->
  fresh_slots (<[i:=q']> l) n srcs.
Proof.
  intros [H1 H2] Hr Hs. split.
  - intros k q Hk Hq.
    apply list_lookup_insert_Some in Hk as [(-> & -> & Hl)|(Hne & Hk)].
    + rewrite Hr. apply (H1 k); [apply item_lookup, Hl | apply Hs, Hq].
    + apply (H1 k); assumption.
  - intros k k' q q0 Hk Hk' Hq Hq0 E.
    apply list_lookup_insert_Some in Hk as [(-> & -> & Hl)|(Hne & Hk)];
    apply list_lookup_insert_Some in Hk' as [(<- & -> & Hl')|(Hne' & Hk')].
    + reflexivity.
    + apply (H2 _ _ _ _ (item_lookup _ _ Hl) Hk'); auto. congruence.
    + apply (H2 _ _ _ _ Hk (item_lookup _ _ Hl')); auto. congruence.
    + apply (H2 _ _ _ _ Hk Hk'); auto.
Qed.

Lemma fresh_insert_free l n srcs i q' :
  fresh_slots l n srcs -> status q' = QUEITEM_FREE ->
  fresh_slots (<[i:=q']> l) n srcs.
Proof.
  intros [H1 H2] Hs. split.
  - intros k q Hk Hq.
    apply list_lookup_insert_Some in Hk as [(-> & -> & Hl)|(Hne & Hk)];
      [contradiction|].
    apply (H1 k); assumption.
  - intros k k' q q0 Hk Hk' Hq Hq0 E.
    apply list_lookup_insert_Some in Hk as [(-> & -> & Hl)|(Hne & Hk)];
      [contradiction|].
    apply list_lookup_insert_Some in Hk' as [(-> & -> & Hl')|(Hne' & Hk')];
      [contradiction|].
    apply (H2 _ _ _ _ Hk Hk'); auto.
Qed.

Lemma fresh_insert_new l n srcs i q' :
  fresh_slots l n srcs -> 0 <= n ->
  Forall (fun r => 1 <= r <= n) srcs ->
  rqnum q' = n + 1 ->
  fresh_slots (<[i:=q']> l) (n + 1) srcs.
Proof.
  intros [H1 H2] Hn Hb Hr. split.
  - intros k q Hk Hq.
    apply list_lookup_insert_Some in Hk as [(-> & -> & Hl)|(Hne & Hk)].
    + split; [lia|]. intros Hin. apply list_elem_of_In in Hin.
      pose proof (proj1 (Forall_forall _ _) Hb _ Hin). cbn in *. lia.
    + destruct (H1 k q Hk Hq). split; [lia|assumption].
  - intros k k' q q0 Hk Hk' Hq Hq0 E.
    apply list_lookup_insert_Some in Hk as [(-> & -> & Hl)|(Hne & Hk)];
    apply list_lookup_insert_Some in Hk' as [(<- & -> & Hl')|(Hne' & Hk')].
    + reflexivity.
    + destruct (H1 _ _ Hk' Hq0). lia.
    + destruct (H1 _ _ Hk Hq). lia.
    + apply (H2 _ _ _ _ Hk Hk'); auto.
Qed.

Lemma fresh_written l n srcs jj q' :
  fresh_slots l n srcs ->
  status (item l jj) <> QUEITEM_FREE -> status q' = QUEITEM_FREE ->
  fresh_slots (<[jj:=q']> l) n (srcs ++ [rqnum (item l jj)]).
Proof.
  intros [H1 H2] Hs Hf.
  pose proof (item_not_free l jj Hs) as Hj. split.
  - intros k q Hk Hq.
    apply list_lookup_insert_Some in Hk as [(-> & -> & Hl)|(Hne & Hk)];
      [contradiction|].
    destruct (H1 k q Hk Hq) as [Hr Hn]. split; [exact Hr|].
    rewrite in_app_iff. intros [Hin|[E|[]]]; [contradiction|].
    apply Hne. apply (H2 _ _ _ _ Hj Hk); auto.
  - intros k k' q q0 Hk Hk' Hq Hq0 E.
    apply list_lookup_insert_Some in Hk as [(-> & -> & Hl)|(Hne & Hk)];
      [contradiction|].
    apply list_lookup_insert_Some in Hk' as [(-> & -> & Hl')|(Hne' & Hk')];
      [contradiction|].
    apply (H2 _ _ _ _ Hk Hk'); auto.
Qed.

Lemma distinct_sources_snoc l n srcs jj tr rq cb :
  fresh_slots l n srcs -> srcs = sources tr ->
  distinct_sources n tr ->
  status (item l jj) <> QUEITEM_FREE ->
  distinct_sources n (tr ++ [EvWrite rq (rqnum (item l jj)) cb]).
Proof.
  intros [H1 _] -> [Hd Hb] Hs.
  destruct (H1 _ _ (item_not_free l jj Hs) Hs) as [Hr Hn].
  unfold distinct_sources. rewrite sources_snoc_write. split.
  - apply NoDup_app. split; [exact Hd|]. split; [|apply NoDup_singleton].
    intros x Hx Hin. apply list_elem_of_In in Hx.
    apply list_elem_of_singleton in Hin. subst x. contradiction.
  - apply Forall_app. split; [exact Hb|]. constructor; [exact Hr|constructor].
Qed.

Lemma distinct_sources_grow n tr :
  distinct_sources n tr -> distinct_sources (n + 1) tr.
Proof.
  intros [Hd Hb]. split; [exact Hd|].
  eapply Forall_impl; [exact Hb|]. cbn. intros; lia.
Qed.

Lemma distinct_sources_other n tr e :
  (forall rq src cb, e <> EvWrite rq src cb) ->
  distinct_sources n tr -> distinct_sources n (tr ++ [e]).
Proof.
  intros H Hd. unfold distinct_sources. rewrite sources_snoc_other by exact H.
  exact Hd.
Qed.

Local Arguments sources : simpl never.

Ltac no_write := let a := fresh in let b := fresh in let c := fresh in
  intros a b c; discriminate.

Ltac once_goal :=
  unfold written_once in *; cbn;
  rewrite ?sources_snoc_other by no_write;
  rewrite ?sources_snoc_write;
  repeat match goal with
  | |- _ /\ _ => split
  | |- 0 <= _ => lia
  | |- fresh_slots (ique _) _ _ => assumption
  | |- fresh_slots (<[_:=_]> _) (_ + 1) _ =>
    apply fresh_insert_new;
    [ assumption | lia
    | match goal with H : distinct_sources _ _ |- _ => exact (proj2 H) end
    | reflexivity ]
  | |- fresh_slots (<[_:=_]> _) _ (_ ++ [_]) =>
    apply fresh_written;
    [ assumption
    | zify_tests;
      unfold QUEITEM_FREE, QUEITEM_READY, QUEITEM_INPROGRESS in *; congruence
    | reflexivity ]
  | |- fresh_slots (<[_:=_]> _) _ _ =>
    first [ apply fresh_insert_free; [assumption | reflexivity]
          | apply fresh_insert_same;
            [assumption | reflexivity
            | cbn; zify_tests;
              unfold QUEITEM_FREE, QUEITEM_READY, QUEITEM_INPROGRESS in *;
              congruence] ]
  | |- distinct_sources (_ + 1) _ => apply distinct_sources_grow
  | |- distinct_sources _ (_ ++ [EvWrite _ _ _]) =>
    eapply distinct_sources_snoc;
    [ eassumption | reflexivity | assumption
    | zify_tests;
      unfold QUEITEM_FREE, QUEITEM_READY, QUEITEM_INPROGRESS in *; congruence ]
  | |- distinct_sources _ (_ ++ [_]) =>
    apply distinct_sources_other; [no_write|]
  | |- distinct_sources _ _ => assumption
  end.

Section Once.
Context (cfg : config) (os : nat -> Z).

Lemma ique_visit_once i :
  preserves written_once (fun s => distinct_sources (irqnum s) (trace s))
    (ique_visit cfg os i).
Proof.
  intros s (Hn & Hfr & Hd). unfold_sched. cbn.
  repeat step; cbn; once_goal.
Qed.

Lemma oque_scan_once i fuel :
  preserves written_once (fun s => distinct_sources (irqnum s) (trace s))
    (oque_scan cfg os fuel i).
Proof.
  induction fuel as [|fuel IH]; intros s Hw; [exact Hw|].
  pose proof Hw as (Hn & Hfr & Hd).
  simpl. unfold_sched. cbn.
  destruct (Nat.ltb_spec (j s) (imaxqsize cfg)) as [Hj|Hj]; [|exact Hw].
  repeat step; cbn; try (apply IH); once_goal.
Qed.

Lemma oque_visit_once i :
  preserves written_once (fun s => distinct_sources (irqnum s) (trace s))
    (oque_visit cfg os i).
Proof.
  intros s Hw.
  destruct (Z.eqb_spec (status (item (oque s) i)) QUEITEM_INPROGRESS) as [E|E].
  2:{ unfold oque_visit, bind, gets. cbn.
      rewrite (proj2 (Z.eqb_neq _ _) E). apply oque_scan_once, Hw. }
  pose proof Hw as (Hn & Hfr & Hd).
  unfold_sched. cbn. rewrite (proj2 (Z.eqb_eq _ _) E).
  repeat step; cbn; once_goal.
Qed.

Lemma turn_once :
  preserves written_once (fun s => distinct_sources (irqnum s) (trace s))
    (turn cfg os).
Proof.
  unfold turn, pass_A, pass_B.
  apply preserves_bind; [apply preserves_for_loop, ique_visit_once | intros _].
  apply preserves_bind; [|intros _; apply preserves_gets].
  apply preserves_bind; [intros s H; exact H | intros _].
  apply preserves_for_loop, oque_visit_once.
Qed.

Lemma main_loop_once n :
  preserves written_once (fun s => distinct_sources (irqnum s) (trace s))
    (main_loop cfg os n).
Proof.
  induction n as [|n IH]; simpl.
  - apply preserves_ret.
  - apply preserves_bind; [apply turn_once | intros [|]; [|apply IH]].
    intros s (_ & _ & H). unfold epilogue, gettimeofday, syscall, note, modify, bind, exit.
    destruct (os (clock s) =? -1); exact H.
Qed.

Lemma run_once ifd ofd n :
  match run cfg os ifd ofd n with
  | Ok _ s => written_once s
  | Exit _ s => distinct_sources (irqnum s) (trace s)
  end.
Proof.
  unfold run. unfold bind at 1.
  pose proof (setup_state cfg os ifd ofd) as H0.
  destruct (setup cfg os ifd ofd start_state) as [[] s0|c s0].
  - destruct H0 as (qi & qo & k & -> & _ & Fi & _).
    apply main_loop_once.
    split; [cbn; lia|]. split; [|split; constructor].
    split.
    + intros m q Hm Hq.
      destruct Hq. exact (proj1 (Forall_lookup _ _) Fi _ _ Hm).
    + intros m m' q q' Hm _ Hq.
      destruct Hq. exact (proj1 (Forall_lookup _ _) Fi _ _ Hm).
  - rewrite H0. split; constructor.
Qed.

End Once.

(** X5.  In every run, whether it is still going, has returned or was
    ended by an error, no two writes carry the same read: the read numbers
    that the submitted writes carry are pairwise different, and each is
    the number of a read that was started. *)
Theorem no_read_is_written_twice cfg os ifd ofd n :
  let s := final_state (run cfg os ifd ofd n) in
  NoDup (sources (trace s)) /\
  Forall (fun r => 1 <= r <= irqnum s) (sources (trace s)).
Proof.
  pose proof (run_once cfg os ifd ofd n) as H.
  destruct (run cfg os ifd ofd n) as [[] s|c s]; cbn; [apply H | exact H].
Qed.

(** X6.  With a seekable input, two different writes of a run never carry
    the same file offset, as long as the blocks they carry lie below
    2^64: each read is written at its own place. *)
Theorem seekable_input_offsets_differ cfg os ifd ofd n k k' w w' :
  iseekable cfg = 1 -> 0 < blksize cfg ->
  writes (trace (final_state (run cfg os ifd ofd n))) !! k = Some w ->
  writes (trace (final_state (run cfg os ifd ofd n))) !! k' = Some w' ->
  k <> k' ->
  w_src w * blksize cfg <= 2 ^ 64 -> w_src w' * blksize cfg <= 2 ^ 64 ->
  w_offset w <> w_offset w'.
Proof.
  intros Hi Hb Hk Hk' Hne Hw Hw'.
  pose proof (run_write_offset cfg os ifd ofd n k w Hk) as Ho.
  pose proof (run_write_offset cfg os ifd ofd n k' w' Hk') as Ho'.
  unfold read_offset in Ho, Ho'. rewrite Hi in Ho, Ho'. cbn in Ho, Ho'.
  pose proof (run_once cfg os ifd ofd n) as Hd.
  assert (Hd' : distinct_sources
                  (irqnum (final_state (run cfg os ifd ofd n)))
                  (trace (final_state (run cfg os ifd ofd n)))).
  { destruct (run cfg os ifd ofd n) as [[] s|c s]; cbn; [apply Hd | exact Hd]. }
  destruct Hd' as [Hnd Hrng]. unfold sources in Hnd, Hrng.
  assert (Hs : map w_src (writes (trace (final_state (run cfg os ifd ofd n))))
               !! k = Some (w_src w)) by (rewrite list_lookup_fmap, Hk; reflexivity).
  assert (Hs' : map w_src (writes (trace (final_state (run cfg os ifd ofd n))))
               !! k' = Some (w_src w')) by (rewrite list_lookup_fmap, Hk'; reflexivity).
  pose proof (proj1 (Forall_lookup _ _) Hrng _ _ Hs) as H1.
  pose proof (proj1 (Forall_lookup _ _) Hrng _ _ Hs') as H1'.
  cbn in H1, H1'.
  rewrite wrap64_small in Ho by nia. rewrite wrap64_small in Ho' by nia.
  intros E. apply Hne.
  assert (Hsrc : w_src w = w_src w') by nia.
  rewrite <- Hsrc in Hs'. exact (NoDup_lookup _ _ _ _ Hnd Hs Hs').
Qed.

(** ** Reads stay in their block (lines 608-631, 705-730) *)

Lemma wrap64_add_r a b : wrap64 (a + wrap64 b) = wrap64 (a + b).
Proof. unfold wrap64. apply Zplus_mod_idemp_r. Qed.

Section Reads.
Context (cfg : config) (os : nat -> Z).

Lemma ique_visit_reads i :
  preserves (fun s => coherent cfg s /\ reads_ok cfg (trace s))
    (fun s => reads_ok cfg (trace s)) (ique_visit cfg os i).
Proof.
  intros s (Hc & Hr).
  pose proof (ique_visit_coherent cfg os i s Hc) as Hc'.
  destruct Hc as [[H1 H2 H3 H4] H5].
  pose proof (item_slot_ok cfg _ _ i H4) as Hq.
  revert Hc'. unfold_sched. cbn.
  repeat step; cbn; intros Hc'; auto.
  all: try (split; [exact Hc'|]).
  all: intros rq cb Hin; rewrite ?in_app_iff in Hin; cbn in Hin.
  all: repeat match goal with
       | H : _ \/ _ |- _ => destruct H
       | H : False |- _ => destruct H
       end.
  all: try (apply Hr; assumption).
  all: try discriminate.
  all: match goal with
       | H : EvRead _ _ = EvRead _ _ |- _ => injection H as <- <-
       end.
  all: clear Hc'; unfold read_ok; cbn.
  all: split; [reflexivity|]; split; [apply wrap64_range|].
  all: zify_tests.
  all: try match goal with
       | H : iseekable cfg = 1 |- _ => rewrite H; cbn
       | H : iseekable cfg <> 1 |- _ => rewrite (proj2 (Z.eqb_neq _ _) H)
       end.
  all: try reflexivity.
  all: try (destruct Hq as (_ & Hoff & _);
            [unfold QUEITEM_FREE, QUEITEM_INPROGRESS in *; congruence|];
            unfold read_offset in Hoff;
            rewrite (proj2 (Z.eqb_eq _ _) Heqb5) in Hoff; rewrite Hoff).
  all: try rewrite H3.
  all: unfold wrap64; Z.to_euclidean_division_equations; lia.
Qed.

Ltac reads_goal Hr :=
  let rq := fresh "rq" in let cb := fresh "cb" in let Hin := fresh "Hin" in
  intros rq cb Hin; cbn in Hin; rewrite ?in_app_iff in Hin; cbn in Hin;
  repeat match goal with
  | H : _ \/ _ |- _ => destruct H
  | H : False |- _ => destruct H
  end;
  first [apply Hr; assumption | discriminate].

Lemma oque_scan_reads i fuel :
  preserves (fun s => reads_ok cfg (trace s)) (fun s => reads_ok cfg (trace s))
    (oque_scan cfg os fuel i).
Proof.
  induction fuel as [|fuel IH]; intros s Hr; [exact Hr|].
  simpl. unfold_sched. cbn.
  destruct (Nat.ltb_spec (j s) (imaxqsize cfg)) as [Hj|Hj]; [|exact Hr].
  repeat step; cbn; auto; try (apply IH; cbn); reads_goal Hr.
Qed.

Lemma oque_visit_reads i :
  preserves (fun s => reads_ok cfg (trace s)) (fun s => reads_ok cfg (trace s))
    (oque_visit cfg os i).
Proof.
  intros s Hr.
  destruct (Z.eqb_spec (status (item (oque s) i)) QUEITEM_INPROGRESS) as [E|E].
  2:{ unfold oque_visit, bind, gets. cbn.
      rewrite (proj2 (Z.eqb_neq _ _) E). apply oque_scan_reads, Hr. }
  unfold_sched. cbn. rewrite (proj2 (Z.eqb_eq _ _) E).
  repeat step; cbn; auto; reads_goal Hr.
Qed.

Lemma preserves_both {A} (I I' T T' : state -> Prop) (m : M A) :
  preserves I T m -> preserves I' T' m ->
  preserves (fun s => I s /\ I' s) T' m.
Proof.
  intros H H' s [Hs Hs']. specialize (H s Hs). specialize (H' s Hs').
  destruct (m s); [split; assumption | exact H'].
Qed.

Lemma turn_reads :
  preserves (fun s => coherent cfg s /\ reads_ok cfg (trace s))
    (fun s => reads_ok cfg (trace s)) (turn cfg os).
Proof.
  unfold turn, pass_A, pass_B.
  apply preserves_bind; [apply preserves_for_loop, ique_visit_reads | intros _].
  apply preserves_bind; [|intros _; apply preserves_gets].
  apply preserves_bind.
  { intros s [Hc Hr]. split; [apply set_j_coherent, Hc | exact Hr]. }
  intros _. apply preserves_for_loop. intros i.
  eapply preserves_both; [apply oque_visit_coherent | apply oque_visit_reads].
Qed.

Lemma main_loop_reads n :
  preserves (fun s => coherent cfg s /\ reads_ok cfg (trace s))
    (fun s => reads_ok cfg (trace s)) (main_loop cfg os n).
Proof.
  induction n as [|n IH]; simpl.
  - apply preserves_ret.
  - apply preserves_bind; [apply turn_reads | intros [|]; [|apply IH]].
    intros s (_ & H). unfold epilogue, gettimeofday, syscall, note, modify, bind, exit.
    destruct (os (clock s) =? -1); exact H.
Qed.

Lemma run_reads ifd ofd n :
  reads_ok cfg (trace (final_state (run cfg os ifd ofd n))).
Proof.
  unfold run. unfold bind at 1.
  pose proof (setup_coherent cfg os ifd ofd) as H0.
  pose proof (setup_state cfg os ifd ofd) as H1.
  destruct (setup cfg os ifd ofd start_state) as [[] s0|c s0].
  - assert (Hr : reads_ok cfg (trace s0)).
    { destruct H1 as (qi & qo & k & -> & _). intros rq cb []. }
    pose proof (main_loop_reads n s0 (conj H0 Hr)) as H2.
    destruct (main_loop cfg os n s0) as [[] s1|]; [apply H2 | exact H2].
  - cbn. rewrite H1. intros rq cb [].
Qed.

End Reads.

(** X7.  In every run each [aio_read], the first of a block or a repeated
    one after a short read, asks with priority 0 for a part that ends
    where its block ends when the input is seekable (offset plus byte
    count is the read number times the block size, modulo 2^64), and
    carries offset 0 when the input is not seekable. *)
Theorem reads_end_with_their_block cfg os ifd ofd n rq cb :
  In (EvRead rq cb) (trace (final_state (run cfg os ifd ofd n))) ->
  aio_reqprio cb = 0 /\ 0 <= aio_nbytes cb < 2 ^ 64 /\
  (iseekable cfg = 1 ->
   wrap64 (aio_offset cb + aio_nbytes cb) = wrap64 (rq * blksize cfg)) /\
  (iseekable cfg <> 1 -> aio_offset cb = 0).
Proof.
  intros Hin.
  destruct (run_reads cfg os ifd ofd n rq cb Hin) as (Hp & Hn & Ho).
  split; [exact Hp|]. split; [exact Hn|].
  destruct (Z.eqb_spec (iseekable cfg) 1) as [E|E]; split; intros E'; auto;
    contradiction.
Qed.

(** ** The statistics (line 938) *)

Lemma run_success_coherent cfg os ifd ofd n s :
  run cfg os ifd ofd n = Exit EXIT_SUCCESS s ->
  exists s1 r,
    coherent cfg s1 /\
    s = set_replies (replies s1 ++ [Timed r]) (set_clock (S (clock s1)) s1).
Proof.
  unfold run. unfold bind at 1.
  pose proof (setup_coherent cfg os ifd ofd) as H0.
  destruct (setup cfg os ifd ofd start_state) as [[] s0|c s0] eqn:E.
  - intros H.
    destruct (main_loop_success cfg os (coherent cfg) n) with (s := s0) (s' := s)
      as (s1 & r & Hc & _ & Hs); auto.
    + intros s1 H1. pose proof (turn_coherent cfg os s1 H1) as H2.
      destruct (turn cfg os s1); [exact H2 | exact I].
    + exists s1, r. auto.
  - intros [= -> <-]. apply setup_fails in E. discriminate E.
Qed.

(** X8.  When [main] returns [EXIT_SUCCESS], the byte total it reports
    ([ooff]) is the sum of the byte counts of the writes it submitted,
    modulo 2^64, whatever the writes are reported to have written; and
    the write counter is the number of writes submitted. *)
Theorem reported_total_is_what_was_submitted cfg os ifd ofd n s :
  run cfg os ifd ofd n = Exit EXIT_SUCCESS s ->
  ooff s = wrap64 (written (trace s)) /\
  orqnum s = Z.of_nat (length (writes (trace s))).
Proof.
  intros H. destruct (run_success_coherent _ _ _ _ _ _ H) as (s1 & r & Hc & ->).
  destruct Hc as [[H1 H2 _ _] _]. cbn. split; assumption.
Qed.

(** ** After the end of the data (line 691) *)

Section AfterEof.
Context (cfg : config) (os : nat -> Z) (k a off : Z).

Let halted (s : state) : Prop :=
  eof s = 1 /\ irqnum s = k /\ ioff s = off /\ count is_alloc (trace s) = a.

Ltac halted_goal :=
  unfold halted in *; cbn in *; rewrite ?count_snoc; cbn; zify_tests;
  repeat split; lia.

Lemma ique_visit_halted i : preserves halted halted (ique_visit cfg os i).
Proof.
  intros s H. unfold_sched. cbn.
  repeat step; cbn; halted_goal.
Qed.

Lemma oque_scan_halted i fuel :
  preserves halted halted (oque_scan cfg os fuel i).
Proof.
  induction fuel as [|fuel IH]; intros s H; [exact H|].
  simpl. unfold_sched. cbn.
  destruct (Nat.ltb_spec (j s) (imaxqsize cfg)); [|exact H].
  repeat step; cbn; try (apply IH); halted_goal.
Qed.

Lemma oque_visit_halted i : preserves halted halted (oque_visit cfg os i).
Proof.
  intros s H.
  destruct (Z.eqb_spec (status (item (oque s) i)) QUEITEM_INPROGRESS) as [E|E].
  2:{ unfold oque_visit, bind, gets. cbn.
      rewrite (proj2 (Z.eqb_neq _ _) E). apply oque_scan_halted, H. }
  unfold_sched. cbn. rewrite (proj2 (Z.eqb_eq _ _) E).
  repeat step; cbn; halted_goal.
Qed.

Lemma main_loop_halted n : preserves halted halted (main_loop cfg os n).
Proof.
  induction n as [|n IH]; simpl.
  - apply preserves_ret.
  - apply preserves_bind.
    + unfold turn, pass_A, pass_B.
      apply preserves_bind;
        [apply preserves_for_loop, ique_visit_halted | intros _].
      apply preserves_bind; [|intros _; apply preserves_gets].
      apply preserves_bind; [intros s H; exact H | intros _].
      apply preserves_for_loop, oque_visit_halted.
    + intros [|]; [|apply IH].
      intros s H. unfold epilogue, gettimeofday, syscall, note, modify, bind, exit.
      destruct (os (clock s) =? -1); exact H.
Qed.

End AfterEof.

(** X9.  Once [eof] is set, the rest of the run starts no read: the read
    counter, the input offset and the number of buffers allocated stay as
    they are, however the run goes on and however it ends. *)
Theorem no_read_starts_after_eof cfg os n s :
  eof s = 1 ->
  irqnum (final_state (main_loop cfg os n s)) = irqnum s /\
  ioff (final_state (main_loop cfg os n s)) = ioff s /\
  count is_alloc (trace (final_state (main_loop cfg os n s)))
    = count is_alloc (trace s).
Proof.
  intros He.
  pose proof (main_loop_halted cfg os (irqnum s) (count is_alloc (trace s))
                (ioff s) n s) as H.
  cbv zeta in H. specialize (H (conj He (conj eq_refl (conj eq_refl eq_refl)))).
  destruct (main_loop cfg os n s) as [[] s'|c s']; cbn; tauto.
Qed.

(** ** Single completions *)

(** X10.  A read that was cancelled ([aio_error] answers [ECANCELED])
    frees the input slot and releases its buffer, whatever the buffer
    already holds from earlier short reads; neither [eof] nor the read
    counter changes, and nothing is submitted in its place during the
    visit. *)
Theorem cancelled_read_is_dropped cfg os s i q :
  ique s !! i = Some q ->
  status q = QUEITEM_INPROGRESS ->
  os (clock s) = ECANCELED ->
  exists s' q',
    ique_visit cfg os i s = Ok tt s' /\
    ique s' !! i = Some q' /\
    status q' = QUEITEM_FREE /\ buffer q' = NULL /\
    rqnum q' = rqnum q /\ readyb q' = readyb q /\
    trace s' = trace s ++ [EvFree (buffer q)] /\
    iqsize s' = iqsize s - 1 /\
    eof s' = eof s /\ irqnum s' = irqnum s /\ oque s' = oque s.
Proof.
  intros Hq Hst He.
  pose proof (item_of_lookup _ _ _ Hq) as Hit.
  assert (Hlen : (i < length (ique s))%nat) by (eapply lookup_lt_Some; eauto).
  unfold_sched. cbn. rewrite Hit, Hst. cbn. rewrite He. cbn.
  do 2 eexists. split; [reflexivity|]. cbn.
  rewrite list_lookup_insert_eq by exact Hlen.
  repeat split; reflexivity.
Qed.

(** X11.  A write that completed ([aio_error] answers 0) frees the output
    slot and releases the buffer whatever byte count [aio_return] gives:
    a short write is not submitted again and [ooff] keeps the full count.
    A count of 0 sets [eof]. *)
Theorem completed_write_is_released cfg os s i q :
  oque s !! i = Some q ->
  status q = QUEITEM_INPROGRESS ->
  os (clock s) = 0 ->
  exists s' q',
    oque_visit cfg os i s = Ok tt s' /\
    oque s' !! i = Some q' /\
    status q' = QUEITEM_FREE /\ buffer q' = NULL /\
    retcode q' = sint32 (os (S (clock s))) /\
    trace s' = trace s ++ [EvFree (buffer q)] /\
    oqsize s' = oqsize s - 1 /\
    ooff s' = ooff s /\ orqnum s' = orqnum s /\ ique s' = ique s /\
    eof s' = (if sint32 (os (S (clock s))) =? 0 then 1 else eof s).
Proof.
  intros Hq Hst He.
  pose proof (item_of_lookup _ _ _ Hq) as Hit.
  assert (Hlen : (i < length (oque s))%nat) by (eapply lookup_lt_Some; eauto).
  unfold_sched. cbn. rewrite Hit, Hst. cbn. rewrite He. cbn.
  destruct (sint32 (os (S (clock s))) =? 0); cbn.
  all: do 2 eexists; (split; [reflexivity|]); cbn.
  all: rewrite list_lookup_insert_eq by exact Hlen.
  all: repeat split; reflexivity.
Qed.

(** X12.  Any other answer of [aio_error] ends the process with
    [EXIT_FAILURE] on the spot: on the input side every code but 0,
    [EINPROGRESS] and [ECANCELED] (so [EFBIG] too), on the output side
    every code but these and [EFBIG].  Nothing is released or submitted
    on the way out. *)
Theorem unknown_error_ends_the_process cfg os s i q :
  status q = QUEITEM_INPROGRESS ->
  os (clock s) <> 0 -> os (clock s) <> EINPROGRESS ->
  os (clock s) <> ECANCELED ->
  (ique s !! i = Some q ->
   exists s', ique_visit cfg os i s = Exit EXIT_FAILURE s' /\
              trace s' = trace s /\ iqsize s' = iqsize s /\
              status (item (ique s') i) = QUEITEM_INPROGRESS) /\
  (oque s !! i = Some q -> os (clock s) <> EFBIG ->
   exists s', oque_visit cfg os i s = Exit EXIT_FAILURE s' /\
              trace s' = trace s /\ oqsize s' = oqsize s /\
              status (item (oque s') i) = QUEITEM_INPROGRESS).
Proof.
  intros Hst H0 H1 H2. split.
  - intros Hq.
    pose proof (item_of_lookup _ _ _ Hq) as Hit.
    assert (Hlen : (i < length (ique s))%nat) by (eapply lookup_lt_Some; eauto).
    unfold_sched. cbn. rewrite Hit, Hst. cbn.
    rewrite (proj2 (Z.eqb_neq _ _) H0), (proj2 (Z.eqb_neq _ _) H1),
      (proj2 (Z.eqb_neq _ _) H2).
    eexists. split; [reflexivity|]. cbn.
    rewrite item_insert_eq by exact Hlen. auto.
  - intros Hq H3.
    pose proof (item_of_lookup _ _ _ Hq) as Hit.
    assert (Hlen : (i < length (oque s))%nat) by (eapply lookup_lt_Some; eauto).
    unfold_sched. cbn. rewrite Hit, Hst. cbn.
    rewrite (proj2 (Z.eqb_neq _ _) H0), (proj2 (Z.eqb_neq _ _) H1),
      (proj2 (Z.eqb_neq _ _) H2), (proj2 (Z.eqb_neq _ _) H3).
    eexists. split; [reflexivity|]. cbn.
    rewrite item_insert_eq by exact Hlen. auto.
Qed.

(** X13.  A completion that fills the block (the bytes held and the bytes
    returned add up to the block size) makes the input slot Ready with
    the whole block, without any call to the operating system but the two
    that ask for the result. *)
Theorem full_block_becomes_ready cfg os s i q n :
  ique s !! i = Some q ->
  status q = QUEITEM_INPROGRESS ->
  os (clock s) = 0 ->
  os (S (clock s)) = n ->
  0 <= readyb q -> 0 < n ->
  readyb q + n = blksize cfg -> blksize cfg < 2 ^ 31 ->
  exists s' q',
    ique_visit cfg os i s = Ok tt s' /\
    ique s' !! i = Some q' /\
    status q' = QUEITEM_READY /\ readyb q' = blksize cfg /\
    buffer q' = buffer q /\ rqnum q' = rqnum q /\
    fdoffset q' = fdoffset q /\
    trace s' = trace s /\ clock s' = S (S (clock s)) /\
    iqsize s' = iqsize s /\ eof s' = eof s.
Proof.
  intros Hq Hst He Hr H0 Hn Hsum Hb.
  pose proof (item_of_lookup _ _ _ Hq) as Hit.
  assert (Hlen : (i < length (ique s))%nat) by (eapply lookup_lt_Some; eauto).
  assert (Hs : sint32 n = n) by (apply sint32_small; lia).
  assert (Hwb : wrap64 (blksize cfg) = blksize cfg)
    by (apply wrap64_small; lia).
  unfold_sched. cbn. rewrite Hit, Hst. cbn. rewrite He. cbn. rewrite Hr, Hs.
  destruct (Z.eqb_spec n 0) as [|_]; [lia|]. cbn.
  rewrite Hsum, Hwb, Z.eqb_refl. cbn.
  do 2 eexists. split; [reflexivity|]. cbn.
  rewrite list_lookup_insert_eq by exact Hlen.
  repeat split; reflexivity.
Qed.

(** ** Descriptors (lines 461-474, 504-512, 608, 721, 851) *)

Lemma fds_insert l i q' :
  fd q' = fd (item l i) -> fds (<[i:=q']> l) = fds l.
Proof.
  unfold fds, item. revert i.
  induction l as [|a r IH]; intros [|i] H; simpl in *; try reflexivity.
  - rewrite H. reflexivity.
  - rewrite (IH i H). reflexivity.
Qed.

Lemma fd_item_in l i : (i < length l)%nat -> In (fd (item l i)) (fds l).
Proof.
  intros H. unfold fds. apply in_map. apply list_elem_of_In.
  eapply list_elem_of_lookup_2. apply item_lookup, H.
Qed.

Section Descriptors.
Context (cfg : config) (os : nat -> Z) (fi fo : list Z).

Ltac wired_goal Hw :=
  let Hin := fresh "Hin" in
  split; [intros ? ? Hin | intros ? ? ? Hin];
  cbn in Hin; rewrite ?in_app_iff in Hin; cbn in Hin;
  repeat match goal with
  | H : _ \/ _ |- _ => destruct H
  | H : False |- _ => destruct H
  end;
  try discriminate;
  try match goal with
      | H : In (EvRead _ _) (trace _) |- _ => exact (proj1 Hw _ _ H)
      | H : In (EvWrite _ _ _) (trace _) |- _ => exact (proj2 Hw _ _ _ H)
      end.

Lemma ique_visit_plugged i :
  (i < imaxqsize cfg)%nat ->
  preserves (plugged cfg fi fo) (fun s => wired fi fo (trace s))
    (ique_visit cfg os i).
Proof.
  intros Hi s (Hfi & Hfo & Li & Lo & Hw).
  assert (Hfd : In (fd (item (ique s) i)) fi).
  { rewrite <- Hfi. apply fd_item_in. unfold fds in Hfi.
    rewrite <- (length_map fd), Hfi. lia. }
  unfold plugged. unfold_sched. cbn.
  repeat step; cbn; auto.
  all: try (split; [rewrite ?fds_insert by reflexivity; exact Hfi|];
            split; [exact Hfo|]; split; [exact Li|]; split; [exact Lo|]).
  all: wired_goal Hw.
  all: match goal with
       | H : EvRead _ _ = EvRead _ _ |- _ => injection H as <- <-
       end; exact Hfd.
Qed.

Lemma oque_scan_plugged i fuel :
  (i < omaxqsize cfg)%nat ->
  preserves (plugged cfg fi fo) (fun s => wired fi fo (trace s))
    (oque_scan cfg os fuel i).
Proof.
  intros Hi. induction fuel as [|fuel IH]; intros s Hp; [exact Hp|].
  pose proof Hp as (Hfi & Hfo & Li & Lo & Hw).
  assert (Hfd : In (fd (item (oque s) i)) fo).
  { rewrite <- Hfo. apply fd_item_in. unfold fds in Hfo.
    rewrite <- (length_map fd), Hfo. lia. }
  simpl. unfold_sched. cbn.
  destruct (Nat.ltb_spec (j s) (imaxqsize cfg)) as [Hj|Hj]; [|exact Hp].
  repeat step; cbn; auto.
  all: try (apply IH).
  all: unfold plugged; cbn.
  all: try (split; [rewrite ?fds_insert by reflexivity; exact Hfi|];
            split; [rewrite ?fds_insert by reflexivity; exact Hfo|];
            split; [exact Li|]; split; [exact Lo|]).
  all: try exact Hw.
  all: wired_goal Hw.
  all: match goal with
       | H : EvWrite _ _ _ = EvWrite _ _ _ |- _ => injection H as <- <- <-
       end; exact Hfd.
Qed.

Lemma oque_visit_plugged i :
  (i < omaxqsize cfg)%nat ->
  preserves (plugged cfg fi fo) (fun s => wired fi fo (trace s))
    (oque_visit cfg os i).
Proof.
  intros Hi s Hp.
  destruct (Z.eqb_spec (status (item (oque s) i)) QUEITEM_INPROGRESS) as [E|E].
  2:{ unfold oque_visit, bind, gets. cbn.
      rewrite (proj2 (Z.eqb_neq _ _) E). apply oque_scan_plugged; assumption. }
  pose proof Hp as (Hfi & Hfo & Li & Lo & Hw).
  unfold plugged. unfold_sched. cbn. rewrite (proj2 (Z.eqb_eq _ _) E).
  repeat step; cbn; auto.
  all: try (split; [exact Hfi|];
            split; [rewrite ?fds_insert by reflexivity; exact Hfo|];
            split; [exact Li|]; split; [exact Lo|]).
  all: wired_goal Hw.
Qed.

Lemma main_loop_plugged n :
  preserves (plugged cfg fi fo) (fun s => wired fi fo (trace s))
    (main_loop cfg os n).
Proof.
  induction n as [|n IH]; simpl.
  - apply preserves_ret.
  - apply preserves_bind.
    + unfold turn, pass_A, pass_B.
      apply preserves_bind.
      { apply preserves_for_loop_below with (bound := imaxqsize cfg); [|lia].
        apply ique_visit_plugged. }
      intros _. apply preserves_bind; [|intros _; apply preserves_gets].
      apply preserves_bind; [intros s H; exact H | intros _].
      apply preserves_for_loop_below with (bound := omaxqsize cfg); [|lia].
      apply oque_visit_plugged.
    + intros [|]; [|apply IH].
      intros s (_ & _ & _ & _ & H).
      unfold epilogue, gettimeofday, syscall, note, modify, bind, exit.
      destruct (os (clock s) =? -1); exact H.
Qed.

End Descriptors.

(** X14.  The descriptors are fixed by the setup: in every run that gets
    through the setup, however it goes on, every [aio_read] is made on the
    descriptor of an input slot and every [aio_write] on the descriptor of
    an output slot, as the setup left them. *)
Theorem requests_go_to_their_own_side cfg os ifd ofd n s0 :
  setup cfg os ifd ofd start_state = Ok tt s0 ->
  (forall rq cb,
     In (EvRead rq cb) (trace (final_state (run cfg os ifd ofd n))) ->
     In (aio_fildes cb) (fds (ique s0))) /\
  (forall rq src cb,
     In (EvWrite rq src cb) (trace (final_state (run cfg os ifd ofd n))) ->
     In (aio_fildes cb) (fds (oque s0))).
Proof.
  intros E.
  change (wired (fds (ique s0)) (fds (oque s0))
            (trace (final_state (run cfg os ifd ofd n)))).
  unfold run. unfold bind at 1.
  pose proof (setup_state cfg os ifd ofd) as H0. rewrite E in H0 |- *.
  destruct H0 as (qi & qo & k & -> & Li & _ & Lo & _). cbn [ique oque].
  match goal with |- context [main_loop cfg os n ?t] =>
    assert (Hp : plugged cfg (fds qi) (fds qo) t) end.
  { split; [reflexivity|]. split; [reflexivity|].
    unfold fds. rewrite !length_map.
    split; [exact Li|]. split; [exact Lo|].
    split; intros; contradiction. }
  pose proof (main_loop_plugged cfg os (fds qi) (fds qo) n _ Hp) as H1.
  destruct (main_loop cfg os n _) as [[] s1|c s1]; cbn.
  - exact (proj2 (proj2 (proj2 (proj2 H1)))).
  - exact H1.
Qed.

(** ** A gap in the read numbers (lines 657-683, 838) *)

Lemma for_loop_idle body bound s :
  (forall i, (i < bound)%nat -> body i s = Ok tt s) ->
  forall n i, (i + n <= bound)%nat -> for_loop n i body s = Ok tt s.
Proof.
  intros Hb. induction n as [|n IH]; intros i Hn; simpl; [reflexivity|].
  unfold bind. rewrite Hb by lia. apply IH. lia.
Qed.

Lemma set_j_same s : set_j (j s) s = s.
Proof. destruct s; reflexivity. Qed.

Section Gap.
Context (cfg : config) (os : nat -> Z).

Lemma ique_visit_blocked s i :
  blocked cfg s (item (ique s) i) -> ique_visit cfg os i s = Ok tt s.
Proof.
  intros [(Hs & _)|(Hs & He)]; unfold_sched; cbn; rewrite Hs; cbn.
  - reflexivity.
  - rewrite He. reflexivity.
Qed.

Lemma oque_scan_blocked i fuel s :
  length (ique s) = imaxqsize cfg ->
  Forall (blocked cfg s) (ique s) ->
  status (item (oque s) i) <> QUEITEM_INPROGRESS ->
  exists jj', oque_scan cfg os fuel i s = Ok tt (set_j jj' s).
Proof.
  revert s. induction fuel as [|fuel IH]; intros s Hlen Hb Ho.
  { exists (j s). rewrite set_j_same. reflexivity. }
  simpl. unfold_sched. cbn.
  destruct (Nat.ltb_spec (j s) (imaxqsize cfg)) as [Hj|Hj].
  2:{ exists (j s). rewrite set_j_same. reflexivity. }
  assert (Hq : ique s !! j s = Some (item (ique s) (j s)))
    by (apply item_lookup; lia).
  destruct (IH (set_j (S (j s)) s) Hlen Hb Ho) as (jj' & E).
  exists jj'.
  pose proof (proj1 (Forall_lookup _ _) Hb _ _ Hq) as [(Hs & Hk & Hr)|(Hs & He)].
  - rewrite Hs. cbn. rewrite Hk. cbn.
    rewrite (proj2 (Z.eqb_neq _ _) Hr). cbn.
    rewrite (proj2 (Z.eqb_neq _ _) Ho). exact E.
  - rewrite Hs. cbn.
    rewrite (proj2 (Z.eqb_neq _ _) Ho). exact E.
Qed.

Lemma stuck_set_j s jj : stuck cfg s -> stuck cfg (set_j jj s).
Proof. intros H. exact H. Qed.

Lemma pass_B_blocked s :
  stuck cfg s -> exists jj, pass_B cfg os s = Ok tt (set_j jj s).
Proof.
  intros Hs. unfold pass_B, bind, modify.
  assert (G : forall n i s, stuck cfg s -> (i + n <= omaxqsize cfg)%nat ->
    exists jj', for_loop n i (oque_visit cfg os) s = Ok tt (set_j jj' s)).
  { clear s Hs. induction n as [|n IH]; intros i s Hs Hn.
    { exists (j s). rewrite set_j_same. reflexivity. }
    pose proof Hs as (Hli & Hlo & Hb & Hf & _).
    simpl. unfold bind.
    assert (Hq : oque s !! i = Some (item (oque s) i))
      by (apply item_lookup; lia).
    pose proof (proj1 (Forall_lookup _ _) Hf _ _ Hq) as Hst.
    unfold is_free in Hst.
    assert (Ho : status (item (oque s) i) <> QUEITEM_INPROGRESS)
      by (rewrite Hst; discriminate).
    destruct (oque_scan_blocked i (imaxqsize cfg) s Hli Hb Ho) as (jj' & E).
    unfold oque_visit at 1. unfold bind, gets.
    rewrite (proj2 (Z.eqb_neq _ _) Ho), E.
    destruct (IH (S i) (set_j jj' s) (stuck_set_j s jj' Hs) ltac:(lia))
      as (jj2 & E2).
    exists jj2. exact E2. }
  destruct (G (omaxqsize cfg) 0%nat (set_j 0%nat s) (stuck_set_j s _ Hs)
              ltac:(lia)) as (jj & E).
  exists jj. exact E.
Qed.

Lemma turn_blocked s :
  stuck cfg s -> exists jj, turn cfg os s = Ok false (set_j jj s).
Proof.
  intros Hs. pose proof Hs as (Hli & Hlo & Hb & Hf & Hq).
  destruct (pass_B_blocked s Hs) as (jj & E).
  exists jj. unfold turn, bind, gets, pass_A.
  rewrite (for_loop_idle (ique_visit cfg os) (imaxqsize cfg)).
  - rewrite E. unfold drained. cbn.
    rewrite (proj2 (Z.eqb_neq _ _) Hq). reflexivity.
  - intros i Hi. apply ique_visit_blocked.
    apply (proj1 (Forall_lookup _ _) Hb i). apply item_lookup. lia.
  - lia.
Qed.

End Gap.

(** X15.  When every input slot is Ready with a number that is not the
    next write's, on a non-seekable output, or Free with [eof] set, and
    no write is under way, the main loop goes round for ever: every turn
    leaves all as it is (but the cursor [j]), calls nothing and does not
    reach the [break]. *)
Theorem gap_in_read_numbers_blocks_the_loop cfg os s n :
  stuck cfg s ->
  exists jj, main_loop cfg os n s = Ok tt (set_j jj s).
Proof.
  intros Hs.
  revert s Hs. induction n as [|n IH]; intros s Hs.
  { exists (j s). rewrite set_j_same. reflexivity. }
  rewrite main_loop_S.
  destruct (turn_blocked cfg os s Hs) as (jj1 & E). rewrite E.
  destruct (IH (set_j jj1 s) (stuck_set_j cfg s jj1 Hs)) as (jj2 & E2).
  exists jj2. exact E2.
Qed.

(** ** The options (lines 225-336) *)

Section Options.
Import Cmdline.

Lemma isdigit_value c : isdigit c = true -> 0 <= code_of c - 48 <= 9.
Proof. unfold isdigit. cbn zeta. lia. Qed.

Lemma decimal_grows s acc :
  all_digits s = true -> 0 <= acc -> acc <= decimal s acc.
Proof.
  revert acc. induction s as [|c r IH]; intros acc H Ha; simpl in *; [lia|].
  apply andb_true_iff in H as [Hc Hr].
  pose proof (isdigit_value c Hc).
  specialize (IH (acc * 10 + (code_of c - 48)) Hr). lia.
Qed.

(** [digits] on a string of digits followed by something else. *)
Lemma digits_decimal s t acc ovf :
  all_digits s = true ->
  match t with String c _ => isdigit c = false | EmptyString => True end ->
  0 <= acc -> (ULONG_MAX < acc -> ovf = true) ->
  digits (s ++ t) acc ovf =
  (decimal s acc, ovf || (ULONG_MAX <? decimal s acc), t).
Proof.
  intros Hs Ht. revert acc ovf Hs.
  induction s as [|c r IH]; intros acc ovf Hs Ha Ho; simpl in *.
  - assert (E : ovf || (ULONG_MAX <? acc) = ovf).
    { destruct (Z.ltb_spec ULONG_MAX acc) as [L|L].
      - rewrite (Ho L). reflexivity.
      - apply orb_false_r. }
    rewrite E. destruct t as [|c t']; [reflexivity|].
    simpl. rewrite Ht. reflexivity.
  - apply andb_true_iff in Hs as [Hc Hr]. rewrite Hc.
    pose proof (isdigit_value c Hc).
    set (v := acc * 10 + (code_of c - 48)) in *.
    rewrite IH; [|exact Hr|lia|].
    + f_equal. f_equal.
      pose proof (decimal_grows r v Hr ltac:(lia)).
      destruct (Z.ltb_spec ULONG_MAX v) as [L|L];
        destruct (Z.ltb_spec ULONG_MAX (decimal r v)) as [L'|L'];
        destruct ovf; try reflexivity; lia.
    + intros L. apply orb_true_iff. right. apply Z.ltb_lt. exact L.
Qed.

Lemma strtoul_digit_head c r :
  isdigit c = true ->
  strtoul (String c r) =
  let '(v, ovf, rest) := digits (String c r) 0 false in
  if ovf then (ULONG_MAX, rest, ERANGE) else (v, rest, 0).
Proof.
  destruct c as [b0 b1 b2 b3 b4 b5 b6 b7].
  destruct b0, b1, b2, b3, b4, b5, b6, b7; intros H;
    try (vm_compute in H; discriminate H); reflexivity.
Qed.

(** [strtoul] on a decimal number followed by something that is not a
    digit. *)
Lemma strtoul_decimal s t :
  all_digits s = true -> s <> EmptyString ->
  match t with String c _ => isdigit c = false | EmptyString => True end ->
  strtoul (s ++ t) =
  if ULONG_MAX <? decimal s 0 then (ULONG_MAX, t, ERANGE)
  else (decimal s 0, t, 0).
Proof.
  intros Hs Hne Ht. destruct s as [|c r]; [contradiction|].
  pose proof Hs as Hs'. simpl in Hs'. apply andb_true_iff in Hs' as [Hc _].
  change (String c r ++ t)%string with (String c (r ++ t)).
  rewrite (strtoul_digit_head c (r ++ t) Hc).
  change (String c (r ++ t)) with (String c r ++ t)%string.
  rewrite (digits_decimal (String c r) t 0 false Hs Ht); [|lia|].
  - reflexivity.
  - unfold ULONG_MAX. lia.
Qed.

Lemma append_empty_r s : (s ++ "")%string = s.
Proof.
  induction s as [|c r IH]; [reflexivity|].
  change (String c (r ++ "")%string = String c r). f_equal. exact IH.
Qed.

Lemma decimal_nonneg s acc : all_digits s = true -> 0 <= acc -> 0 <= decimal s acc.
Proof. intros H Ha. pose proof (decimal_grows s acc H Ha). lia. Qed.

Lemma opt_q_range optarg v :
  opt_q optarg = Accepted v ->
  1 <= v <= 32 /\ exists x e, strtoul optarg = (x, EmptyString, e).
Proof.
  unfold opt_q. destruct (strtoul optarg) as [[x bsuffix] e].
  destruct (Z.ltb_spec (sint64 x) 1); [discriminate|].
  destruct (Z.ltb_spec 32 (sint64 x)); [discriminate|].
  cbn. destruct bsuffix; [|discriminate]. cbn.
  intros [= <-]. rewrite sint32_small by lia. split; [lia|]. eauto.
Qed.

(** X16.  Whatever the argument of [-q], a queue size that is accepted
    lies between 1 and 32, and the argument was a number to its end. *)
Theorem accepted_queue_size_is_1_to_32 optarg v :
  opt_q optarg = Accepted v ->
  1 <= v <= 32 /\ snd (fst (strtoul optarg)) = EmptyString.
Proof.
  intros H. destruct (opt_q_range optarg v H) as (Hv & x & e & E).
  split; [exact Hv|]. rewrite E. reflexivity.
Qed.

(** X17.  A decimal number as argument of [-q] is accepted, and stored as
    it is, exactly when it lies between 1 and 32; otherwise the process
    exits with [EXIT_USAGE], also when the number does not fit 64 bits. *)
Theorem decimal_queue_size_option s :
  all_digits s = true -> s <> EmptyString ->
  opt_q s =
  if (1 <=? decimal s 0) && (decimal s 0 <=? 32)
  then Accepted (decimal s 0) else Exited EXIT_USAGE.
Proof.
  intros Hs Hne. unfold opt_q.
  pose proof (strtoul_decimal s "" Hs Hne I) as E.
  rewrite append_empty_r in E. rewrite E.
  pose proof (decimal_nonneg s 0 Hs ltac:(lia)) as Hd.
  destruct (Z.ltb_spec ULONG_MAX (decimal s 0)) as [L|L].
  - change (sint64 ULONG_MAX) with (-1). cbn.
    unfold ULONG_MAX in L.
    destruct (Z.leb_spec 1 (decimal s 0)); [|reflexivity].
    destruct (Z.leb_spec (decimal s 0) 32); [lia|reflexivity].
  - unfold ULONG_MAX in L.
    destruct (Z.leb_spec 1 (decimal s 0)) as [L1|L1];
      destruct (Z.leb_spec (decimal s 0) 32) as [L2|L2]; cbn.
    + assert (E64 : sint64 (decimal s 0) = decimal s 0).
      { unfold sint64. rewrite Z.mod_small by lia. lia. }
      rewrite E64.
      destruct (Z.ltb_spec (decimal s 0) 1); [lia|].
      destruct (Z.ltb_spec 32 (decimal s 0)); [lia|]. cbn.
      rewrite sint32_small by lia. reflexivity.
    + assert (E64 : sint64 (decimal s 0) < 1 \/ 32 < sint64 (decimal s 0)).
      { unfold sint64. Z.to_euclidean_division_equations. lia. }
      destruct (Z.ltb_spec (sint64 (decimal s 0)) 1); [reflexivity|].
      destruct (Z.ltb_spec 32 (sint64 (decimal s 0))); [reflexivity|lia].
    + assert (E64 : sint64 (decimal s 0) = decimal s 0).
      { unfold sint64. rewrite Z.mod_small by lia. lia. }
      rewrite E64.
      destruct (Z.ltb_spec (decimal s 0) 1); [reflexivity|lia].
    + lia.
Qed.

(** [case 'b'] on a decimal number below 2^63 and what follows it. *)
Lemma opt_b_decimal s t :
  all_digits s = true -> s <> EmptyString ->
  match t with String c _ => isdigit c = false | EmptyString => True end ->
  decimal s 0 < 2 ^ 63 ->
  opt_b (s ++ t) =
  match t with
  | EmptyString => check_blksize (decimal s 0)
  | String c EmptyString =>
    if (c =? "K")%char || (c =? "k")%char then
      check_blksize (sint64 (decimal s 0 * 1024))
    else if (c =? "M")%char || (c =? "m")%char then
      check_blksize (sint64 (sint64 (decimal s 0 * 1024) * 1024))
    else Exited EXIT_USAGE
  | String _ (String _ _) => Exited EXIT_USAGE
  end.
Proof.
  intros Hs Hne Ht Hd. unfold opt_b.
  rewrite (strtoul_decimal s t Hs Hne Ht).
  pose proof (decimal_nonneg s 0 Hs ltac:(lia)) as H0.
  destruct (Z.ltb_spec ULONG_MAX (decimal s 0)) as [L|L];
    [unfold ULONG_MAX in L; lia|].
  rewrite sint64_small by lia. reflexivity.
Qed.

Lemma check_blksize_multiple k :
  0 <= k -> k * 512 <= 1024 * 1024 * 16 ->
  check_blksize (k * 512) = Accepted (k * 512).
Proof.
  intros H0 H1. apply check_blksize_accepts.
  split; [apply Z.rem_mul; lia|]. split; [exact H1|].
  symmetry. apply sint32_small. lia.
Qed.

(** X18.  A decimal number [d] as argument of [-b] is taken in bytes, with
    the suffix [k] or [K] in units of 1024 bytes and with [m] or [M] in
    units of 1024 * 1024 bytes: the block size stored is the product, for
    every [d] whose product is at most 16 MiB (and is a multiple of 512,
    which suffixed values always are). *)
Theorem blksize_suffix_multiplies s :
  all_digits s = true -> s <> EmptyString ->
  (decimal s 0 mod 512 = 0 -> decimal s 0 <= 16 * 1024 * 1024 ->
   opt_b s = Accepted (decimal s 0)) /\
  (decimal s 0 <= 16 * 1024 ->
   opt_b (s ++ "k") = Accepted (decimal s 0 * 1024) /\
   opt_b (s ++ "K") = Accepted (decimal s 0 * 1024)) /\
  (decimal s 0 <= 16 ->
   opt_b (s ++ "m") = Accepted (decimal s 0 * 1024 * 1024) /\
   opt_b (s ++ "M") = Accepted (decimal s 0 * 1024 * 1024)).
Proof.
  intros Hs Hne.
  pose proof (decimal_nonneg s 0 Hs ltac:(lia)) as H0.
  split; [|split].
  - intros Hm Hd.
    pose proof (opt_b_decimal s "" Hs Hne I ltac:(lia)) as E.
    rewrite append_empty_r in E. rewrite E.
    rewrite (Z.div_mod (decimal s 0) 512) at 1 2 by lia.
    rewrite Hm, Z.add_0_r, Z.mul_comm.
    apply check_blksize_multiple;
      Z.to_euclidean_division_equations; lia.
  - intros Hd.
    assert (E : check_blksize (sint64 (decimal s 0 * 1024))
                = Accepted (decimal s 0 * 1024)).
    { rewrite sint64_small by lia.
      replace (decimal s 0 * 1024) with (decimal s 0 * 2 * 512) by lia.
      apply check_blksize_multiple; lia. }
    split.
    + rewrite (opt_b_decimal s "k" Hs Hne eq_refl ltac:(lia)). exact E.
    + rewrite (opt_b_decimal s "K" Hs Hne eq_refl ltac:(lia)). exact E.
  - intros Hd.
    assert (E : check_blksize (sint64 (sint64 (decimal s 0 * 1024) * 1024))
                = Accepted (decimal s 0 * 1024 * 1024)).
    { rewrite (sint64_small (decimal s 0 * 1024)) by lia.
      rewrite sint64_small by lia.
      replace (decimal s 0 * 1024 * 1024) with (decimal s 0 * 2048 * 512) by lia.
      apply check_blksize_multiple; lia. }
    split.
    + rewrite (opt_b_decimal s "m" Hs Hne eq_refl ltac:(lia)). exact E.
    + rewrite (opt_b_decimal s "M" Hs Hne eq_refl ltac:(lia)). exact E.
Qed.

Lemma sint32_multiple z : z mod 512 = 0 -> sint32 z mod 512 = 0.
Proof.
  unfold sint32. intros H. Z.to_euclidean_division_equations. lia.
Qed.

Lemma sint32_range z : - 2 ^ 31 <= sint32 z < 2 ^ 31.
Proof. unfold sint32. Z.to_euclidean_division_equations. lia. Qed.

Lemma check_blksize_512 tint v :
  check_blksize tint = Accepted v -> v mod 512 = 0 /\ - 2 ^ 31 <= v < 2 ^ 31.
Proof.
  intros H. apply check_blksize_accepts in H as (Hr & _ & ->).
  split; [|apply sint32_range]. apply sint32_multiple.
  apply Z.rem_divide in Hr; [|lia]. apply Z.mod_divide; [lia|exact Hr].
Qed.

Lemma opt_b_checked optarg v :
  opt_b optarg = Accepted v -> exists tint, check_blksize tint = Accepted v.
Proof.
  unfold opt_b. destruct (strtoul optarg) as [[x bsuffix] e].
  destruct (negb (e =? 0)); [discriminate|].
  destruct bsuffix as [|c [|c' r]]; [eauto| |discriminate].
  destruct ((c =? "K")%char || (c =? "k")%char); [eauto|].
  destruct ((c =? "M")%char || (c =? "m")%char); [eauto|discriminate].
Qed.

(** X19.  Whatever the argument of [-b], with or without a suffix, a block
    size that is accepted is a multiple of 512 (and fits an [int]). *)
Theorem accepted_blksize_is_multiple_of_512 optarg v :
  opt_b optarg = Accepted v -> v mod 512 = 0 /\ - 2 ^ 31 <= v < 2 ^ 31.
Proof.
  intros H. destruct (opt_b_checked optarg v H) as (tint & E).
  exact (check_blksize_512 tint v E).
Qed.

(** X20.  The bound of 16 MiB is tested on the [long long] before it is
    stored into the [int]: every multiple of 512 that fits an [int],
    however large, is the block size stored for some value that passes
    the tests of lines 305-317. *)
Theorem blksize_bound_is_tested_before_truncation v :
  v mod 512 = 0 -> 0 <= v < 2 ^ 31 ->
  check_blksize (v - 2 ^ 32) = Accepted v /\
  - 2 ^ 63 <= v - 2 ^ 32 < 2 ^ 63.
Proof.
  intros Hm Hv. split; [|lia]. apply check_blksize_accepts.
  split; [|split; [lia|]].
  - apply Z.rem_divide; [lia|].
    apply Z.mod_divide in Hm; [|lia]. destruct Hm as [k ->].
    exists (k - 2 ^ 23). lia.
  - unfold sint32. Z.to_euclidean_division_equations. lia.
Qed.

Lemma opt_q_exit optarg c : opt_q optarg = Exited c -> c = 1.
Proof.
  unfold opt_q. destruct (strtoul optarg) as [[x bsuffix] e].
  destruct (_ || _); [intros [= <-]; reflexivity | discriminate].
Qed.

Lemma check_blksize_exit tint c : check_blksize tint = Exited c -> c = 1.
Proof.
  unfold check_blksize.
  destruct (negb _); [intros [= <-]; reflexivity|].
  destruct (_ <? _); [intros [= <-]; reflexivity | discriminate].
Qed.

Lemma opt_b_exit optarg c : opt_b optarg = Exited c -> c = 1.
Proof.
  unfold opt_b. destruct (strtoul optarg) as [[x bsuffix] e].
  destruct (negb (e =? 0)); [intros [= <-]; reflexivity|].
  destruct bsuffix as [|ch [|ch' r]];
    [apply check_blksize_exit| |intros [= <-]; reflexivity].
  destruct ((ch =? "K")%char || (ch =? "k")%char); [apply check_blksize_exit|].
  destruct ((ch =? "M")%char || (ch =? "m")%char);
    [apply check_blksize_exit|intros [= <-]; reflexivity].
Qed.

Lemma option_case_exit opt optarg p c :
  option_case opt optarg p = Stopped c -> c = 1.
Proof.
  unfold option_case.
  destruct (opt =? "i")%char; [discriminate|].
  destruct (opt =? "o")%char; [discriminate|].
  destruct (opt =? "q")%char.
  { destruct (opt_q optarg) eqn:E; [discriminate|].
    intros [= <-]. exact (opt_q_exit _ _ E). }
  destruct (opt =? "b")%char.
  { destruct (opt_b optarg) eqn:E; [discriminate|].
    intros [= <-]. exact (opt_b_exit _ _ E). }
  destruct (opt =? "h")%char; [intros [= <-]; reflexivity | discriminate].
Qed.

Lemma option_loop_exit opts p c : option_loop opts p = Stopped c -> c = 1.
Proof.
  revert p. induction opts as [|[opt optarg] rest IH]; intros p; simpl;
    [discriminate|].
  destruct (option_case opt optarg p) as [p'|c'] eqn:E; [apply IH|].
  intros [= <-]. exact (option_case_exit _ _ _ _ E).
Qed.

(** X21.  [-h] among the options ends the process with status 1 before
    anything is copied, wherever it stands and whatever the other options
    are: an option before it that is refused ends the process with the
    same status. *)
Theorem help_ends_the_process_with_status_1 opts optarg p :
  In ("h"%char, optarg) opts -> option_loop opts p = Stopped 1.
Proof.
  revert p. induction opts as [|[opt arg] rest IH]; intros p Hin; [destruct Hin|].
  simpl. destruct (option_case opt arg p) as [p'|c] eqn:E.
  - destruct Hin as [[= -> ->]|Hin]; [discriminate E|]. apply IH, Hin.
  - rewrite (option_case_exit _ _ _ _ E). reflexivity.
Qed.

(** What the option loop keeps of the parameters. *)
Lemma option_case_range opt optarg p p' :
  option_case opt optarg p = Parsed p' ->
  1 <= maxqsize p <= 32 -> blksize p mod 512 = 0 ->
  1 <= maxqsize p' <= 32 /\ blksize p' mod 512 = 0.
Proof.
  unfold option_case. intros H Hq Hb.
  destruct (opt =? "i")%char; [injection H as <-; auto|].
  destruct (opt =? "o")%char; [injection H as <-; auto|].
  destruct (opt =? "q")%char.
  { destruct (opt_q optarg) eqn:E; [|discriminate].
    injection H as <-. cbn. split; [|exact Hb].
    exact (proj1 (opt_q_range _ _ E)). }
  destruct (opt =? "b")%char.
  { destruct (opt_b optarg) eqn:E; [|discriminate].
    injection H as <-. cbn. split; [exact Hq|].
    destruct (opt_b_checked _ _ E) as (tint & E').
    exact (proj1 (check_blksize_512 tint _ E')). }
  destruct (opt =? "h")%char; [discriminate|]. injection H as <-. auto.
Qed.

Lemma option_loop_range opts p0 p :
  1 <= maxqsize p0 <= 32 -> blksize p0 mod 512 = 0 ->
  option_loop opts p0 = Parsed p ->
  1 <= maxqsize p <= 32 /\ blksize p mod 512 = 0.
Proof.
  revert p0. induction opts as [|[opt optarg] rest IH]; intros p0 Hq Hb; simpl.
  - intros [= <-]. auto.
  - destruct (option_case opt optarg p0) as [p1|c] eqn:E; [|discriminate].
    destruct (option_case_range _ _ _ _ E Hq Hb) as [Hq1 Hb1].
    apply IH; assumption.
Qed.

(** X22.  When the option loop lets the program go on, the queue size it
    hands over lies between 1 and 32 and the block size is a multiple of
    512, whatever the options were and in whatever order. *)
Theorem parsed_parameters_are_in_range opts p :
  option_loop opts default_params = Parsed p ->
  1 <= maxqsize p <= 32 /\ blksize p mod 512 = 0.
Proof.
  apply option_loop_range; [cbn; unfold DEFAULT_MAXQUEUESIZE; lia | reflexivity].
Qed.

End Options.

(** ** The two sides (lines 338-415) *)

Section Sides.
Import Startup.

Lemma classify_sides fs maxqsize inputfile outputfile garbage r :
  classify fs maxqsize inputfile outputfile garbage = Started r ->
  (s_iseekable r = 0 /\ s_imaxqsize r = 1 \/
   s_iseekable r = 1 /\ s_imaxqsize r = maxqsize) /\
  (s_oseekable r = 0 /\ s_omaxqsize r = 1 \/
   s_oseekable r = 1 /\ s_omaxqsize r = maxqsize) /\
  (inputfile = None -> s_iseekable r = 0 /\ s_ifd r = STDIN_FILENO) /\
  (inputfile <> None -> s_ifd r = -1) /\
  (outputfile = None -> s_oseekable r = 0 /\ s_ofd r = STDOUT_FILENO) /\
  (outputfile <> None -> s_ofd r = -1).
Proof.
  unfold classify.
  destruct inputfile as [ipath|]; [destruct (fs ipath) as [mi|ei]|];
    try discriminate.
  all: try destruct (seekable_mode mi); cbn.
  all: destruct outputfile as [opath|];
         [destruct (fs opath) as [mo|eo];
          [|destruct (negb (eo =? ENOENT)); [discriminate|]]|].
  all: cbn; repeat match goal with
       | |- context [seekable_mode ?m] => destruct (seekable_mode m)
       end; cbn.
  all: intros [= <-]; cbn.
  all: repeat split; auto; try discriminate; try (intros H; contradiction).
Qed.

(** X23.  When the classification lets the program go on, each side is
    either non-seekable with a queue of one slot or seekable with a queue
    of [maxqsize] slots; a side without a file name is non-seekable and
    uses the standard stream, and a side with a file name has no
    descriptor yet. *)
Theorem sides_are_classified fs maxqsize inputfile outputfile garbage r :
  classify fs maxqsize inputfile outputfile garbage = Started r ->
  (s_iseekable r = 0 /\ s_imaxqsize r = 1 \/
   s_iseekable r = 1 /\ s_imaxqsize r = maxqsize) /\
  (s_oseekable r = 0 /\ s_omaxqsize r = 1 \/
   s_oseekable r = 1 /\ s_omaxqsize r = maxqsize) /\
  (inputfile = None -> s_iseekable r = 0 /\ s_ifd r = STDIN_FILENO) /\
  (inputfile <> None -> s_ifd r = -1) /\
  (outputfile = None -> s_oseekable r = 0 /\ s_ofd r = STDOUT_FILENO) /\
  (outputfile <> None -> s_ofd r = -1).
Proof. intros H. exact (classify_sides _ _ _ _ _ _ H). Qed.

(** X24.  The classification ends the process, with [EXIT_FAILURE],
    exactly when [stat] fails on the input path (whatever the error, a
    missing file too) or fails on the output path with another error than
    [ENOENT]. *)
Theorem classification_fails_on_stat_errors fs maxqsize inputfile outputfile
    garbage :
  (exists c, classify fs maxqsize inputfile outputfile garbage = Failed c) <->
  (exists path e, inputfile = Some path /\ fs path = StatErr e) \/
  (exists path e, outputfile = Some path /\ fs path = StatErr e /\ e <> ENOENT).
Proof.
  unfold classify. split.
  - intros [c H]. revert H.
    destruct inputfile as [ipath|]; [destruct (fs ipath) as [mi|ei] eqn:Ei|].
    2:{ intros _. left. eauto. }
    all: try destruct (seekable_mode mi); cbn.
    all: destruct outputfile as [opath|];
           [destruct (fs opath) as [mo|eo] eqn:Eo;
            [|destruct (Z.eqb_spec eo ENOENT)]|].
    all: cbn; repeat match goal with
         | |- context [seekable_mode ?m] => destruct (seekable_mode m)
         end; cbn; try discriminate.
    all: intros _; right; eauto.
  - intros [(path & e & -> & E)|(path & e & -> & E & Hne)].
    + rewrite E. eauto.
    + rewrite E, (proj2 (Z.eqb_neq _ _) Hne). cbn.
      destruct inputfile as [ipath|]; [destruct (fs ipath) as [mi|ei]|];
        cbn; eauto.
      destruct (negb (seekable_mode mi)); eauto.
Qed.

Lemma classify_exit fs maxqsize inputfile outputfile garbage c :
  classify fs maxqsize inputfile outputfile garbage = Failed c ->
  c = EXIT_FAILURE.
Proof.
  unfold classify.
  destruct inputfile as [ipath|]; [destruct (fs ipath) as [mi|ei]|].
  2:{ intros [= <-]. reflexivity. }
  all: try destruct (seekable_mode mi); cbn.
  all: destruct outputfile as [opath|];
         [destruct (fs opath) as [mo|eo];
          [|destruct (negb (eo =? ENOENT))]|].
  all: cbn; repeat match goal with
       | |- context [seekable_mode ?m] => destruct (seekable_mode m)
       end; cbn; try discriminate.
  all: intros [= <-]; reflexivity.
Qed.

End Sides.

(** ** [main] as a whole *)

Lemma main_loop_exit_code cfg os n s c s' :
  main_loop cfg os n s = Exit c s' -> c = EXIT_SUCCESS \/ c = EXIT_FAILURE.
Proof.
  revert s. induction n as [|n IH]; intros s; [discriminate|].
  rewrite main_loop_S.
  destruct (turn cfg os s) as [[|] s1|c1 s1] eqn:E.
  - unfold epilogue, gettimeofday, syscall, note, modify, bind, exit.
    destruct (os (clock s1) =? -1); intros [= <- _]; auto.
  - apply IH.
  - intros [= <- _]. right. exact (turn_fails cfg os _ _ _ E).
Qed.

Lemma run_exit_code cfg os ifd ofd n c s :
  run cfg os ifd ofd n = Exit c s -> c = EXIT_SUCCESS \/ c = EXIT_FAILURE.
Proof.
  unfold run. unfold bind at 1.
  destruct (setup cfg os ifd ofd start_state) as [[] s0|c0 s0] eqn:E.
  - apply main_loop_exit_code.
  - intros [= <- _]. right. exact (setup_fails cfg os _ _ _ _ _ E).
Qed.

(** X25.  [main] ends with status 0 or 1 and no other: 1 for every
    refusal of an option, for [-h], and for every call that fails, at
    start or in the loop; 0 only after the queues have been set up and
    the loop was left through its [break], the end of the data seen and
    both counters at zero. *)
Theorem main_ends_with_status_0_or_1 opts fs garbage os n c s :
  main opts fs garbage os n = Exit c s ->
  (c = 0 \/ c = 1) /\
  (c = 0 -> eof s = 1 /\ iqsize s = 0 /\ oqsize s = 0 /\
            exists p, Cmdline.option_loop opts Cmdline.default_params
                      = Cmdline.Parsed p).
Proof.
  unfold main.
  destruct (Cmdline.option_loop opts Cmdline.default_params) as [p|c0] eqn:Eo.
  2:{ intros [= <- _]. rewrite (option_loop_exit _ _ _ Eo).
      split; [auto|discriminate]. }
  destruct (Startup.classify _ _ _ _ _) as [r|c0] eqn:Ec.
  2:{ intros [= <- _]. rewrite (classify_exit _ _ _ _ _ _ Ec).
      split; [auto|discriminate]. }
  intros H. split; [exact (run_exit_code _ _ _ _ _ _ _ H)|].
  intros ->. destruct (run_success _ _ _ _ _ _ H) as (s1 & ? & _ & Hd & ->).
  unfold drained in Hd. rewrite !andb_true_iff, !Z.eqb_eq in Hd.
  cbn. repeat split; try tauto. eauto.
Qed.

(** X26.  The main loop that [main] starts works within the limits of
    the command line: each queue has between 1 and 32 slots, exactly one
    on a side that is not seekable, and the block size is a multiple of
    512. *)
Theorem main_loop_is_started_within_limits opts fs garbage p r :
  Cmdline.option_loop opts Cmdline.default_params = Cmdline.Parsed p ->
  Startup.classify fs (Cmdline.maxqsize p) (Cmdline.inputfile p)
    (Cmdline.outputfile p) garbage = Startup.Started r ->
  (1 <= imaxqsize (config_of p r) <= 32)%nat /\
  (1 <= omaxqsize (config_of p r) <= 32)%nat /\
  (iseekable (config_of p r) = 0 \/ iseekable (config_of p r) = 1) /\
  (oseekable (config_of p r) = 0 \/ oseekable (config_of p r) = 1) /\
  (iseekable (config_of p r) = 0 -> imaxqsize (config_of p r) = 1%nat) /\
  (oseekable (config_of p r) = 0 -> omaxqsize (config_of p r) = 1%nat) /\
  blksize (config_of p r) mod 512 = 0.
Proof.
  intros Ho Hc.
  assert (Hd : 1 <= Cmdline.maxqsize Cmdline.default_params <= 32)
    by (cbn; unfold DEFAULT_MAXQUEUESIZE; lia).
  destruct (option_loop_range opts Cmdline.default_params p Hd eq_refl Ho)
    as [Hq Hb].
  destruct (classify_sides _ _ _ _ _ _ Hc) as (Hi & Hou & _).
  unfold config_of. cbn.
  destruct Hi as [[-> ->]|[-> ->]], Hou as [[-> ->]|[-> ->]].
  all: repeat split; auto; try lia; try discriminate.
Qed.

(** ** The inner loop and its cursor (lines 751, 824-893) *)

Lemma oque_scan_cursor cfg os i fuel s :
  match oque_scan cfg os fuel i s with
  | Ok _ s' => (j s <= j s')%nat /\ (j s' <= Nat.max (j s) (imaxqsize cfg))%nat
  | Exit _ _ => True
  end.
Proof.
  revert s. induction fuel as [|fuel IH]; intros s; [simpl; lia|].
  simpl. unfold_sched. cbn.
  destruct (Nat.ltb_spec (j s) (imaxqsize cfg)) as [Hj|Hj]; [|lia].
  repeat step; cbn; auto; try lia.
  all: match goal with
       | |- context [oque_scan _ _ ?f ?a ?t] =>
         specialize (IH t); destruct (oque_scan cfg os f a t); [|exact I]
       end.
  all: cbn in IH; lia.
Qed.

(** X27.  The [while] loop of line 824 ends by its own test: it takes at
    most [imaxqsize - j] turns, so that more turns change nothing; and it
    moves the cursor [j] forward only, never past the end of the input
    queue. *)
Theorem inner_loop_ends_by_its_test cfg os i fuel s :
  (imaxqsize cfg - j s <= fuel)%nat ->
  oque_scan cfg os fuel i s = oque_scan cfg os (imaxqsize cfg - j s) i s /\
  forall s', oque_scan cfg os fuel i s = Ok tt s' ->
    (j s <= j s')%nat /\ (j s' <= Nat.max (j s) (imaxqsize cfg))%nat.
Proof.
  intros Hf. split.
  - apply oque_scan_fuel; lia.
  - intros s' E. pose proof (oque_scan_cursor cfg os i fuel s) as H.
    rewrite E in H. exact H.
Qed.

(** ** The end of a run whose requests all complete *)

(** X28.  On a seekable output, once [eof] is set and from then on every
    call answers 0 (requests complete, nothing more is read), the main
    loop is left after at most [2 * iqsize + oqsize + 1] turns and [main]
    returns [EXIT_SUCCESS]. *)
Theorem quiet_run_ends_in_success cfg os s :
  (0 < omaxqsize cfg)%nat -> oseekable cfg = 1 ->
  counted cfg s -> eof s = 1 -> quiet os (clock s) ->
  exists s',
    main_loop cfg os (S (Z.to_nat (2 * iqsize s + oqsize s))) s
    = Exit EXIT_SUCCESS s'.
Proof.
  intros Ho Hseek Hc He Hq.
  apply main_loop_drains; [exact Ho | exact Hseek | |].
  - split; [exact Hc|]. split; [exact He|exact Hq].
  - destruct (pending_nonneg cfg s Hc). unfold pending. lia.
Qed.

(** ** Setup (lines 426-549) *)

Lemma init_que_fd os n seekable tmpfd s :
  match init_que os n seekable tmpfd s with
  | Ok l _ =>
    Forall (fun q => fd q <> -1 /\
                     (seekable = 0 -> tmpfd <> -1 -> fd q = tmpfd)) l
  | Exit _ _ => True
  end.
Proof.
  revert s. induction n as [|n IH]; intros s; simpl; [constructor|].
  unfold malloc, open, syscall, bind, ret, exit. cbn.
  repeat step; auto.
  all: match goal with
       | |- context [init_que _ ?k ?a ?b ?t] =>
         specialize (IH t); destruct (init_que os k a b t); [|exact I]
       end.
  all: constructor; [|exact IH]; cbn; zify_tests.
  all: split; [assumption|]; intros H1 H2; try reflexivity.
  exfalso.
  match goal with H : _ && _ = false |- _ =>
    rewrite (proj2 (Z.eqb_eq _ _) H1), (proj2 (Z.eqb_neq _ _) H2) in H;
    discriminate H end.
Qed.

Lemma setup_fds cfg os ifd ofd :
  match setup cfg os ifd ofd start_state with
  | Ok _ s =>
    Forall (fun q => fd q <> -1 /\
                     (iseekable cfg = 0 -> ifd <> -1 -> fd q = ifd)) (ique s) /\
    Forall (fun q => fd q <> -1 /\
                     (oseekable cfg = 0 -> ofd <> -1 -> fd q = ofd)) (oque s)
  | Exit _ _ => True
  end.
Proof.
  unfold setup, malloc, sigemptyset, sigaction, gettimeofday, syscall.
  unfold bind at 1. cbn. step; [exact I|].
  unfold bind at 1. cbn. step; [exact I|].
  unfold bind at 1.
  match goal with |- context [init_que _ ?m ?a ?b ?t] =>
    pose proof (init_que_shape os m a b t) as Hs1;
    pose proof (init_que_fd os m a b t) as Hi;
    destruct (init_que os m a b t) as [qi s1|]; [|exact I] end.
  destruct Hs1 as (_ & _ & E1).
  unfold bind at 1, modify at 1. unfold bind at 1.
  match goal with |- context [init_que _ ?m ?a ?b ?t] =>
    pose proof (init_que_shape os m a b t) as Hs2;
    pose proof (init_que_fd os m a b t) as Ho;
    destruct (init_que os m a b t) as [qo s2|]; [|exact I] end.
  destruct Hs2 as (_ & _ & E2).
  unfold bind, modify, ret, exit. cbn.
  repeat step; try exact I.
  cbn. split; [rewrite E2; cbn; exact Hi | exact Ho].
Qed.

(** X29.  When the setup succeeds, both queues have their full length,
    every slot is Free and has a descriptor, all counters and offsets are
    zero and nothing was allocated or submitted; a side that is not
    seekable and uses a standard stream has that stream in every slot.
    When the setup fails, the status is [EXIT_FAILURE] and nothing was
    submitted either. *)
Theorem setup_leaves_idle_queues cfg os ifd ofd :
  match setup cfg os ifd ofd start_state with
  | Ok _ s =>
    length (ique s) = imaxqsize cfg /\ length (oque s) = omaxqsize cfg /\
    Forall is_free (ique s) /\ Forall is_free (oque s) /\
    Forall (fun q => fd q <> -1) (ique s) /\
    Forall (fun q => fd q <> -1) (oque s) /\
    (iseekable cfg = 0 -> ifd <> -1 -> Forall (fun q => fd q = ifd) (ique s)) /\
    (oseekable cfg = 0 -> ofd <> -1 -> Forall (fun q => fd q = ofd) (oque s)) /\
    irqnum s = 0 /\ orqnum s = 0 /\ ioff s = 0 /\ ooff s = 0 /\
    iqsize s = 0 /\ oqsize s = 0 /\ eof s = 0 /\ trace s = []
  | Exit c s => c = EXIT_FAILURE /\ trace s = []
  end.
Proof.
  pose proof (setup_state cfg os ifd ofd) as H.
  pose proof (setup_fds cfg os ifd ofd) as Hfd.
  pose proof (setup_fails cfg os ifd ofd start_state) as Hf.
  destruct (setup cfg os ifd ofd start_state) as [[] s|c s] eqn:E.
  2:{ split; [exact (Hf _ _ eq_refl) | exact H]. }
  destruct H as (qi & qo & k & -> & Li & Fi & Lo & Fo). cbn in *.
  destruct Hfd as [Hi Ho].
  repeat split; auto.
  - eapply Forall_impl; [exact Hi|]. cbn. tauto.
  - eapply Forall_impl; [exact Ho|]. cbn. tauto.
  - intros H1 H2. eapply Forall_impl; [exact Hi|]. cbn. intros q [_ Hq]. auto.
  - intros H1 H2. eapply Forall_impl; [exact Ho|]. cbn. intros q [_ Hq]. auto.
Qed.

(** ** Writes and the reads they carry *)

(** X30.  Whatever the kinds of input and output, the k-th write of a run
    has number k, carries a byte count that is not zero (for a block size
    that is not zero modulo 2^64), and carries the buffer with which the
    read it names was first submitted, for a whole block, before it. *)
Theorem every_write_carries_its_read cfg os ifd ofd n k w :
  writes (trace (final_state (run cfg os ifd ofd n))) !! k = Some w ->
  w_rq w = Z.of_nat k + 1 /\
  0 <= w_nbytes w < 2 ^ 64 /\
  (wrap64 (blksize cfg) <> 0 -> w_nbytes w <> 0) /\
  exists cbr,
    In (EvRead (w_src w) cbr) (trace (final_state (run cfg os ifd ofd n))) /\
    aio_buf cbr = aio_buf (w_cb w) /\
    aio_nbytes cbr = wrap64 (blksize cfg) /\
    aio_offset cbr = read_offset cfg (w_src w).
Proof.
  intros Hk.
  destruct (run_write_at cfg os ifd ofd n k w Hk) as (pre & E & Hin & H).
  destruct H as (Hrq & _ & (cbr & Hr & Hb & Hn & Ho) & _ & Hrng & Hnz).
  rewrite E, length_take in Hrq. apply lookup_lt_Some in Hk.
  split; [lia|]. split; [exact Hrng|]. split; [exact Hnz|].
  exists cbr. auto.
Qed.

(** * The further properties on the example runs *)

(** X1 on the run of [os_two_blocks], at the test of turn 3. *)
Lemma queue_depth_is_respected_witness :
  0 <= iqsize (final_state (run_to_test cfg_pipe os_two_blocks 0 1 2)) <= 1 /\
  0 <= oqsize (final_state (run_to_test cfg_pipe os_two_blocks 0 1 2)) <= 1.
Proof.
  apply (queue_depth_is_respected cfg_pipe os_two_blocks 0 1 2 false).
  vm_compute. reflexivity.
Defined.

(** X2 on the same run. *)
Lemma live_buffers_are_bounded_witness :
  count is_alloc (trace (final_state (run_to_test cfg_pipe os_two_blocks 0 1 2)))
  - count is_release
      (trace (final_state (run_to_test cfg_pipe os_two_blocks 0 1 2)))
  <= 2.
Proof.
  apply (live_buffers_are_bounded cfg_pipe os_two_blocks 0 1 2 false).
  vm_compute. reflexivity.
Defined.

(** X3 on the run of [os_two_blocks]: when buffer 4096 is released it was
    allocated once and not released before. *)
Lemma free_takes_an_allocated_buffer_witness :
  count (is_release_of 4096)
    (take 5 (trace (final_state (run cfg_pipe os_two_blocks 0 1 6))))
  < count (is_alloc_of 4096)
      (take 5 (trace (final_state (run cfg_pipe os_two_blocks 0 1 6)))).
Proof.
  apply (free_takes_an_allocated_buffer cfg_pipe os_two_blocks 0 1 6 _ 4096
           (drop 6 (trace (final_state (run cfg_pipe os_two_blocks 0 1 6))))).
  vm_compute. reflexivity.
Defined.

(** X4 on the run of [os_two_blocks], which returns in turn 7. *)
Lemma success_leaves_nothing_behind_witness :
  eof (final_state (run cfg_pipe os_two_blocks 0 1 7)) = 1 /\
  Forall is_free (ique (final_state (run cfg_pipe os_two_blocks 0 1 7))) /\
  Forall is_free (oque (final_state (run cfg_pipe os_two_blocks 0 1 7))) /\
  forall p,
    count (is_alloc_of p) (trace (final_state (run cfg_pipe os_two_blocks 0 1 7)))
    = count (is_release_of p)
        (trace (final_state (run cfg_pipe os_two_blocks 0 1 7))).
Proof.
  apply (success_leaves_nothing_behind cfg_pipe os_two_blocks 0 1 7).
  vm_compute. reflexivity.
Defined.

(** X6 on the run of [os_second_first]: reads 2 and 1 are written at 512
    and at 0. *)
Lemma seekable_input_offsets_differ_witness :
  w_offset (Write 1 2 (Aiocb 5 0 8192 512 512))
  <> w_offset (Write 2 1 (Aiocb 6 0 4096 0 512)).
Proof.
  apply (seekable_input_offsets_differ cfg_files os_second_first (-1) (-1) 4
           0%nat 1%nat).
  - reflexivity.
  - vm_compute. reflexivity.
  - vm_compute. reflexivity.
  - vm_compute. reflexivity.
  - lia.
  - vm_compute. discriminate.
  - vm_compute. discriminate.
Defined.

(** X7 on the same run: the second read is asked at offset 512. *)
Lemma reads_end_with_their_block_witness :
  wrap64 (aio_offset (Aiocb 4 0 8192 512 512)
          + aio_nbytes (Aiocb 4 0 8192 512 512))
  = wrap64 (2 * blksize cfg_files).
Proof.
  destruct (reads_end_with_their_block cfg_files os_second_first (-1) (-1) 4 2
              (Aiocb 4 0 8192 512 512)) as (_ & _ & H & _).
  - vm_compute. right. right. right. left. reflexivity.
  - apply H. reflexivity.
Defined.

(** X8 on the run of [os_two_blocks]: 1024 bytes are reported. *)
Lemma reported_total_is_what_was_submitted_witness :
  ooff (final_state (run cfg_pipe os_two_blocks 0 1 7)) = 1024.
Proof.
  destruct (reported_total_is_what_was_submitted cfg_pipe os_two_blocks 0 1 7
              (final_state (run cfg_pipe os_two_blocks 0 1 7))) as [H _].
  - vm_compute. reflexivity.
  - rewrite H. vm_compute. reflexivity.
Defined.

(** X9 on the run of [os_two_blocks] from the end of turn 6, where [eof]
    is set: the last turn starts no read. *)
Lemma no_read_starts_after_eof_witness :
  irqnum (final_state
            (main_loop cfg_pipe os_two_blocks 1
               (final_state (run cfg_pipe os_two_blocks 0 1 6))))
  = irqnum (final_state (run cfg_pipe os_two_blocks 0 1 6)).
Proof.
  apply (no_read_starts_after_eof cfg_pipe os_two_blocks 1
           (final_state (run cfg_pipe os_two_blocks 0 1 6))).
  vm_compute. reflexivity.
Defined.

(** X10 on the run of [os_cancelled]: read 1 is dropped. *)
Lemma cancelled_read_is_dropped_witness :
  exists s' q',
    ique_visit cfg_pipe os_cancelled 0 s_cancelled = Ok tt s' /\
    ique s' !! 0%nat = Some q' /\
    status q' = QUEITEM_FREE /\ buffer q' = NULL /\
    trace s' = trace s_cancelled ++ [EvFree 4096].
Proof.
  destruct (cancelled_read_is_dropped cfg_pipe os_cancelled s_cancelled 0
              (item (ique s_cancelled) 0))
    as (s' & q' & E & Hq & Hs & Hb & _ & _ & Ht & _).
  - vm_compute. reflexivity.
  - vm_compute. reflexivity.
  - vm_compute. reflexivity.
  - exists s', q'. repeat (split; [assumption|]).
    rewrite Ht. vm_compute. reflexivity.
Defined.

(** X11 on the state [s_full] when the write has completed: with the
    answers of [os_to_file] the slot is released and [eof] stays 0. *)
Lemma completed_write_is_released_witness :
  exists s' q',
    oque_visit cfg_to_file os_to_file 0 s_full = Ok tt s' /\
    oque s' !! 0%nat = Some q' /\
    status q' = QUEITEM_FREE /\ buffer q' = NULL /\
    trace s' = trace s_full ++ [EvFree 4096] /\ eof s' = 0.
Proof.
  destruct (completed_write_is_released cfg_to_file os_to_file s_full 0
              (item (oque s_full) 0))
    as (s' & q' & E & Hq & Hs & Hb & _ & Ht & _ & _ & _ & _ & He).
  - vm_compute. reflexivity.
  - vm_compute. reflexivity.
  - vm_compute. reflexivity.
  - exists s', q'. repeat (split; [assumption|]).
    rewrite He. vm_compute. reflexivity.
Defined.

(** X12 on the state [s_full] when [aio_error] answers [EIO]. *)
Lemma unknown_error_ends_the_process_witness :
  exists s',
    oque_visit cfg_to_file os_broken 0 s_full = Exit EXIT_FAILURE s' /\
    trace s' = trace s_full.
Proof.
  destruct (unknown_error_ends_the_process cfg_to_file os_broken s_full 0
              (item (oque s_full) 0)) as [_ H].
  - vm_compute. reflexivity.
  - vm_compute. discriminate.
  - vm_compute. discriminate.
  - vm_compute. discriminate.
  - destruct H as (s' & E & Ht & _).
    + vm_compute. reflexivity.
    + vm_compute. discriminate.
    + exists s'. split; assumption.
Defined.

(** X13 on the run of [os_two_blocks] in turn 2: read 1 returns the whole
    block. *)
Lemma full_block_becomes_ready_witness :
  exists s' q',
    ique_visit cfg_pipe os_two_blocks 0 s_short = Ok tt s' /\
    ique s' !! 0%nat = Some q' /\
    status q' = QUEITEM_READY /\ readyb q' = 512.
Proof.
  destruct (full_block_becomes_ready cfg_pipe os_two_blocks s_short 0
              (item (ique s_short) 0) 512)
    as (s' & q' & E & Hq & Hs & Hr & _).
  - vm_compute. reflexivity.
  - vm_compute. reflexivity.
  - vm_compute. reflexivity.
  - vm_compute. reflexivity.
  - vm_compute. discriminate.
  - lia.
  - vm_compute. reflexivity.
  - vm_compute. reflexivity.
  - exists s', q'. repeat (split; [assumption|]). exact Hr.
Defined.

(** X14 on the run of [os_second_first]: the first write goes to
    descriptor 5, which the setup opened for the output slot. *)
Lemma requests_go_to_their_own_side_witness :
  In (aio_fildes (Aiocb 5 0 8192 512 512))
    (fds (oque (final_state
                  (setup cfg_files os_second_first (-1) (-1) start_state)))).
Proof.
  destruct (requests_go_to_their_own_side cfg_files os_second_first (-1) (-1) 4
              (final_state
                 (setup cfg_files os_second_first (-1) (-1) start_state)))
    as [_ H].
  - vm_compute. reflexivity.
  - apply (H 1 2). vm_compute. do 4 right. left. reflexivity.
Defined.

Lemma s_gap_stuck : stuck cfg_pipe s_gap.
Proof.
  split; [vm_compute; reflexivity|]. split; [vm_compute; reflexivity|].
  split; [|split; [|vm_compute; discriminate]].
  - vm_compute. constructor; [|constructor].
    left. split; [reflexivity|]. split; [reflexivity|discriminate].
  - vm_compute. constructor; [reflexivity|constructor].
Defined.

(** X15 on the run of [os_cancelled]: read 1 was cancelled, read 2 is
    Ready and is never written, however many turns follow. *)
Lemma gap_in_read_numbers_blocks_the_loop_witness :
  exists jj, main_loop cfg_pipe os_cancelled 1000 s_gap = Ok tt (set_j jj s_gap).
Proof.
  exact (gap_in_read_numbers_blocks_the_loop cfg_pipe os_cancelled s_gap 1000
           s_gap_stuck).
Defined.

(** X16 on the argument [" +8"], which [strtoul] reads to its end. *)
Lemma accepted_queue_size_is_1_to_32_witness :
  1 <= 8 <= 32 /\ snd (fst (Cmdline.strtoul " +8")) = EmptyString.
Proof.
  apply (accepted_queue_size_is_1_to_32 " +8" 8). vm_compute. reflexivity.
Defined.

(** X17 on the arguments ["32"] and ["33"]. *)
Lemma decimal_queue_size_option_witness :
  Cmdline.opt_q "32" = Cmdline.Accepted 32 /\
  Cmdline.opt_q "33" = Cmdline.Exited EXIT_USAGE.
Proof.
  split.
  - rewrite (decimal_queue_size_option "32"); [|reflexivity|discriminate].
    vm_compute. reflexivity.
  - rewrite (decimal_queue_size_option "33"); [|reflexivity|discriminate].
    vm_compute. reflexivity.
Defined.

(** X18 on the number 4: 4 KiB and 4 MiB. *)
Lemma blksize_suffix_multiplies_witness :
  Cmdline.opt_b "4k" = Cmdline.Accepted 4096 /\
  Cmdline.opt_b "4M" = Cmdline.Accepted 4194304.
Proof.
  destruct (blksize_suffix_multiplies "4") as (_ & Hk & Hm);
    [reflexivity | discriminate |].
  split.
  - apply Hk. vm_compute. discriminate.
  - apply Hm. vm_compute. discriminate.
Defined.

(** X19 on the argument ["1024"]. *)
Lemma accepted_blksize_is_multiple_of_512_witness :
  1024 mod 512 = 0 /\ - 2 ^ 31 <= 1024 < 2 ^ 31.
Proof.
  apply (accepted_blksize_is_multiple_of_512 "1024" 1024).
  vm_compute. reflexivity.
Defined.

(** X20 at 1 GiB, which is what the argument ["-3221225472"] stores. *)
Lemma blksize_bound_is_tested_before_truncation_witness :
  Cmdline.check_blksize (1073741824 - 2 ^ 32) = Cmdline.Accepted 1073741824 /\
  Cmdline.opt_b "-3221225472" = Cmdline.Accepted 1073741824.
Proof.
  split.
  - apply (blksize_bound_is_tested_before_truncation 1073741824).
    + reflexivity.
    + lia.
  - vm_compute. reflexivity.
Defined.

(** X21 on the command line [-b 4k -h]. *)
Lemma help_ends_the_process_with_status_1_witness :
  Cmdline.option_loop [("b"%char, "4k"%string); ("h"%char, ""%string)]
    Cmdline.default_params
  = Cmdline.Stopped 1.
Proof.
  apply (help_ends_the_process_with_status_1 _ ""%string).
  right. left. reflexivity.
Defined.

(** X22 on the command line [-q 4 -b 4k]. *)
Lemma parsed_parameters_are_in_range_witness :
  1 <= 4 <= 32 /\ 4096 mod 512 = 0.
Proof.
  apply (parsed_parameters_are_in_range
           [("q"%char, "4"%string); ("b"%char, "4k"%string)]
           (Cmdline.Globalparams 4096 4 None None)).
  vm_compute. reflexivity.
Defined.

(** X23 on a regular file copied to standard output. *)
Lemma sides_are_classified_witness :
  exists r,
    Startup.classify fs_regular_in 8 (Some "in"%string) None 0
      = Startup.Started r /\
    Startup.s_iseekable r = 1 /\ Startup.s_imaxqsize r = 8 /\
    Startup.s_oseekable r = 0 /\ Startup.s_omaxqsize r = 1 /\
    Startup.s_ofd r = Startup.STDOUT_FILENO /\ Startup.s_ifd r = -1.
Proof.
  exists (Startup.Sides 1 8 (-1) 0 1 1).
  destruct (sides_are_classified fs_regular_in 8 (Some "in"%string) None 0
              (Startup.Sides 1 8 (-1) 0 1 1))
    as (Hi & Ho & _ & Hfd & Hout & _).
  - vm_compute. reflexivity.
  - split; [vm_compute; reflexivity|].
    destruct Hi as [[Hi _]|[Hi Hq]]; [discriminate Hi|].
    destruct (Hout eq_refl) as [Hs Hd].
    destruct Ho as [[_ Hoq]|[Ho _]]; [|rewrite Hs in Ho; discriminate Ho].
    repeat split; auto.
Defined.

(** X25 on the command line [-b 512] with the answers of
    [os_two_blocks]: status 0, the end of the data seen. *)
Lemma main_ends_with_status_0_or_1_witness :
  eof (final_state (main opts_pipe fs_regular_in 0 os_two_blocks 7)) = 1.
Proof.
  destruct (main_ends_with_status_0_or_1 opts_pipe fs_regular_in 0
              os_two_blocks 7 0
              (final_state (main opts_pipe fs_regular_in 0 os_two_blocks 7)))
    as [_ H].
  - vm_compute. reflexivity.
  - exact (proj1 (H eq_refl)).
Defined.

(** X26 on the same command line: one slot on each side. *)
Lemma main_loop_is_started_within_limits_witness :
  imaxqsize (config_of (Cmdline.Globalparams 512 8 None None)
               (Startup.Sides 0 1 0 0 1 1)) = 1%nat.
Proof.
  destruct (main_loop_is_started_within_limits opts_pipe fs_regular_in 0
              (Cmdline.Globalparams 512 8 None None)
              (Startup.Sides 0 1 0 0 1 1))
    as (_ & _ & _ & _ & Hi & _).
  - vm_compute. reflexivity.
  - vm_compute. reflexivity.
  - apply Hi. reflexivity.
Defined.

(** X27 on the state [s_ready]: five turns of fuel do what one does, and
    the cursor ends at 1. *)
Lemma inner_loop_ends_by_its_test_witness :
  oque_scan cfg_pipe os_two_blocks 5 0 s_ready
  = oque_scan cfg_pipe os_two_blocks (imaxqsize cfg_pipe - j s_ready) 0 s_ready.
Proof.
  apply (inner_loop_ends_by_its_test cfg_pipe os_two_blocks 0 5 s_ready).
  vm_compute. lia.
Defined.

Lemma s_drain_counted : counted cfg_to_file s_drain.
Proof.
  constructor; try (vm_compute; reflexivity).
  - vm_compute. constructor; [right; right; reflexivity|constructor].
  - vm_compute. constructor; [left; reflexivity|constructor].
Defined.

(** X28 on the run of [os_full] after the file was found too large: the
    read still in progress finds no more data and [main] returns. *)
Lemma quiet_run_ends_in_success_witness :
  exists s',
    main_loop cfg_to_file os_full
      (S (Z.to_nat (2 * iqsize s_drain + oqsize s_drain))) s_drain
    = Exit EXIT_SUCCESS s'.
Proof.
  apply (quiet_run_ends_in_success cfg_to_file os_full s_drain).
  - vm_compute. lia.
  - reflexivity.
  - exact s_drain_counted.
  - vm_compute. reflexivity.
  - intros k Hk. apply script_past.
    assert (Hc : clock s_drain = 18%nat) by (vm_compute; reflexivity).
    rewrite Hc in Hk. exact Hk.
Defined.

(** X30 on the run of [os_second_first]: the first write carries read 2
    and the buffer that read 2 was submitted with. *)
Lemma every_write_carries_its_read_witness :
  w_rq (Write 1 2 (Aiocb 5 0 8192 512 512)) = Z.of_nat 0 + 1 /\
  0 <= w_nbytes (Write 1 2 (Aiocb 5 0 8192 512 512)) < 2 ^ 64.
Proof.
  destruct (every_write_carries_its_read cfg_files os_second_first (-1) (-1) 4
              0%nat (Write 1 2 (Aiocb 5 0 8192 512 512)))
    as (Hrq & Hn & _).
  - vm_compute. reflexivity.
  - split; assumption.
Defined.

(** ** Byte counts (lines 577-590, 763, 848) *)

Lemma returned_app d rq l1 l2 :
  returned d rq (l1 ++ l2) = returned d rq l1 + returned d rq l2.
Proof.
  induction l1 as [|r l IH]; simpl; [reflexivity|].
  destruct r; rewrite ?IH; lia.
Qed.

Lemma wrap64_idem a : wrap64 (wrap64 a) = wrap64 a.
Proof. unfold wrap64. apply Z.mod_mod. lia. Qed.

Lemma returned_note d rq log r :
  (forall rq' n, r <> Returned d rq' n) ->
  returned d rq (log ++ [r]) = returned d rq log.
Proof.
  intros H. rewrite returned_app.
  destruct r as [d' rq' e|d' rq' n| | |]; simpl; try lia.
  destruct d, d'; simpl; try lia; destruct (H rq' n eq_refl).
Qed.

Lemma returned_snoc rq rq' log n :
  returned Input rq' (log ++ [Returned Input rq n]) =
  returned Input rq' log + (if rq =? rq' then sint32 n else 0).
Proof. rewrite returned_app. simpl. lia. Qed.

(** *** Input slots *)

Lemma filled_note l log r :
  (forall rq n, r <> Returned Input rq n) ->
  filled_slots l log -> filled_slots l (log ++ [r]).
Proof.
  intros H Hf i q Hi Hq. unfold filled.
  rewrite returned_note by exact H. exact (Hf i q Hi Hq).
Qed.

Lemma filled_insert_free l log i q' :
  status q' = QUEITEM_FREE ->
  filled_slots l log -> filled_slots (<[i:=q']> l) log.
Proof.
  intros Hs Hf k q Hk Hq.
  apply list_lookup_insert_Some in Hk as [(-> & -> & Hl)|(Hne & Hk)];
    [contradiction|].
  exact (Hf k q Hk Hq).
Qed.

Lemma filled_insert_same l log i q' :
  rqnum q' = rqnum (item l i) -> readyb q' = readyb (item l i) ->
  (status q' <> QUEITEM_FREE -> status (item l i) <> QUEITEM_FREE) ->
  filled_slots l log -> filled_slots (<[i:=q']> l) log.
Proof.
  intros Hr Hb Hs Hf k q Hk Hq.
  apply list_lookup_insert_Some in Hk as [(-> & -> & Hl)|(Hne & Hk)].
  - rewrite Hr, Hb. apply (Hf k); [apply item_lookup, Hl | apply Hs, Hq].
  - exact (Hf k q Hk Hq).
Qed.

Lemma filled_insert_new l log n i q' :
  unread n log -> rqnum q' = n + 1 -> readyb q' = 0 ->
  filled_slots l log -> filled_slots (<[i:=q']> l) log.
Proof.
  intros Hu Hr Hb Hf k q Hk Hq.
  apply list_lookup_insert_Some in Hk as [(-> & -> & Hl)|(Hne & Hk)].
  - rewrite Hr, Hb. unfold filled. rewrite Hu by lia. reflexivity.
  - exact (Hf k q Hk Hq).
Qed.

(** [aio_return] answers [r] for the read of slot [i]. *)
Lemma filled_insert_returned l n srcs log i r q' :
  fresh_slots l n srcs -> filled_slots l log ->
  status (item l i) <> QUEITEM_FREE ->
  rqnum q' = rqnum (item l i) ->
  (status q' <> QUEITEM_FREE ->
   readyb q' = wrap64 (readyb (item l i) + sint32 r)) ->
  filled_slots (<[i:=q']> l) (log ++ [Returned Input (rqnum (item l i)) r]).
Proof.
  intros [_ H2] Hf Hs Hr Hb k q Hk Hq.
  pose proof (item_not_free l i Hs) as Hi.
  unfold filled. rewrite returned_snoc.
  apply list_lookup_insert_Some in Hk as [(-> & -> & Hl)|(Hne & Hk)].
  - rewrite Hr, Z.eqb_refl, (Hb Hq), (Hf k _ Hi Hs).
    unfold filled. apply wrap64_add_l.
  - destruct (Z.eqb_spec (rqnum (item l i)) (rqnum q)) as [E|E].
    + destruct Hne. apply (H2 _ _ _ _ Hi Hk); auto.
    + rewrite Z.add_0_r. exact (Hf k q Hk Hq).
Qed.

Lemma filled_range l log i :
  filled_slots l log -> status (item l i) <> QUEITEM_FREE ->
  wrap64 (readyb (item l i)) = readyb (item l i).
Proof.
  intros Hf Hs. rewrite (Hf i _ (item_not_free l i Hs) Hs).
  apply wrap64_idem.
Qed.

(** *** Reads that were not started *)

Lemma unread_note n log r :
  (forall rq m, r <> Returned Input rq m) ->
  unread n log -> unread n (log ++ [r]).
Proof.
  intros H Hu rq Hrq. rewrite returned_note by exact H. exact (Hu rq Hrq).
Qed.

Lemma unread_returned l n srcs log i r :
  fresh_slots l n srcs -> status (item l i) <> QUEITEM_FREE ->
  unread n log ->
  unread n (log ++ [Returned Input (rqnum (item l i)) r]).
Proof.
  intros [H1 _] Hs Hu rq Hrq. rewrite returned_snoc, (Hu rq Hrq).
  destruct (H1 _ _ (item_not_free l i Hs) Hs) as [Hb _].
  destruct (Z.eqb_spec (rqnum (item l i)) rq); lia.
Qed.

Lemma unread_grow n log : unread n log -> unread (n + 1) log.
Proof. intros Hu rq Hrq. apply Hu. lia. Qed.

(** *** Writes *)

Lemma sized_note tr log r :
  (forall rq n, r <> Returned Input rq n) ->
  sized_writes tr log -> sized_writes tr (log ++ [r]).
Proof.
  intros H Hz rq src cb Hin. unfold filled.
  rewrite returned_note by exact H. exact (Hz rq src cb Hin).
Qed.

Lemma write_in_sources tr rq src cb :
  In (EvWrite rq src cb) tr -> In src (sources tr).
Proof.
  unfold sources. induction tr as [|e tr IH]; simpl; [tauto|].
  intros [->|H]; [left; reflexivity|].
  destruct e; simpl; auto.
Qed.

Lemma sized_returned l n tr log i r :
  fresh_slots l n (sources tr) -> status (item l i) <> QUEITEM_FREE ->
  sized_writes tr log ->
  sized_writes tr (log ++ [Returned Input (rqnum (item l i)) r]).
Proof.
  intros [H1 _] Hs Hz rq src cb Hin. unfold filled. rewrite returned_snoc.
  destruct (H1 _ _ (item_not_free l i Hs) Hs) as [_ Hn].
  destruct (Z.eqb_spec (rqnum (item l i)) src) as [E|E].
  - destruct Hn. rewrite E. exact (write_in_sources _ _ _ _ Hin).
  - rewrite Z.add_0_r. exact (Hz rq src cb Hin).
Qed.

Lemma sized_event tr e log :
  (forall rq src cb, e <> EvWrite rq src cb) ->
  sized_writes tr log -> sized_writes (tr ++ [e]) log.
Proof.
  intros H Hz rq src cb Hin. apply in_app_or in Hin as [Hin|[E|[]]].
  - exact (Hz rq src cb Hin).
  - destruct (H _ _ _ E).
Qed.

Lemma sized_write l tr rq jj cb log :
  filled_slots l log -> status (item l jj) <> QUEITEM_FREE ->
  aio_nbytes cb = readyb (item l jj) ->
  sized_writes tr log ->
  sized_writes (tr ++ [EvWrite rq (rqnum (item l jj)) cb]) log.
Proof.
  intros Hf Hs Hn Hz rq' src cb' Hin. apply in_app_or in Hin as [Hin|[E|[]]].
  - exact (Hz rq' src cb' Hin).
  - injection E as <- <- <-. rewrite Hn.
    exact (Hf jj _ (item_not_free l jj Hs) Hs).
Qed.

Ltac no_input_return :=
  let a := fresh in let b := fresh in intros a b; discriminate.

Ltac not_free :=
  cbn; zify_tests;
  unfold QUEITEM_FREE, QUEITEM_READY, QUEITEM_INPROGRESS in *; congruence.

Ltac acct_goal :=
  unfold accounted in *; cbn;
  repeat match goal with
  | |- _ /\ _ => split
  | |- filled_slots _ (_ ++ [Returned Input _ _]) =>
    eapply filled_insert_returned;
    [ eassumption | | not_free | reflexivity
    | cbn; let H := fresh in intros H;
      first
        [ exfalso; apply H; reflexivity
        | reflexivity
        | zify_tests; cbn in *;
          match goal with H : sint32 _ = 0 |- _ => rewrite H end;
          rewrite Z.add_0_r; symmetry; eapply filled_range;
          [eassumption | not_free] ] ]
  | |- filled_slots _ (_ ++ [_]) => apply filled_note; [no_input_return|]
  | |- filled_slots (<[_:=_]> _) _ =>
    first [ apply filled_insert_free; [reflexivity|]
          | apply filled_insert_same; [reflexivity | reflexivity | not_free |]
          | eapply filled_insert_new; [eassumption | reflexivity | reflexivity |] ]
  | |- filled_slots _ _ => assumption
  | |- unread _ (_ ++ [Returned Input _ _]) =>
    eapply unread_returned; [eassumption | not_free |]
  | |- unread _ (_ ++ [_]) => apply unread_note; [no_input_return|]
  | |- unread (_ + 1) _ => apply unread_grow
  | |- unread _ _ => assumption
  | |- sized_writes (_ ++ [EvWrite _ _ _]) _ =>
    eapply sized_write; [ | not_free | reflexivity | ]
  | |- sized_writes (_ ++ [_]) _ => apply sized_event; [no_write|]
  | |- sized_writes _ (_ ++ [Returned Input _ _]) =>
    eapply sized_returned; [eassumption | not_free |]
  | |- sized_writes _ (_ ++ [_]) => apply sized_note; [no_input_return|]
  | |- sized_writes _ _ => assumption
  end.

Section Accounting.
Context (cfg : config) (os : nat -> Z).

Let known (s : state) : Prop := written_once s /\ accounted s.
Let sized (s : state) : Prop := sized_writes (trace s) (replies s).

Ltac known_goal :=
  lazymatch goal with
  | |- written_once _ => once_goal
  | |- _ => acct_goal
  end.

Lemma ique_visit_known i : preserves known sized (ique_visit cfg os i).
Proof.
  intros s (Hw & Ha).
  pose proof Hw as (Hn & Hfr & Hd). pose proof Ha as (Hf & Hu & Hz).
  unfold known, sized. unfold_sched. cbn.
  repeat step; cbn; try split; known_goal.
Qed.

Lemma oque_scan_known i fuel :
  preserves known sized (oque_scan cfg os fuel i).
Proof.
  induction fuel as [|fuel IH]; intros s Hk; [exact Hk|].
  pose proof Hk as (Hw & Ha).
  pose proof Hw as (Hn & Hfr & Hd). pose proof Ha as (Hf & Hu & Hz).
  simpl. unfold_sched. cbn.
  destruct (Nat.ltb_spec (j s) (imaxqsize cfg)) as [Hj|Hj]; [|exact Hk].
  unfold known, sized in *.
  repeat step; cbn; try (apply IH); try split; known_goal.
Qed.

Lemma oque_visit_known i : preserves known sized (oque_visit cfg os i).
Proof.
  intros s Hk.
  destruct (Z.eqb_spec (status (item (oque s) i)) QUEITEM_INPROGRESS) as [E|E].
  2:{ unfold oque_visit, bind, gets. cbn.
      rewrite (proj2 (Z.eqb_neq _ _) E). apply oque_scan_known, Hk. }
  pose proof Hk as (Hw & Ha).
  pose proof Hw as (Hn & Hfr & Hd). pose proof Ha as (Hf & Hu & Hz).
  unfold known, sized. unfold_sched. cbn. rewrite (proj2 (Z.eqb_eq _ _) E).
  repeat step; cbn; try split; known_goal.
Qed.

Lemma turn_known : preserves known sized (turn cfg os).
Proof.
  unfold turn, pass_A, pass_B.
  apply preserves_bind; [apply preserves_for_loop, ique_visit_known | intros _].
  apply preserves_bind; [|intros _; apply preserves_gets].
  apply preserves_bind; [intros s H; exact H | intros _].
  apply preserves_for_loop, oque_visit_known.
Qed.

Lemma main_loop_known n : preserves known sized (main_loop cfg os n).
Proof.
  induction n as [|n IH]; simpl.
  - apply preserves_ret.
  - apply preserves_bind; [apply turn_known | intros [|]; [|apply IH]].
    intros s (_ & _ & _ & H).
    unfold epilogue, gettimeofday, syscall, note, modify, bind, exit.
    destruct (os (clock s) =? -1); unfold sized; cbn;
      (apply sized_note; [no_input_return | exact H]).
Qed.

(** In every run, each write asks for the bytes that the read it carries
    was filled with. *)
Lemma run_sized ifd ofd n :
  sized_writes (trace (final_state (run cfg os ifd ofd n)))
    (replies (final_state (run cfg os ifd ofd n))).
Proof.
  unfold run. unfold bind at 1 2.
  pose proof (setup_state cfg os ifd ofd) as H0.
  destruct (setup cfg os ifd ofd start_state) as [[] s0|c s0].
  - destruct H0 as (qi & qo & k & -> & _ & Fi & _).
    match goal with |- context [main_loop cfg os n ?s] =>
      assert (Hk : known s) end.
    { split.
      - split; [cbn; lia|]. split; [|split; constructor].
        split.
        + intros m q Hm Hq.
          destruct Hq. exact (proj1 (Forall_lookup _ _) Fi _ _ Hm).
        + intros m m' q q' Hm _ Hq.
          destruct Hq. exact (proj1 (Forall_lookup _ _) Fi _ _ Hm).
      - split; [|split].
        + intros m q Hm Hq.
          destruct Hq. exact (proj1 (Forall_lookup _ _) Fi _ _ Hm).
        + intros rq _. reflexivity.
        + intros rq src cb []. }
    pose proof (main_loop_known n _ Hk) as H1.
    destruct (main_loop cfg os n _) as [[] s1|c s1]; [apply H1 | exact H1].
  - cbn. rewrite H0. intros rq src cb [].
Qed.

End Accounting.

Lemma writes_In tr w :
  In w (writes tr) -> In (EvWrite (w_rq w) (w_src w) (w_cb w)) tr.
Proof.
  induction tr as [|e tr IH]; simpl; [tauto|].
  destruct e; simpl; auto.
  intros [<-|H]; [left; reflexivity | right; auto].
Qed.

(** C1, as the code has it.  With a non-seekable output the writes are
    submitted in the order of the reads they carry, without a gap: a write
    goes out only when the read number of its input slot is the number of
    writes so far plus one, it gets that same number, it carries the
    buffer with which that read was first submitted, and it asks for
    exactly the bytes that read was filled with.  So the sources of the
    writes of a run are 1, 2, ..., in this order, and the destination gets
    the reads one after the other provided that every write is reported
    complete with the byte count it asked for. *)
Theorem nonseekable_output_keeps_read_order cfg os ifd ofd n :
  oseekable cfg = 0 ->
  let s := final_state (run cfg os ifd ofd n) in
  let tr := trace s in
  map w_src (writes tr) = seqZ 1 (Z.of_nat (length (writes tr))) /\
  each_write
    (fun pre rq src cb =>
       src = Z.of_nat (length (writes pre)) + 1 /\ rq = src /\
       exists cbr,
         In (EvRead src cbr) pre /\ aio_buf cbr = aio_buf cb /\
         aio_nbytes cbr = wrap64 (blksize cfg))
    tr /\
  (forall w, In w (writes tr) -> w_nbytes w = filled (w_src w) (replies s)) /\
  ((forall w, In w (writes tr) ->
      delivered (w_rq w) (replies s) = w_nbytes w) ->
   stream_is_concatenation s).
Proof.
  intros Ho s tr.
  assert (H : each_write
    (fun pre rq src cb =>
       src = Z.of_nat (length (writes pre)) + 1 /\ rq = src /\
       exists cbr,
         In (EvRead src cbr) pre /\ aio_buf cbr = aio_buf cb /\
         aio_nbytes cbr = wrap64 (blksize cfg)) tr).
  { intros pre rq src cb post E.
    destruct (run_write_ok cfg os ifd ofd n pre rq src cb post E)
      as (Hrq & Hsrc & (cbr & Hin & Hb & Hn & _) & _).
    specialize (Hsrc Ho). split; [lia|]. split; [lia|].
    exists cbr. auto. }
  assert (Hz : forall w, In w (writes tr) ->
                 w_nbytes w = filled (w_src w) (replies s)).
  { intros w Hw. apply writes_In in Hw.
    exact (run_sized cfg os ifd ofd n _ _ _ Hw). }
  split; [|split; [exact H|split; [exact Hz|]]].
  - apply srcs_consecutive. intros pre rq src cb post E.
    exact (proj1 (H pre rq src cb post E)).
  - intros Hd k w Hk.
    destruct (run_write_src cfg os ifd ofd n k w Ho Hk) as [_ Hsrc].
    split; [exact Hsrc|].
    assert (Hw : In w (writes tr)).
    { apply list_elem_of_In. eapply list_elem_of_lookup_2. exact Hk. }
    rewrite (Hd w Hw). exact (Hz w Hw).
Qed.

(** C1 as stated fails: in the run of [main] on [opts_pipe] with the
    answers of [os_short_write], on a non-seekable output, read 1 brings
    512 bytes and write 1 is reported to have written 100 of them; the
    output slot is released, nothing is written again, and [main] returns
    [EXIT_SUCCESS]. *)
Lemma nonseekable_output_stream_loses_bytes :
  main opts_pipe fs_fifo_in 0 os_short_write 4
  = run cfg_pipe os_short_write 0 1 4 /\
  oseekable cfg_pipe = 0 /\
  (exists s,
     main opts_pipe fs_fifo_in 0 os_short_write 4 = Exit EXIT_SUCCESS s /\
     writes (trace s) = [Write 1 1 (Aiocb 1 0 4096 0 512)] /\
     filled 1 (replies s) = 512 /\ delivered 1 (replies s) = 100 /\
     ~ stream_is_concatenation s).
Proof.
  split; [reflexivity|]. split; [reflexivity|].
  exists (final_state (main opts_pipe fs_fifo_in 0 os_short_write 4)).
  split; [vm_compute; reflexivity|].
  split; [vm_compute; reflexivity|].
  split; [vm_compute; reflexivity|].
  split; [vm_compute; reflexivity|].
  intros H.
  destruct (H 0%nat (Write 1 1 (Aiocb 1 0 4096 0 512))) as [_ Hd].
  - vm_compute. reflexivity.
  - vm_compute in Hd. discriminate Hd.
Qed.

(** C1 as the code has it, on the run of [os_last_short]: write 2 carries
    read 2 with the 100 bytes it was filled with. *)
Lemma nonseekable_output_keeps_read_order_witness :
  let s := final_state (run cfg_pipe os_last_short 0 1 6) in
  map w_src (writes (trace s)) = [1; 2] /\
  map w_nbytes (writes (trace s)) = [512; 100] /\
  filled 2 (replies s) = 100 /\
  stream_is_concatenation s.
Proof.
  intros s.
  destruct (nonseekable_output_keeps_read_order cfg_pipe os_last_short 0 1 6
              eq_refl) as (Hsrc & _ & Hn & Hs).
  fold s in Hsrc, Hn, Hs.
  split; [rewrite Hsrc; vm_compute; reflexivity|].
  split; [vm_compute; reflexivity|].
  split.
  - symmetry. apply (Hn (Write 2 2 (Aiocb 1 0 8192 512 100))).
    vm_compute. right. left. reflexivity.
  - apply Hs. intros w Hw.
    assert (Hl : w = Write 1 1 (Aiocb 1 0 4096 0 512)
                 \/ w = Write 2 2 (Aiocb 1 0 8192 512 100)).
    { vm_compute in Hw. intuition. }
    destruct Hl as [->| ->]; vm_compute; reflexivity.
Defined.
